(** * nodejs-hnbt: the per-account race and its concurrency primitives

    A shallow embedding of the parts of the program that decide the
    specification's testable properties, followed by their proofs.

    The embedding:
    - [Js]            JSON-like values as the response parsers inspect them;
    - [Api]           accounts and the results of the network layer;
    - [Submitter]     ApplicationSubmitter: [parseSubmitResponse],
                      [generateSubmitTasks], [submitForAccount] and the
                      callbacks of [executeHighConcurrencySubmission];
    - [Validator]     both revisions of TicketValidator;
    - [TicketManager] [enforceRateLimit], [validateTicketResponse] and the
                      retry loop of [getTicketForAccount];
    - [ProxyPool]     [getNextProxy], [getRandomProxy], [markProxyFailed];
    - [ProxyExpiry]   the timers of the pool that watch the lease;
    - [ApiClient]     the retry loop of [makeRequest];
    - [AccountManager] the accounts, [setAccountPreWorkResult] and the
                      purchase tasks;
    - [PreWork]       [executeForAccount] and the parsing it relies on;
    - [Flow]          PurchaseFlow.executeIndependentAccountFlow,
                      [calculateResultStats], [stop] and [reset];
    - [Samples]       concrete accounts, responses and runs.

    The properties: [SubmitterParse], [RaceProps], [FlowProps],
    [ValidationProps], [RateLimitProps], [TicketProps], [ProxyProps], and
    further ones of the same code in [SubmitterMore], [TicketMore],
    [ProxyMore], [ApiClientProps], [FlowMore], [ValidatorMore],
    [TicketParse], [AccountProps], [PreWorkProps], [ProxyRandom] and
    [ProxyExpiryProps].

    Asynchronous code is modelled by the callbacks the event loop runs:
    a state record holds the closure variables, and one function per callback
    transforms it.  Calls to the outside (clock, network layer, timers) are
    inputs of the model; logging is left out.  A loop that awaits the outside
    runs over a finite script of what the outside answers, and reports that
    it is still running when the script ends. *)

From stdpp Require Import gmap strings list pretty.
From Stdlib Require Import ZArith.

#[local] Set Warnings "-register-all".

(** ** Exceptions *)

(** A computation that may throw; [Throw] carries the error's message. *)
Inductive res (A : Type) : Type :=
| Ok (a : A)
| Throw (msg : string).
Arguments Ok {A} a.
Arguments Throw {A} msg.

Definition bind {A B : Type} (m : res A) (k : A -> res B) : res B :=
  match m with
  | Ok a => k a
  | Throw msg => Throw msg
  end.

Notation "x <- m ;; k" := (bind m (fun x => k))
  (at level 100, m at next level, right associativity).

(** [try { body } catch (error) { handler(error.message) }] *)
Definition try_catch {A} (body : res A) (handler : string -> A) : A :=
  match body with
  | Ok a => a
  | Throw msg => handler msg
  end.

(** ** JavaScript values *)
Module Js.

(** The values a parsed response body can hold.  Numbers are only ever
    tested for truthiness by the program, so an integer stands for them.
    An object is the list of its own properties, first binding first. *)
Inductive jsval : Type :=
| JUndefined
| JNull
| JBool (b : bool)
| JNum (n : Z)
| JStr (s : string)
| JArr (items : list jsval)
| JObj (fields : list (string * jsval)).

(** ToBoolean *)
Definition truthy (v : jsval) : bool :=
  match v with
  | JUndefined | JNull => false
  | JBool b => b
  | JNum n => negb (n =? 0)%Z
  | JStr s => negb (String.eqb s "")
  | JArr _ | JObj _ => true
  end.

(** [a || b] *)
Definition js_or (a b : jsval) : jsval := if truthy a then a else b.

(** [typeof v === 'object'] *)
Definition typeof_object (v : jsval) : bool :=
  match v with
  | JNull | JArr _ | JObj _ => true
  | _ => false
  end.

Fixpoint assoc (k : string) (fields : list (string * jsval)) : jsval :=
  match fields with
  | [] => JUndefined
  | (k', v) :: rest => if String.eqb k k' then v else assoc k rest
  end.

(** [v.k] for the property names the program reads ([success], [data],
    [code], [message], [requestId], [ticket]): none of them is a built-in
    property of a string, an array, a number or a boolean. *)
Definition get (v : jsval) (k : string) : res jsval :=
  match v with
  | JUndefined | JNull =>
      Throw ("TypeError: Cannot read properties of undefined or null (reading '" +:+ k +:+ "')")
  | JObj fields => Ok (assoc k fields)
  | _ => Ok JUndefined
  end.

(** [v === 'lit'] and [v === true], [v === false] *)
Definition is_str (v : jsval) (lit : string) : bool :=
  match v with
  | JStr s => String.eqb s lit
  | _ => false
  end.

Definition is_bool (v : jsval) (b : bool) : bool :=
  match v with
  | JBool b' => Bool.eqb b b'
  | _ => false
  end.

(** String.prototype.includes: [needle] occurs somewhere in [hay]. *)
Fixpoint str_includes (hay needle : string) : bool :=
  String.prefix needle hay ||
  match hay with
  | EmptyString => false
  | String _ rest => str_includes rest needle
  end.

(** [message.includes(needle)]: a string searches for the substring, an
    array for an element strictly equal to the needle; every other value has
    no callable [includes]. *)
Definition call_includes (message : jsval) (needle : string) : res bool :=
  match message with
  | JStr s => Ok (str_includes s needle)
  | JArr items => Ok (existsb (fun v => is_str v needle) items)
  | _ => Throw "TypeError: message.includes is not a function"
  end.

End Js.

(** ** What the network layer hands back *)
Module Api.
Import Js.

(** [tourismSubsidyIds] is the list [Object.entries] yields for the object
    ([None] when the property is falsy). *)
Record account : Type := Account {
  accId : string;
  username : string;
  tourismSubsidyIds : option (list (string * jsval));
  foodSubsidyId : jsval
}.

(** The two shapes [ApiClient.makeRequest] returns:
    [{success: true, data, status, duration}] after an HTTP 200 and
    [{success: false, error, message}] once its retries are used up. *)
Inductive api_result : Type :=
| ApiSuccess (data : jsval)
| ApiFailure (message : string).

(** How the promise of an [apiClient] call settles. *)
Inductive api_reply : Type :=
| Fulfilled (result : api_result)
| Rejected (error_code : jsval) (error_message : string).

(** The same result as the plain object the submitter inspects. *)
Definition api_result_object (result : api_result) : jsval :=
  match result with
  | ApiSuccess data => JObj [("success", JBool true); ("data", data)]
  | ApiFailure message => JObj [("success", JBool false); ("message", JStr message)]
  end.

End Api.

(** ** ApplicationSubmitter *)
Module Submitter.
Import Js Api.

(** The object [parseSubmitResponse] returns; [executeSubmitTask] spreads it
    and adds the task.  A field the object literal does not have is
    [JUndefined] or [None]. *)
Record submit_result : Type := SubmitResult {
  sr_success : bool;
  sr_status : string;
  sr_message : jsval;
  sr_code : jsval;
  sr_requestId : jsval;
  sr_needRetry : option bool;
  sr_needNewTicket : option bool
}.

(** The body of the [try] block of [parseSubmitResponse]. *)
Definition parseSubmitResponse_body (apiResult : jsval) : res submit_result :=
  api_success <- get apiResult "success";;
  if negb (truthy api_success) then
    (api_message <- get apiResult "message";;
     Ok (SubmitResult false "api_error" (js_or api_message (JStr "API调用失败"))
             JUndefined JUndefined (Some false) None))
  else
    (responseData <- get apiResult "data";;
     if negb (truthy responseData) || negb (typeof_object responseData) then
       Ok (SubmitResult false "invalid_response" (JStr "响应格式错误")
               JUndefined JUndefined (Some true) None)
     else
       (data_success <- get responseData "success";;
        data_code <- get responseData "code";;
        data_message <- get responseData "message";;
        data_requestId <- get responseData "requestId";;
        if is_bool data_success true then
          Ok (SubmitResult true "submitted" (js_or data_message (JStr "提交成功"))
                  data_code data_requestId (Some false) None)
        else if is_bool data_success false then
          let code := data_code in
          let message := js_or data_message (JStr "") in
          if is_str code "TICKET_INVALID" then
            Ok (SubmitResult false "ticket_invalid" (JStr "Ticket过期")
                    code JUndefined (Some false) (Some true))
          else
            (is_dup <- call_includes message "重复提交";;
             if is_dup then
               Ok (SubmitResult true "duplicate" message code data_requestId
                       (Some false) None)
             else
               Ok (SubmitResult false "failed" message code JUndefined
                       (Some true) None))
        else
          Ok (SubmitResult false "unknown" (JStr "未知响应状态")
                  JUndefined JUndefined (Some true) None))).

Definition parseSubmitResponse (apiResult : jsval) : submit_result :=
  try_catch (parseSubmitResponse_body apiResult)
    (fun error_message =>
       SubmitResult false "parse_error" (JStr error_message)
         JUndefined JUndefined (Some true) None).

(** *** Accounts, tasks and the submitter's own state *)

Record submit_task : Type := SubmitTask {
  task_type : string;
  task_quota : option string;
  task_subsidyId : jsval;
  task_account : account;
  task_ticket : string;
  task_description : string
}.

Record account_status : Type := AccountStatus {
  st_status : string;
  st_completedAt : Z
}.

Record submitter : Type := Submitter {
  accountStatuses : gmap string account_status;
  isRunning : bool;
  successfulAccounts : gset string;
  duplicateSubmissions : gset string
}.

Definition isAccountCompleted (this : submitter) (accountId : string) : bool :=
  bool_decide (is_Some (accountStatuses this !! accountId)).

Definition markAccountCompleted (this : submitter) (accountId status : string) (now : Z)
  : submitter :=
  Submitter (<[accountId := AccountStatus status now]> (accountStatuses this))
    (isRunning this) (successfulAccounts this) (duplicateSubmissions this).

Definition stop (this : submitter) : submitter :=
  Submitter (accountStatuses this) false (successfulAccounts this)
    (duplicateSubmissions this).

Definition reset (this : submitter) : submitter := Submitter ∅ true ∅ ∅.

Definition generateSubmitTasks (acct : account) (ticket : string) : list submit_task :=
  let tourism :=
    map (fun '(quota, subsidyId) =>
           SubmitTask "tourism" (Some quota) subsidyId acct ticket
             ("消费" +:+ quota +:+ "档"))
        (default [] (tourismSubsidyIds acct)) in
  if truthy (foodSubsidyId acct) then
    tourism ++ [SubmitTask "food" None (foodSubsidyId acct) acct ticket "餐饮档"]
  else tourism.

(** *** One submission attempt *)

(** What the promise of [executeSubmitTask] settles with: the parsed result
    with the task added. *)
Record task_result : Type := TaskResult {
  tr_result : submit_result;
  tr_task : submit_task
}.

(** [executeSubmitTask] once [apiClient.submitApplication] has settled:
    [Ok apiResult] when it fulfilled, [Throw] when it rejected. *)
Definition executeSubmitTask (task : submit_task) (reply : res jsval) : task_result :=
  try_catch
    (apiResult <- reply ;;
     Ok (TaskResult (parseSubmitResponse apiResult) task))
    (fun _ =>
       TaskResult (SubmitResult false "error" JUndefined JUndefined JUndefined None None)
         task).

(** *** The high-concurrency race *)

(** The object a race resolves with, which [submitForAccount] returns. *)
Record account_result : Type := AccountResult {
  ar_success : bool;
  ar_completed : option bool;
  ar_needRetry : option bool;
  ar_needNewTicket : option bool;
  ar_error : option string;
  ar_account : account;
  ar_result : option task_result
}.

(** The closure of [executeHighConcurrencySubmission]: its two variables,
    the submitter it reads [isRunning] from, and a record of what it has done
    to the outside: every call of [resolve], every call of
    [executeSubmitTask] and the number of round timers it has set. *)
Record race : Type := Race {
  completed : bool;
  roundCounter : nat;
  this : submitter;
  resolved : list account_result;
  dispatched : list submit_task;
  roundTimers : nat
}.

Definition handleSuccess (acct : account) (result : task_result) (r : race) : race :=
  if completed r then r
  else Race true (roundCounter r) (this r)
         (resolved r ++
          [AccountResult true (Some true) None None None acct (Some result)])
         (dispatched r) (roundTimers r).

Definition handleTicketExpired (acct : account) (r : race) : race :=
  if completed r then r
  else Race true (roundCounter r) (this r)
         (resolved r ++
          [AccountResult false (Some false) None (Some true) None acct None])
         (dispatched r) (roundTimers r).

(** The [.then] callback of one attempt. *)
Definition onTaskResult (acct : account) (result : task_result) (r : race) : race :=
  if completed r then r
  else if sr_success (tr_result result) &&
          (String.eqb (sr_status (tr_result result)) "submitted" ||
           String.eqb (sr_status (tr_result result)) "duplicate")
  then handleSuccess acct result r
  else if default false (sr_needNewTicket (tr_result result))
  then handleTicketExpired acct r
  else r.

(** The callback of [submitTasks.forEach] for one task. *)
Definition dispatchTask (r : race) (task : submit_task) : race :=
  if completed r || negb (isRunning (this r)) then r
  else Race (completed r) (roundCounter r) (this r) (resolved r)
         (dispatched r ++ [task]) (roundTimers r).

Definition startSubmissionRound (submitTasks : list submit_task) (r : race) : race :=
  if completed r || negb (isRunning (this r)) then r
  else
    let r1 := Race (completed r) (S (roundCounter r)) (this r) (resolved r)
                (dispatched r) (roundTimers r) in
    let r2 := foldl dispatchTask r1 submitTasks in
    if negb (completed r2) && isRunning (this r2) then
      Race (completed r2) (roundCounter r2) (this r2) (resolved r2)
        (dispatched r2) (S (roundTimers r2))
    else r2.

(** The callback of the [setTimeout(..., timeoutMs)] guard. *)
Definition onSubmitTimeout (acct : account) (r : race) : race :=
  if negb (completed r) then
    Race true (roundCounter r) (this r)
      (resolved r ++
       [AccountResult false (Some false) None None (Some "提交超时") acct None])
      (dispatched r) (roundTimers r)
  else r.

(** What the event loop can run while a race is alive. *)
Inductive event : Type :=
| TaskSettled (result : task_result)
| TaskRejected (error_message : string)
| RoundTimer
| SubmitTimeout
| StopCalled
| ResetCalled.

Definition with_submitter (f : submitter -> submitter) (r : race) : race :=
  Race (completed r) (roundCounter r) (f (this r)) (resolved r) (dispatched r)
    (roundTimers r).

Definition step (acct : account) (submitTasks : list submit_task) (r : race) (e : event)
  : race :=
  match e with
  | TaskSettled result => onTaskResult acct result r
  | TaskRejected _ => r
  | RoundTimer => startSubmissionRound submitTasks r
  | SubmitTimeout => onSubmitTimeout acct r
  | StopCalled => with_submitter stop r
  | ResetCalled => with_submitter reset r
  end.

(** The executor of the promise: the variables are initialised and the first
    round starts at once. *)
Definition race_start (s : submitter) (submitTasks : list submit_task) : race :=
  startSubmissionRound submitTasks (Race false 0 s [] [] 0).

Definition executeHighConcurrencySubmission (s : submitter) (acct : account)
  (submitTasks : list submit_task) (events : list event) : race :=
  foldl (step acct submitTasks) (race_start s submitTasks) events.

(** A call of [submitForAccount] followed by the given events: the value the
    returned promise has settled with so far (a promise keeps the first value
    it is resolved with), the race it launched, if any, and the submitter
    afterwards. *)
Record submission : Type := Submission {
  sub_result : option account_result;
  sub_race : option race;
  sub_submitter : submitter
}.

Definition submitForAccount (s : submitter) (acct : account) (ticket : string)
  (events : list event) : submission :=
  let accountId := accId acct in
  if isAccountCompleted s accountId then
    Submission (Some (AccountResult true (Some true) None None None acct None)) None s
  else
    let submitTasks := generateSubmitTasks acct ticket in
    if (length submitTasks =? 0)%nat then
      Submission
        (Some (AccountResult false None (Some false) None (Some "无可提交的档位") acct None))
        None s
    else
      let r := executeHighConcurrencySubmission s acct submitTasks events in
      Submission (head (resolved r)) (Some r) (this r).

(** *** Vocabulary of the properties *)

Definition statuses : list string :=
  ["api_error"; "invalid_response"; "submitted"; "ticket_invalid"; "duplicate";
   "failed"; "unknown"; "parse_error"].

(** A result as the classification table of the parser allows it. *)
Definition canonical (r : submit_result) : Prop :=
  sr_status r ∈ statuses ∧
  (sr_success r = true ↔ sr_status r = "submitted" ∨ sr_status r = "duplicate") ∧
  (sr_needNewTicket r = Some true ↔ sr_status r = "ticket_invalid").

(** The race has resolved its promise exactly when [completed] is set, and
    then exactly once. *)
Definition settled_once (r : race) : Prop :=
  if completed r then ∃ outcome, resolved r = [outcome] else resolved r = [].

(** What a dispatch, a round or a stop may change is not the record of
    [resolve] calls nor the flag. *)
Definition same_verdict (r r' : race) : Prop :=
  completed r' = completed r ∧ resolved r' = resolved r.

(** Nothing was sent and no round was counted or scheduled between [r] and [r']. *)
Definition same_traffic (r r' : race) : Prop :=
  roundCounter r' = roundCounter r ∧ dispatched r' = dispatched r ∧
  roundTimers r' = roundTimers r.

(** What [handleSuccess] and [handleTicketExpired] resolve with. *)
Definition won (acct : account) (result : task_result) : account_result :=
  AccountResult true (Some true) None None None acct (Some result).

Definition needs_ticket (acct : account) : account_result :=
  AccountResult false (Some false) None (Some true) None acct None.

(** *** Batches and the results of a synchronous round *)

(** [chunkArray]: the loop [for (let i = 0; i < array.length; i += chunkSize)]
    pushing [array.slice(i, i + chunkSize)], run for at most [fuel] passes;
    [None] when the passes are used up with the loop still going. *)
Fixpoint chunk_from {A : Type} (fuel : nat) (array : list A) (chunkSize i : nat)
  : option (list (list A)) :=
  if (i <? length array)%nat then
    match fuel with
    | O => None
    | S fuel' =>
        cons (take chunkSize (drop i array))
          <$> chunk_from fuel' array chunkSize (i + chunkSize)
    end
  else Some [].

Definition chunkArray {A : Type} (array : list A) (chunkSize : nat)
  : option (list (list A)) :=
  chunk_from (length array) array chunkSize 0.

(** One entry of what [Promise.allSettled] yields for the attempts. *)
Inductive task_settled : Type :=
| TaskFulfilled (value : task_result)
| TaskFailed (reason_message : string).

(** The variables [processSubmitResults] updates while it walks the results.
    An entry of [errors] is the pair a template literal joins with [": "]:
    the task's description and the message. *)
Record tally : Type := Tally {
  hasSuccess : bool;
  hasDuplicate : bool;
  needNewTicket : bool;
  allFailed : bool;
  errors : list (string * jsval)
}.

(** The callback of [results.forEach]; [task] is [tasks[index]]. *)
Definition tally_result (t : tally) (entry : submit_task * task_settled) : tally :=
  let '(task, result) := entry in
  match result with
  | TaskFulfilled value =>
      let submitResult := tr_result value in
      if sr_success submitResult then
        if String.eqb (sr_status submitResult) "submitted" then
          Tally true (hasDuplicate t) (needNewTicket t) false (errors t)
        else if String.eqb (sr_status submitResult) "duplicate" then
          Tally (hasSuccess t) true (needNewTicket t) false (errors t)
        else Tally (hasSuccess t) (hasDuplicate t) (needNewTicket t) false (errors t)
      else
        Tally (hasSuccess t) (hasDuplicate t)
          (if default false (sr_needNewTicket submitResult) then true else needNewTicket t)
          (if default false (sr_needRetry submitResult) then false else allFailed t)
          (errors t ++ [(task_description task, sr_message submitResult)])
  | TaskFailed reason_message =>
      Tally (hasSuccess t) (hasDuplicate t) (needNewTicket t) (allFailed t)
        (errors t ++ [(task_description task, JStr reason_message)])
  end.

Record batch_result : Type := BatchResult {
  br_success : bool;
  br_completed : bool;
  br_hasSuccess : bool;
  br_hasDuplicate : bool;
  br_needNewTicket : bool;
  br_needRetry : bool;
  br_errors : list (string * jsval);
  br_account : account
}.

(** [processSubmitResults]; each result comes with the task of the same
    index, and [now] is what [Date.now()] reads in [markAccountCompleted]. *)
Definition processSubmitResults (s : submitter) (acct : account) (now : Z)
  (results : list (submit_task * task_settled)) : batch_result * submitter :=
  let accountId := accId acct in
  let t := foldl tally_result (Tally false false false true []) results in
  let s1 :=
    if hasSuccess t || hasDuplicate t then
      markAccountCompleted s accountId (if hasSuccess t then "success" else "duplicate") now
    else s in
  let s2 :=
    if hasSuccess t then
      Submitter (accountStatuses s1) (isRunning s1) ({[accountId]} ∪ successfulAccounts s1)
        (duplicateSubmissions s1)
    else s1 in
  let s3 :=
    if hasDuplicate t then
      Submitter (accountStatuses s2) (isRunning s2) (successfulAccounts s2)
        ({[accountId]} ∪ duplicateSubmissions s2)
    else s2 in
  (BatchResult (hasSuccess t || hasDuplicate t) (hasSuccess t || hasDuplicate t)
     (hasSuccess t) (hasDuplicate t) (needNewTicket t)
     (negb (allFailed t) && negb (hasSuccess t) && negb (hasDuplicate t))
     (errors t) acct,
   s3).

(** What the earlier revision of [submitForAccount] does once its attempts,
    one per task, have settled with [settle task]: the value it returns
    ([completed] and [needRetry] are absent from the skip and the no-task
    results), the attempts it made, and the submitter afterwards. *)
Record batch_submission : Type := BatchSubmission {
  bs_success : bool;
  bs_completed : option bool;
  bs_needRetry : option bool;
  bs_attempts : list submit_task;
  bs_submitter : submitter
}.

Definition submitForAccount_batch (s : submitter) (acct : account) (ticket : string)
  (now : Z) (settle : submit_task -> task_settled) : batch_submission :=
  if isAccountCompleted s (accId acct) then BatchSubmission true (Some true) None [] s
  else
    let submitTasks := generateSubmitTasks acct ticket in
    if (length submitTasks =? 0)%nat then BatchSubmission false None None [] s
    else
      let results := (fun task => (task, settle task)) <$> submitTasks in
      let '(result, s') := processSubmitResults s acct now results in
      BatchSubmission (br_success result) (Some (br_completed result))
        (Some (br_needRetry result)) submitTasks s'.

(** What [calculateSubmitStats] reads of one result: the truthiness of
    [completed], [hasSuccess], [hasDuplicate] and [needRetry]. *)
Record stat_view : Type := StatView {
  sv_completed : bool;
  sv_hasSuccess : bool;
  sv_hasDuplicate : bool;
  sv_needRetry : bool
}.

Definition view_batch (result : batch_result) : stat_view :=
  StatView (br_completed result) (br_hasSuccess result) (br_hasDuplicate result)
    (br_needRetry result).

(** A result of the high-concurrency [submitForAccount] has no [hasSuccess]
    and no [hasDuplicate]. *)
Definition view_account (result : account_result) : stat_view :=
  StatView (default false (ar_completed result)) false false
    (default false (ar_needRetry result)).

Record submit_stats : Type := SubmitStats {
  ss_total : nat;
  ss_successful : nat;
  ss_duplicate : nat;
  ss_failed : nat;
  ss_needRetry : nat;
  ss_completed : nat
}.

Definition count_submit (stats : submit_stats) (result : stat_view) : submit_stats :=
  if sv_completed result then
    SubmitStats (ss_total stats)
      (if sv_hasSuccess result then S (ss_successful stats) else ss_successful stats)
      (if sv_hasDuplicate result then S (ss_duplicate stats) else ss_duplicate stats)
      (ss_failed stats) (ss_needRetry stats) (S (ss_completed stats))
  else if sv_needRetry result then
    SubmitStats (ss_total stats) (ss_successful stats) (ss_duplicate stats)
      (ss_failed stats) (S (ss_needRetry stats)) (ss_completed stats)
  else
    SubmitStats (ss_total stats) (ss_successful stats) (ss_duplicate stats)
      (S (ss_failed stats)) (ss_needRetry stats) (ss_completed stats).

(** [calculateSubmitStats] over the values of the [results] map. *)
Definition calculateSubmitStats (results : list stat_view) : submit_stats :=
  foldl count_submit (SubmitStats (length results) 0 0 0 0 0) results.

(** An attempt whose result finalises the race with success. *)
Definition winning (result : task_result) : bool :=
  sr_success (tr_result result) &&
  (String.eqb (sr_status (tr_result result)) "submitted" ||
   String.eqb (sr_status (tr_result result)) "duplicate").

(** The value the timeout guard resolves with. *)
Definition timed_out (acct : account) : account_result :=
  AccountResult false (Some false) None None (Some "提交超时") acct None.

(** A settled attempt that succeeded with the given status. *)
Definition settled_as (status : string) (entry : submit_task * task_settled) : bool :=
  match snd entry with
  | TaskFulfilled value =>
      sr_success (tr_result value) && String.eqb (sr_status (tr_result value)) status
  | TaskFailed _ => false
  end.

End Submitter.

(** ** TicketValidator *)
Module Validator.
Import Js Api.

Record validation_result : Type := ValidationResult {
  vr_success : bool;
  vr_valid : bool;
  vr_account : account;
  vr_ticket : string;
  vr_error : option string;
  vr_needRetry : option bool
}.

(** [validateTicketForAccount] is the same in both revisions of the file;
    they differ in the [parseValidationResponse] it calls. *)
Section validate.
Variable parseValidationResponse : jsval -> bool.

Definition validateTicketForAccount_body (reply : api_reply) : res bool :=
  match reply with
  | Rejected _ error_message => Throw error_message
  | Fulfilled (ApiFailure message) => Throw ("校验API调用失败: " +:+ message)
  | Fulfilled (ApiSuccess data) => Ok (parseValidationResponse data)
  end.

(** [reply] is how [apiClient.validateTicket] settled. *)
Definition validateTicketForAccount (acct : account) (ticket : string)
  (reply : api_reply) : validation_result :=
  match validateTicketForAccount_body reply with
  | Ok isValid =>
      if isValid then ValidationResult true true acct ticket None None
      else ValidationResult true false acct ticket None (Some true)
  | Throw error_message =>
      ValidationResult false false acct ticket (Some error_message) (Some true)
  end.

End validate.

(** The first revision: [success !== false] passes. *)
Module V1.

Definition parseValidationResponse (responseData : jsval) : bool :=
  try_catch
    (if negb (truthy responseData) || negb (typeof_object responseData) then Ok false
     else
       (success <- get responseData "success" ;;
        if negb (is_bool success false) then Ok true else Ok false))
    (fun _ => false).

Definition validateTicketForAccount :=
  Validator.validateTicketForAccount parseValidationResponse.

End V1.

(** The second revision: only [success === true] passes. *)
Module V2.

Definition parseValidationResponse (responseData : jsval) : bool :=
  try_catch
    (if negb (truthy responseData) || negb (typeof_object responseData) then Ok false
     else
       (success <- get responseData "success" ;;
        if is_bool success true then Ok true
        else if is_bool success false then Ok false
        else Ok false))
    (fun _ => false).

Definition validateTicketForAccount :=
  Validator.validateTicketForAccount parseValidationResponse.

End V2.

(** *** Vocabulary of the properties *)

(** The [success] property of a body, and whether the body is an object at
    all ([!responseData || typeof responseData !== 'object'] fails). *)
Definition success_field (data : jsval) : jsval :=
  match data with
  | JObj fields => assoc "success" fields
  | _ => JUndefined
  end.

Definition is_object (data : jsval) : bool := truthy data && typeof_object data.

(** The call did not produce a body to judge: the promise rejected, the
    network layer reported failure, or the body is not an object. *)
Definition no_verdict (reply : api_reply) : bool :=
  match reply with
  | Rejected _ _ => true
  | Fulfilled (ApiFailure _) => true
  | Fulfilled (ApiSuccess data) => negb (is_object data)
  end.

(** *** Batch validation and its statistics *)

(** [Map.prototype.set] on a map kept in insertion order: a key that is
    already there keeps its place. *)
Fixpoint map_set {V : Type} (key : string) (value : V) (m : list (string * V))
  : list (string * V) :=
  match m with
  | [] => [(key, value)]
  | (k, v) :: m' =>
      if String.eqb k key then (k, value) :: m' else (k, v) :: map_set key value m'
  end.

Record validation_stats : Type := ValidationStats {
  vs_total : nat;
  vs_valid : nat;
  vs_invalid : nat;
  vs_error : nat
}.

Definition count_validation (stats : validation_stats) (result : validation_result)
  : validation_stats :=
  if vr_success result then
    if vr_valid result then
      ValidationStats (vs_total stats) (S (vs_valid stats)) (vs_invalid stats) (vs_error stats)
    else
      ValidationStats (vs_total stats) (vs_valid stats) (S (vs_invalid stats)) (vs_error stats)
  else
    ValidationStats (vs_total stats) (vs_valid stats) (vs_invalid stats) (S (vs_error stats)).

Definition calculateValidationStats (results : list (string * validation_result))
  : validation_stats :=
  foldl count_validation (ValidationStats (length results) 0 0 0) (snd <$> results).

(** [validateTicketsForAccounts]; [settled] lists the accounts with their
    tickets and the replies to their validation calls in the order in which the
    calls settle, which is the order of the [results.set] calls. *)
Definition validateTicketsForAccounts (parseValidationResponse : jsval -> bool)
  (settled : list (account * string * api_reply))
  : list (string * validation_result) * validation_stats :=
  let results :=
    foldl (fun results '(acct, ticket, reply) =>
             map_set (accId acct)
               (validateTicketForAccount parseValidationResponse acct ticket reply) results)
      [] settled in
  (results, calculateValidationStats results).

(** The result one settled call puts into [results]. *)
Definition validated (parseValidationResponse : jsval -> bool)
  (call : account * string * api_reply) : string * validation_result :=
  let '(acct, ticket, reply) := call in
  (accId acct, validateTicketForAccount parseValidationResponse acct ticket reply).

(** The body a call brought back, if it brought one. *)
Definition body_of (reply : api_reply) : option jsval :=
  match reply with
  | Fulfilled (ApiSuccess data) => Some data
  | _ => None
  end.

(** The call brought back a body, and a body the parser accepts. *)
Definition answered (call : account * string * api_reply) : bool :=
  match body_of call.2 with Some _ => true | None => false end.

Definition passed (parseValidationResponse : jsval -> bool)
  (call : account * string * api_reply) : bool :=
  from_option parseValidationResponse false (body_of call.2).

End Validator.

(** ** TicketManager *)
Module TicketManager.
Import Js Api.

#[local] Open Scope Z_scope.

Record ticket_info : Type := TicketInfo {
  ti_ticket : string;
  ti_timestamp : Z;
  ti_account : account
}.

Record ticket_manager : Type := Manager {
  accountRequestTimes : gmap string (list Z);
  accountTickets : gmap string ticket_info;
  maxRequestsPerSecond : Z;
  retryInterval : Z;
  timeout : Z
}.

(** [config.ticket?.x || fallback] for a numeric setting *)
Definition setting (configured : option Z) (fallback : Z) : Z :=
  match configured with
  | Some n => if n =? 0 then fallback else n
  | None => fallback
  end.

Definition new_TicketManager (cfg_maxRequestsPerSecond cfg_retryInterval cfg_timeout : option Z)
  : ticket_manager :=
  Manager ∅ ∅ (setting cfg_maxRequestsPerSecond 2) (setting cfg_retryInterval 500)
    (setting cfg_timeout 180000).

(** A number that may be [Infinity], which [Math.min()] of no arguments is. *)
Inductive num : Type :=
| Fin (z : Z)
| Infinity.

Definition math_min (times : list Z) : num :=
  foldr (fun time acc =>
           match acc with
           | Fin m => Fin (Z.min time m)
           | Infinity => Fin time
           end) Infinity times.

(** [array.slice(start)] *)
Definition slice_from {A} (start : Z) (array : list A) : list A :=
  let len := Z.of_nat (length array) in
  let k := if start <? 0 then Z.max (len + start) 0 else Z.min start len in
  drop (Z.to_nat k) array.

(** [enforceRateLimit] with [Date.now()] reading [now]: the manager after
    the call and the argument of [sleep], if it sleeps. *)
Definition enforceRateLimit (tm : ticket_manager) (accountId : string) (now : Z)
  : ticket_manager * option num :=
  let requestTimes := default [] (accountRequestTimes tm !! accountId) in
  let oneSecondAgo := now - 1000 in
  let recentRequests := filter (fun time => oneSecondAgo < time) requestTimes in
  let slept :=
    if maxRequestsPerSecond tm <=? Z.of_nat (length recentRequests) then
      match math_min recentRequests with
      | Fin oldestRequest =>
          let waitTime := 1000 - (now - oldestRequest) in
          if 0 <? waitTime then Some (Fin waitTime) else None
      | Infinity => Some Infinity
      end
    else None in
  let pushed := requestTimes ++ [now] in
  (Manager
     (<[accountId := slice_from (- maxRequestsPerSecond tm) pushed]> (accountRequestTimes tm))
     (accountTickets tm) (maxRequestsPerSecond tm) (retryInterval tm) (timeout tm),
   slept).

(** [ticket.trim() === '']: the string holds nothing but white space and
    line terminators (as UTF-8). *)
Fixpoint blank (s : string) : bool :=
  match s with
  | EmptyString => true
  | String c1 rest1 =>
      let b1 := Ascii.N_of_ascii c1 in
      if ((9 <=? b1) && (b1 <=? 13) || (b1 =? 32))%N then blank rest1
      else
        match rest1 with
        | EmptyString => false
        | String c2 rest2 =>
            let b2 := Ascii.N_of_ascii c2 in
            if ((b1 =? 194) && (b2 =? 160))%N then blank rest2
            else
              match rest2 with
              | EmptyString => false
              | String c3 rest3 =>
                  let b3 := Ascii.N_of_ascii c3 in
                  if ((b1 =? 225) && (b2 =? 154) && (b3 =? 128) ||
                      (b1 =? 226) && (b2 =? 128) &&
                        ((128 <=? b3) && (b3 <=? 138) || (b3 =? 168) || (b3 =? 169) ||
                         (b3 =? 175)) ||
                      (b1 =? 226) && (b2 =? 129) && (b3 =? 159) ||
                      (b1 =? 227) && (b2 =? 128) && (b3 =? 128) ||
                      (b1 =? 239) && (b2 =? 187) && (b3 =? 191))%N
                  then blank rest3
                  else false
              end
        end
  end.

(** The ticket of a well-formed response, [None] for [null]. *)
Definition validateTicketResponse (responseData : jsval) : option string :=
  try_catch
    (if negb (truthy responseData) || negb (typeof_object responseData) then Ok None
     else
       (success <- get responseData "success" ;;
        code <- get responseData "code" ;;
        if negb (truthy success) || negb (is_str code "0") then Ok None
        else
          (data <- get responseData "data" ;;
           if negb (truthy data) then Ok None
           else
             (ticket <- get data "ticket" ;;
              if negb (truthy ticket) then Ok None
              else
                match ticket with
                | JStr t => if blank t then Ok None else Ok (Some t)
                | _ => Ok None
                end))))
    (fun _ => None).

(** What one pass through the loop of [getTicketForAccount] meets.  Every
    [Date.now()] is a reading of its own: at the timeout check, for the
    duration the timeout branch logs, inside [enforceRateLimit], for the
    timestamp stored with the ticket, for the duration the success branch logs
    and for the duration it returns; [env_reply] is how [apiClient.getTicket]
    settles.  A reading is used only if the pass gets as far. *)
Record attempt_env : Type := AttemptEnv {
  env_check_now : Z;
  env_expired_now : Z;
  env_rate_now : Z;
  env_reply : api_reply;
  env_stored_now : Z;
  env_logged_now : Z;
  env_returned_now : Z
}.

Inductive ticket_outcome : Type :=
| TicketReturned (ticket : string) (attempts : nat) (duration : Z)
| TicketThrown (error_message : string)
| TicketRunning.

(** A run of [getTicketForAccount] over a finite script: how it ended (or
    that it is still looping), the variable [attempts], the number of
    [apiClient.getTicket] calls, the arguments of every [sleep], the
    [attempts] and [duration] the timeout branch logged, those the success
    branch logged, and the manager afterwards. *)
Record ticket_run : Type := TicketRun {
  run_outcome : ticket_outcome;
  run_attempts : nat;
  run_requests : nat;
  run_sleeps : list num;
  run_timeout_log : option (nat * Z);
  run_success_log : option (nat * Z);
  run_manager : ticket_manager
}.

Definition is_429 (error_code : jsval) (error_message : string) : bool :=
  match error_code with
  | JNum 429 => true
  | _ => str_includes error_message "429"
  end.

Fixpoint getTicketForAccount_loop (tm : ticket_manager) (acct : account) (startTime : Z)
  (attempts requests : nat) (sleeps : list num) (script : list attempt_env)
  : ticket_run :=
  match script with
  | [] => TicketRun TicketRunning attempts requests sleeps None None tm
  | env :: script' =>
      let attempts := S attempts in
      if timeout tm <? env_check_now env - startTime then
        TicketRun
          (TicketThrown ("获取ticket超时 (" +:+ pretty (timeout tm) +:+ "ms)"))
          attempts requests sleeps
          (Some (attempts, env_expired_now env - startTime)) None tm
      else
        let '(tm1, slept) := enforceRateLimit tm (accId acct) (env_rate_now env) in
        let sleeps1 := sleeps ++ option_list slept in
        let requests1 := S requests in
        let caught (error_code : jsval) (error_message : string) :=
          let pause :=
            if is_429 error_code error_message then retryInterval tm1 * 2
            else retryInterval tm1 in
          getTicketForAccount_loop tm1 acct startTime attempts requests1
            (sleeps1 ++ [Fin pause]) script' in
        match env_reply env with
        | Rejected error_code error_message => caught error_code error_message
        | Fulfilled (ApiFailure message) =>
            caught JUndefined (if String.eqb message "" then "API调用失败" else message)
        | Fulfilled (ApiSuccess data) =>
            match validateTicketResponse data with
            | Some ticket =>
                TicketRun
                  (TicketReturned ticket attempts (env_returned_now env - startTime))
                  attempts requests1 sleeps1 None
                  (Some (attempts, env_logged_now env - startTime))
                  (Manager (accountRequestTimes tm1)
                     (<[accId acct := TicketInfo ticket (env_stored_now env) acct]>
                        (accountTickets tm1))
                     (maxRequestsPerSecond tm1) (retryInterval tm1) (timeout tm1))
            | None =>
                getTicketForAccount_loop tm1 acct startTime attempts requests1 sleeps1
                  script'
            end
        end
  end.

(** [startTime] is [Date.now()] on entry. *)
Definition getTicketForAccount (tm : ticket_manager) (acct : account) (startTime : Z)
  (script : list attempt_env) : ticket_run :=
  getTicketForAccount_loop tm acct startTime 0 0 [] script.

(** *** Vocabulary of the properties *)

(** When a call that read the clock at [now] returns, its sleep being
    exact.  (A delay that is no 32-bit integer makes the timer fire after
    1 ms.) *)
Definition wake (now : Z) (slept : option num) : Z :=
  match slept with
  | None => now
  | Some (Fin waitTime) => now + waitTime
  | Some Infinity => now + 1
  end.

(** Calls for one account, one after the other, entering at the given
    clock readings: when each returns, and the manager after the last. *)
Fixpoint acquisitions (tm : ticket_manager) (accountId : string) (entries : list Z)
  : list Z * ticket_manager :=
  match entries with
  | [] => ([], tm)
  | now :: entries' =>
      let '(tm1, slept) := enforceRateLimit tm accountId now in
      let '(returns, tm2) := acquisitions tm1 accountId entries' in
      (wake now slept :: returns, tm2)
  end.

(** The requests recorded for the account inside the trailing second. *)
Definition recent (tm : ticket_manager) (accountId : string) (now : Z) : list Z :=
  filter (fun time => now - 1000 < time)
    (default [] (accountRequestTimes tm !! accountId)).

(** The ticket a reply yields, if any. *)
Definition ticket_of (reply : api_reply) : option string :=
  match reply with
  | Fulfilled (ApiSuccess data) => validateTicketResponse data
  | _ => None
  end.

(** The only error [getTicketForAccount] throws. *)
Definition timeout_error (tm : ticket_manager) : string :=
  "获取ticket超时 (" +:+ pretty (timeout tm) +:+ "ms)".

(** A pass that neither ends the call nor times it out: its timeout check
    reads a time within the timeout and its reply carries no ticket. *)
Definition quiet (tm : ticket_manager) (startTime : Z) (env : attempt_env) : Prop :=
  env_check_now env - startTime ≤ timeout tm ∧ ticket_of (env_reply env) = None.

(** *** The ticket store *)

Definition getAccountTicket (tm : ticket_manager) (accountId : string)
  : option ticket_info :=
  accountTickets tm !! accountId.

Definition clearAccountTicket (tm : ticket_manager) (accountId : string) : ticket_manager :=
  Manager (accountRequestTimes tm) (delete accountId (accountTickets tm))
    (maxRequestsPerSecond tm) (retryInterval tm) (timeout tm).

Definition clearAllTickets (tm : ticket_manager) : ticket_manager :=
  Manager ∅ ∅ (maxRequestsPerSecond tm) (retryInterval tm) (timeout tm).

(** The records kept for an account. *)
Definition recorded (tm : ticket_manager) (accountId : string) : list Z :=
  default [] (accountRequestTimes tm !! accountId).

End TicketManager.

(** ** ProxyPool *)
Module ProxyPool.
Import Js.

#[local] Open Scope Z_scope.

(** One entry of [this.proxies].  [fetchProxies] never sets [auth], so that
    property is [undefined] on every entry and on every route handed out. *)
Record proxy : Type := Proxy {
  host : string;
  port : Z;
  protocol : string;
  enabled : bool;
  failCount : Z;
  lastUsed : option Z;
  maxFails : Z
}.

Record route : Type := Route {
  route_host : string;
  route_port : Z;
  route_protocol : string
}.

(** [expireTime] in milliseconds ([None] for [null]); [refreshCalls] counts
    the calls of [refreshProxies] the pool has made on its own. *)
Record pool : Type := Pool {
  proxies : list proxy;
  currentIndex : nat;
  expireTime : option Z;
  refreshCalls : nat
}.

Definition route_of (p : proxy) : route :=
  Route (host p) (port p) (protocol p).

(** [fetchProxies]: the entry made from one item of the provider's list. *)
Definition fresh_proxy (sever : string) (port : Z) : proxy :=
  Proxy sever port "http" true 0 None 3.

Definition usable (p : proxy) : bool :=
  enabled p && (failCount p <? maxFails p).

Definition touch (now : Z) (p : proxy) : proxy :=
  Proxy (host p) (port p) (protocol p) (enabled p) (failCount p) (Some now) (maxFails p).

Definition forgiven (p : proxy) : proxy :=
  Proxy (host p) (port p) (protocol p) true 0 (lastUsed p) (maxFails p).

Definition resetFailCounts (pl : pool) : pool :=
  Pool (forgiven <$> proxies pl) (currentIndex pl) (expireTime pl) (refreshCalls pl).

(** [this.expireTime && new Date() > this.expireTime] *)
Definition expired (pl : pool) (now : Z) : bool :=
  match expireTime pl with
  | Some deadline => deadline <? now
  | None => false
  end.

(** The [while (attempts < this.proxies.length)] loop, [remaining] passes
    left: the route found, with the list and index after it, or the index the
    loop stopped at. *)
Fixpoint scan (now : Z) (entries : list proxy) (index : nat) (remaining : nat)
  : res (route * list proxy * nat + nat) :=
  match remaining with
  | O => Ok (inr index)
  | S remaining' =>
      match entries !! index with
      | None => Throw "TypeError: Cannot read properties of undefined (reading 'enabled')"
      | Some p =>
          let next := ((index + 1) mod length entries)%nat in
          if usable p then
            Ok (inl (route_of p, <[index := touch now p]> entries, next))
          else scan now entries next remaining'
      end
  end.

(** [getNextProxy] with [new Date()] reading [now]. *)
Definition getNextProxy (pl : pool) (now : Z) : res (route * pool) :=
  if (length (proxies pl) =? 0)%nat then Throw "代理池为空"
  else
    let refreshes :=
      if expired pl now then S (refreshCalls pl) else refreshCalls pl in
    found <- scan now (proxies pl) (currentIndex pl) (length (proxies pl)) ;;
    match found with
    | inl (r, entries, index) => Ok (r, Pool entries index (expireTime pl) refreshes)
    | inr index =>
        let pl' := resetFailCounts (Pool (proxies pl) index (expireTime pl) refreshes) in
        match proxies pl' !! 0%nat with
        | Some p => Ok (route_of p, pl')
        | None => Throw "TypeError: Cannot read properties of undefined (reading 'host')"
        end
    end.

(** The positions of the entries [filter] keeps: [availableProxies] holds the
    very objects of [this.proxies]. *)
Definition available (entries : list proxy) : list nat :=
  filter (fun i => from_option usable false (entries !! i) = true)
    (seq 0 (length entries)).

(** [getRandomProxy] where some entry is usable; [Math.random()] is
    [rand_num / rand_den]. *)
Definition pick (pl : pool) (rand_num rand_den : nat) (now : Z) : res (route * pool) :=
  let availableProxies := available (proxies pl) in
  let randomIndex := ((rand_num * length availableProxies) / rand_den)%nat in
  match availableProxies !! randomIndex with
  | Some i =>
      match proxies pl !! i with
      | Some p =>
          Ok (route_of p,
              Pool (<[i := touch now p]> (proxies pl)) (currentIndex pl) (expireTime pl)
                (refreshCalls pl))
      | None => Throw "TypeError: Cannot set properties of undefined (setting 'lastUsed')"
      end
  | None => Throw "TypeError: Cannot set properties of undefined (setting 'lastUsed')"
  end.

(** [getRandomProxy].  When no entry is usable it resets the counts and calls
    itself; if the reset leaves no usable entry either, every further call
    does the same and the recursion ends in a stack overflow. *)
Definition getRandomProxy (pl : pool) (rand_num rand_den : nat) (now : Z)
  : res (route * pool) :=
  if (length (proxies pl) =? 0)%nat then Throw "代理池为空"
  else if (length (available (proxies pl)) =? 0)%nat then
    let pl' := resetFailCounts pl in
    if (length (available (proxies pl')) =? 0)%nat then
      Throw "RangeError: Maximum call stack size exceeded"
    else pick pl' rand_num rand_den now
  else pick pl rand_num rand_den now.

Definition markProxyFailed (pl : pool) (info : route) : pool :=
  let hit (p : proxy) :=
    bool_decide (host p = route_host info) && (port p =? route_port info) in
  match list_find (fun p => hit p = true) (proxies pl) with
  | Some (i, p) =>
      let count := failCount p + 1 in
      let p' := Proxy (host p) (port p) (protocol p)
                  (if maxFails p <=? count then false else enabled p)
                  count (lastUsed p) (maxFails p) in
      Pool (<[i := p']> (proxies pl)) (currentIndex pl) (expireTime pl) (refreshCalls pl)
  | None => pl
  end.

(** *** Vocabulary of the properties *)

(** The route of a result, whatever the pool it leaves. *)
Definition route_given (result : res (route * pool)) : option route :=
  match result with
  | Ok (r, _) => Some r
  | Throw _ => None
  end.

Definition with_deadline (deadline : option Z) (pl : pool) : pool :=
  Pool (proxies pl) (currentIndex pl) deadline (refreshCalls pl).

(** The entry is the one [markProxyFailed] looks for. *)
Definition matches (info : route) (p : proxy) : Prop :=
  host p = route_host info ∧ port p = route_port info.

End ProxyPool.

(** ** ProxyPool: the timers that watch the lease *)
Module ProxyExpiry.

#[local] Open Scope Z_scope.

(** The part of the pool the timers work on.  [refreshTimer] and
    [expireCheckTimer] tell whether the interval is set; [expiryTimeouts]
    lists the times at which the one-shot timers of [startExpireMonitoring]
    that have not fired yet are due, oldest first (their handles are kept
    nowhere); [exited] is the exit code once the process has been ended. *)
Record monitor : Type := Monitor {
  expireTime : option Z;
  refreshTimer : bool;
  expireCheckTimer : bool;
  expiryTimeouts : list Z;
  onExpired : bool;
  exited : option Z
}.

(** The pool as the constructor leaves it. *)
Definition new_ProxyPool : monitor := Monitor None false false [] false None.

Definition stop (m : monitor) : monitor :=
  Monitor (expireTime m) false false (expiryTimeouts m) (onExpired m) (exited m).

(** [handleExpired]: the callback the application sets stops the system and
    ends the process with code 0; without a callback the pool ends it with
    code 1. *)
Definition handleExpired (m : monitor) : monitor :=
  let m1 := stop m in
  Monitor (expireTime m1) (refreshTimer m1) (expireCheckTimer m1) (expiryTimeouts m1)
    (onExpired m1) (Some (if onExpired m1 then 0 else 1)).

(** [startExpireMonitoring] with [new Date()] reading [now]. *)
Definition startExpireMonitoring (m : monitor) (now : Z) : monitor :=
  let m1 := Monitor (expireTime m) (refreshTimer m) false (expiryTimeouts m) (onExpired m)
              (exited m) in
  match expireTime m1 with
  | None => m1
  | Some deadline =>
      if deadline <=? now then handleExpired m1
      else
        let timeToExpire := deadline - now in
        Monitor (expireTime m1) (refreshTimer m1) true
          (expiryTimeouts m1 ++ [now + timeToExpire]) (onExpired m1) (exited m1)
  end.

Definition scheduleRefresh (m : monitor) : monitor :=
  Monitor (expireTime m) true (expireCheckTimer m) (expiryTimeouts m) (onExpired m)
    (exited m).

Definition setExpiredCallback (m : monitor) : monitor :=
  Monitor (expireTime m) (refreshTimer m) (expireCheckTimer m) (expiryTimeouts m) true
    (exited m).

(** [refreshProxies] once [fetchProxies] has returned a list with the lease
    ending at [deadline]. *)
Definition refreshed (m : monitor) (deadline now : Z) : monitor :=
  startExpireMonitoring
    (Monitor (Some deadline) (refreshTimer m) (expireCheckTimer m) (expiryTimeouts m)
       (onExpired m) (exited m)) now.

(** [initialize] where the first fetch succeeds: [refreshProxies], which
    starts the monitoring, then [scheduleRefresh], then
    [startExpireMonitoring] once more. *)
Definition initialize (m : monitor) (deadline fetched_at started_at : Z) : monitor :=
  let m1 := refreshed m deadline fetched_at in
  match exited m1 with
  | Some _ => m1
  | None => startExpireMonitoring (scheduleRefresh m1) started_at
  end.

(** What happens to the pool afterwards. *)
Inductive event : Type :=
| Refreshed (deadline now : Z)
| FetchFailed (assigned : option Z)
| ExpireCheck (now : Z)
| ExpiryTimeout (i : nat)
| CallbackSet.

(** A fetch that throws, before or after it has assigned [expireTime]; the
    refresh then leaves the pool as it is. *)
Definition fetchFailed (m : monitor) (assigned : option Z) : monitor :=
  match assigned with
  | Some deadline =>
      Monitor (Some deadline) (refreshTimer m) (expireCheckTimer m) (expiryTimeouts m)
        (onExpired m) (exited m)
  | None => m
  end.

(** The callback of the 30-second interval. *)
Definition onExpireCheck (m : monitor) (now : Z) : monitor :=
  if expireCheckTimer m then
    match expireTime m with
    | Some deadline => if deadline <=? now then handleExpired m else m
    | None => m
    end
  else m.

(** The callback of a one-shot timer, which then is no longer pending. *)
Definition onExpiryTimeout (m : monitor) (i : nat) : monitor :=
  match expiryTimeouts m !! i with
  | Some _ =>
      handleExpired
        (Monitor (expireTime m) (refreshTimer m) (expireCheckTimer m)
           (delete i (expiryTimeouts m)) (onExpired m) (exited m))
  | None => m
  end.

(** Nothing runs once the process has ended. *)
Definition step (m : monitor) (e : event) : monitor :=
  match exited m with
  | Some _ => m
  | None =>
      match e with
      | Refreshed deadline now => refreshed m deadline now
      | FetchFailed assigned => fetchFailed m assigned
      | ExpireCheck now => onExpireCheck m now
      | ExpiryTimeout i => onExpiryTimeout m i
      | CallbackSet => setExpiredCallback m
      end
  end.

(** *** Vocabulary of the properties *)

Definition is_timeout (e : event) : bool :=
  match e with
  | ExpiryTimeout _ => true
  | _ => false
  end.

End ProxyExpiry.

(** ** ApiClient: the retry loop of [makeRequest] *)
Module ApiClient.
Import Js Api.

#[local] Open Scope Z_scope.

(** How [client.request] settles.  [validateStatus] accepts every status, so
    a response of any status is a value; an error has a [code], possibly
    [undefined], and a [message]. *)
Inductive http_outcome : Type :=
| HttpResponse (status : Z) (statusText : string) (data : jsval)
| HttpError (code : jsval) (message : string).

Definition isProxyError (code : jsval) (message : string) : bool :=
  existsb (is_str code) ["ECONNREFUSED"; "ENOTFOUND"; "ETIMEDOUT"; "ECONNRESET"; "EPROTO"]
  || str_includes message "proxy" || str_includes message "SOCKS".

(** What a call has done so far: the value returned, [None] while an attempt
    or a sleep is pending, the calls of [client.request], the sleeps and the
    routes passed to [proxyPool.markProxyFailed]. *)
Record request_run : Type := RequestRun {
  rq_result : option api_result;
  rq_requests : nat;
  rq_sleeps : list Z;
  rq_marked : list ProxyPool.route
}.

(** The [for (attempt = 1; attempt <= retries; attempt++)] loop over the
    outcomes of the successive requests. *)
Fixpoint makeRequest_loop (retryDelay : Z) (retries attempt : nat)
  (currentProxy : option ProxyPool.route) (lastError : option string)
  (requests : nat) (sleeps : list Z) (marked : list ProxyPool.route)
  (script : list http_outcome) : request_run :=
  if (attempt <=? retries)%nat then
    match script with
    | [] => RequestRun None requests sleeps marked
    | outcome :: script' =>
        let retry (code : jsval) (message : string) :=
          let marked' :=
            match currentProxy with
            | Some proxy => if isProxyError code message then marked ++ [proxy] else marked
            | None => marked
            end in
          let sleeps' :=
            if (attempt <? retries)%nat
            then sleeps ++ [retryDelay * Z.of_nat attempt] else sleeps in
          makeRequest_loop retryDelay retries (S attempt) currentProxy (Some message)
            (S requests) sleeps' marked' script' in
        match outcome with
        | HttpResponse status statusText data =>
            if status =? 200 then
              RequestRun (Some (ApiSuccess data)) (S requests) sleeps marked
            else retry JUndefined ("HTTP " +:+ pretty status +:+ ": " +:+ statusText)
        | HttpError code message => retry code message
        end
    end
  else
    RequestRun (Some (ApiFailure (default "请求失败" lastError))) requests sleeps marked.

(** [makeRequest]: [lastError] and [currentProxy] start as [null], and
    [currentProxy] is assigned nowhere. *)
Definition makeRequest (retryDelay : Z) (retries : nat) (script : list http_outcome)
  : request_run :=
  makeRequest_loop retryDelay retries 1 None None 0 [] [] script.

(** *** Vocabulary of the properties *)

(** The sleeps after the first [n] failed attempts. *)
Definition delays (retryDelay : Z) (n : nat) : list Z :=
  (fun attempt => retryDelay * Z.of_nat attempt) <$> seq 1 n.

(** The request is answered with status 200. *)
Definition accepted (outcome : http_outcome) : bool :=
  match outcome with
  | HttpResponse status _ _ => status =? 200
  | HttpError _ _ => false
  end.

(** The message of the error an attempt ends with when it is not accepted. *)
Definition error_message (outcome : http_outcome) : string :=
  match outcome with
  | HttpResponse status statusText _ => "HTTP " +:+ pretty status +:+ ": " +:+ statusText
  | HttpError _ message => message
  end.

End ApiClient.

(** ** AccountManager *)
Module AccountManager.
Import Js.

#[local] Open Scope Z_scope.

(** *** Objects with numbers as keys *)

(** [tourismSubsidyIds] is an object whose keys are the quotas.  It is kept
    as the list [Object.entries] yields: the keys that are array indices
    (the integers from 0 to 2^32 - 2) come first, in ascending order, and the
    other keys follow in the order in which they were added. *)
Definition is_index (key : Z) : bool := (0 <=? key) && (key <? 4294967295).

(** [object[key] = value] *)
Fixpoint obj_set (key : Z) (value : jsval) (entries : list (Z * jsval))
  : list (Z * jsval) :=
  match entries with
  | [] => [(key, value)]
  | (k, v) :: rest =>
      if k =? key then (k, value) :: rest
      else if is_index key && (negb (is_index k) || (key <? k))
           then (key, value) :: (k, v) :: rest
           else (k, v) :: obj_set key value rest
  end.

(** [object[key]], [None] for a key the object does not have. *)
Fixpoint obj_get (key : Z) (entries : list (Z * jsval)) : option jsval :=
  match entries with
  | [] => None
  | (k, v) :: rest => if k =? key then Some v else obj_get key rest
  end.

(** *** Accounts *)

(** An account as the manager keeps it; [quotas] is an array of numbers and
    [enabled] is read for its truth value only.  The properties read from the
    result and its positions ([tourismSubsidyPositions],
    [foodSubsidyPositions], [subsidyAmount], [id]) are built-in properties of
    no value, so [get] reads them. *)
Record managed_account : Type := ManagedAccount {
  accId : string;
  username : string;
  enabled : bool;
  quotas : list Z;
  status : string;
  lastError : option string;
  preWorkCompleted : bool;
  tourismSubsidyIds : list (Z * jsval);
  foodSubsidyId : jsval
}.

(** [Number.isSafeInteger]: the integers a number holds exactly and tells
    apart from their neighbours. *)
Definition safe_integer (n : Z) : bool := Z.abs n <=? 9007199254740991.

(** [String(n)], the key a number is stored under, is the decimal notation
    of a safe integer.  Beyond them JavaScript rounds the digits, and from
    10^21 on it writes an exponent; neither is modelled: [None]. *)
Definition number_to_string (n : Z) : option string :=
  if safe_integer n then Some (pretty n) else None.

(** [Object.entries] of [tourismSubsidyIds]: the keys as strings. *)
Fixpoint entries_of (ids : list (Z * jsval)) : option (list (string * jsval)) :=
  match ids with
  | [] => Some []
  | (quota, id) :: rest =>
      match number_to_string quota, entries_of rest with
      | Some key, Some entries => Some ((key, id) :: entries)
      | _, _ => None
      end
  end.

(** The account as the submitter reads it, where the keys are modelled. *)
Definition to_account (a : managed_account) : option Api.account :=
  match entries_of (tourismSubsidyIds a) with
  | Some entries =>
      Some (Api.Account (accId a) (username a) (Some entries) (foodSubsidyId a))
  | None => None
  end.

Definition getEnabledAccounts (accounts : list managed_account) : list managed_account :=
  filter (fun a => enabled a = true) accounts.

Definition getReadyAccounts (accounts : list managed_account) : list managed_account :=
  filter (fun a => enabled a && preWorkCompleted a = true) accounts.

(** [this.accounts.find(account => account.accId === accId)], with the
    position of the account found. *)
Definition getAccountByAccId (accounts : list managed_account) (id : string)
  : option (nat * managed_account) :=
  list_find (fun a => accId a = id) accounts.

Definition updateAccountStatus (accounts : list managed_account) (id : string)
  (new_status : string) (error : option string) : list managed_account :=
  match getAccountByAccId accounts id with
  | Some (i, a) =>
      <[i := ManagedAccount (accId a) (username a) (enabled a) (quotas a) new_status error
               (preWorkCompleted a) (tourismSubsidyIds a) (foodSubsidyId a)]> accounts
  | None => accounts
  end.

(** *** The result of the pre-work *)

(** [value === quota] for a number [quota] *)
Definition is_num (value : jsval) (quota : Z) : bool :=
  match value with
  | JNum n => n =? quota
  | _ => false
  end.

(** [positions.find(p => p.subsidyAmount === quota)] *)
Fixpoint find_position (quota : Z) (positions : list jsval) : res (option jsval) :=
  match positions with
  | [] => Ok None
  | p :: rest =>
      subsidyAmount <- get p "subsidyAmount" ;;
      if is_num subsidyAmount quota then Ok (Some p) else find_position quota rest
  end.

(** The callback of [account.quotas.forEach] for one quota. *)
Definition match_quota (positions : list jsval) (ids : list (Z * jsval)) (quota : Z)
  : res (list (Z * jsval)) :=
  position <- find_position quota positions ;;
  match position with
  | Some p =>
      if truthy p then (id <- get p "id" ;; Ok (obj_set quota id ids)) else Ok ids
  | None => Ok ids
  end.

(** [account.quotas.forEach(...)]: the object as the loop leaves it, and the
    error that ended the loop, if one did. *)
Fixpoint match_quotas (positions : list jsval) (remaining : list Z) (ids : list (Z * jsval))
  : list (Z * jsval) * option string :=
  match remaining with
  | [] => (ids, None)
  | quota :: rest =>
      match match_quota positions ids quota with
      | Ok ids' => match_quotas positions rest ids'
      | Throw msg => (ids, Some msg)
      end
  end.

Definition is_array (v : jsval) : option (list jsval) :=
  match v with
  | JArr items => Some items
  | _ => None
  end.

(** The [try] block of [setAccountPreWorkResult] on the account found: the
    account as the block leaves it, and the error it threw, if any.  What it
    has assigned before an error stays assigned. *)
Definition savePreWorkResult (a : managed_account) (result : jsval)
  : managed_account * option string :=
  let cleared (ids : list (Z * jsval)) (food : jsval) (completed : bool) (st : string) :=
    ManagedAccount (accId a) (username a) (enabled a) (quotas a) st (lastError a)
      completed ids food in
  match get result "tourismSubsidyPositions" with
  | Throw msg => (cleared [] JNull (preWorkCompleted a) (status a), Some msg)
  | Ok tourismSubsidyPositions =>
      let '(ids, thrown) :=
        match is_array tourismSubsidyPositions with
        | Some positions => match_quotas positions (quotas a) []
        | None => ([], None)
        end in
      match thrown with
      | Some msg => (cleared ids JNull (preWorkCompleted a) (status a), Some msg)
      | None =>
          match get result "foodSubsidyPositions" with
          | Throw msg => (cleared ids JNull (preWorkCompleted a) (status a), Some msg)
          | Ok foodSubsidyPositions =>
              match is_array foodSubsidyPositions with
              | Some (first :: _) =>
                  match get first "id" with
                  | Ok id => (cleared ids id true "ready", None)
                  | Throw msg =>
                      (cleared ids JNull (preWorkCompleted a) (status a), Some msg)
                  end
              | _ => (cleared ids JNull true "ready", None)
              end
          end
      end
  end.

(** [setAccountPreWorkResult]: what it returns and the accounts afterwards. *)
Definition setAccountPreWorkResult (accounts : list managed_account) (id : string)
  (result : jsval) : bool * list managed_account :=
  match getAccountByAccId accounts id with
  | None => (false, accounts)
  | Some (i, a) =>
      match savePreWorkResult a result with
      | (a', None) => (true, <[i := a']> accounts)
      | (a', Some msg) =>
          (false,
           <[i := ManagedAccount (accId a') (username a') (enabled a') (quotas a') "error"
                    (Some msg) (preWorkCompleted a') (tourismSubsidyIds a')
                    (foodSubsidyId a')]> accounts)
      end
  end.

(** *** Purchase tasks and statistics *)

(** The [quota] of a purchase task: the food task has none; a tourism task
    has [parseInt(key)], which for the decimal notation of a safe integer is
    that integer.  For the key of another number it is left as it stands:
    [QuotaOfKey n] is [parseInt(String(n))]. *)
Inductive quota_field : Type :=
| NoQuota
| Quota (n : Z)
| QuotaOfKey (n : Z).

Definition parseInt_key (quota : Z) : quota_field :=
  if safe_integer quota then Quota quota else QuotaOfKey quota.

Record purchase_task : Type := PurchaseTask {
  pt_type : string;
  pt_quota : quota_field;
  pt_subsidyId : jsval;
  pt_account : managed_account
}.

Definition getAccountPurchaseTasks (accounts : list managed_account) (id : string)
  : list purchase_task :=
  match getAccountByAccId accounts id with
  | Some (_, a) =>
      if negb (preWorkCompleted a) then []
      else
        let tourism :=
          map (fun '(quota, subsidyId) =>
                 PurchaseTask "tourism" (parseInt_key quota) subsidyId a)
            (tourismSubsidyIds a) in
        if truthy (foodSubsidyId a)
        then tourism ++ [PurchaseTask "food" NoQuota (foodSubsidyId a) a]
        else tourism
  | None => []
  end.

Record account_stats : Type := AccountStats {
  as_total : nat;
  as_enabled : nat;
  as_ready : nat;
  as_pending : nat;
  as_error : nat;
  as_success : nat
}.

Definition count_account (stats : account_stats) (a : managed_account) : account_stats :=
  let stats1 :=
    if enabled a
    then AccountStats (as_total stats) (S (as_enabled stats)) (as_ready stats)
           (as_pending stats) (as_error stats) (as_success stats)
    else stats in
  if String.eqb (status a) "ready" then
    AccountStats (as_total stats1) (as_enabled stats1) (S (as_ready stats1))
      (as_pending stats1) (as_error stats1) (as_success stats1)
  else if String.eqb (status a) "pending" then
    AccountStats (as_total stats1) (as_enabled stats1) (as_ready stats1)
      (S (as_pending stats1)) (as_error stats1) (as_success stats1)
  else if String.eqb (status a) "error" then
    AccountStats (as_total stats1) (as_enabled stats1) (as_ready stats1)
      (as_pending stats1) (S (as_error stats1)) (as_success stats1)
  else if String.eqb (status a) "success" then
    AccountStats (as_total stats1) (as_enabled stats1) (as_ready stats1)
      (as_pending stats1) (as_error stats1) (S (as_success stats1))
  else stats1.

Definition getAccountStats (accounts : list managed_account) : account_stats :=
  foldl count_account (AccountStats (length accounts) 0 0 0 0 0) accounts.

Definition resetAccountsStatus (accounts : list managed_account) : list managed_account :=
  (fun a => ManagedAccount (accId a) (username a) (enabled a) (quotas a) "pending" None
              false [] JNull) <$> accounts.

(** *** Vocabulary of the properties *)

(** The position is an object whose [subsidyAmount] is the number [quota]. *)
Definition is_amount (quota : Z) (p : jsval) : bool :=
  match p with
  | JObj fields => is_num (assoc "subsidyAmount" fields) quota
  | _ => false
  end.

(** The [id] of the first position with the amount [quota]. *)
Definition first_offer (quota : Z) (positions : list jsval) : option jsval :=
  match list_find (fun p => is_amount quota p = true) positions with
  | Some (_, JObj fields) => Some (assoc "id" fields)
  | _ => None
  end.

(** A purchase task and a submit task made from the same entry: they have
    the same type and subsidy id; a tourism pair carries one quota of the
    account, as a number and as its key, and the id of the first position the
    result offers for that quota; the food pair carries no quota. *)
Definition same_task (account_quotas : list Z) (result : jsval)
  (purchase : purchase_task) (submit : Submitter.submit_task) : Prop :=
  pt_type purchase = Submitter.task_type submit ∧
  pt_subsidyId purchase = Submitter.task_subsidyId submit ∧
  match pt_quota purchase with
  | Quota quota =>
      pt_type purchase = "tourism" ∧ quota ∈ account_quotas ∧
      Submitter.task_quota submit = Some (pretty quota) ∧
      ∃ positions,
        get result "tourismSubsidyPositions" = Ok (JArr positions) ∧
        first_offer quota positions = Some (pt_subsidyId purchase)
  | NoQuota => pt_type purchase = "food" ∧ Submitter.task_quota submit = None
  | QuotaOfKey _ => False
  end.

End AccountManager.

(** ** PreWork *)
Module PreWork.
Import Js Api.
Import AccountManager(managed_account, updateAccountStatus, setAccountPreWorkResult).

(** [validateResponse] *)
Definition validateResponse (data : jsval) : res bool :=
  if negb (truthy data) || negb (typeof_object data) then Ok false
  else
    (success <- get data "success" ;;
     if negb (truthy success) then Ok false
     else
       (inner <- get data "data" ;;
        if negb (truthy inner) then Ok false else Ok true)).

(** The callback of the two [forEach] loops of [parseResponseData] reads
    properties of every position. *)
Fixpoint each_position (positions : list jsval) : res unit :=
  match positions with
  | [] => Ok tt
  | position :: rest => (_ <- get position "id" ;; each_position rest)
  end.

(** [if (positions) { positions.forEach(...) }]: a truthy value other than an
    array has no [forEach] to call. *)
Definition log_positions (positions : jsval) : res unit :=
  if truthy positions then
    match positions with
    | JArr items => each_position items
    | _ => Throw "TypeError: positions.forEach is not a function"
    end
  else Ok tt.

(** [parseResponseData]: it returns [apiResponse.data], after logging what
    it holds. *)
Definition parseResponseData (apiResponse : jsval) : res jsval :=
  responseData <- get apiResponse "data" ;;
  tourismSubsidyPositions <- get responseData "tourismSubsidyPositions" ;;
  foodSubsidyPositions <- get responseData "foodSubsidyPositions" ;;
  _ <- log_positions tourismSubsidyPositions ;;
  _ <- log_positions foodSubsidyPositions ;;
  Ok responseData.

(** The [try] block of [executeForAccount] after the reply has arrived: the
    accounts as the block leaves them and the message of the error it threw,
    if any. *)
Definition executeForAccount_body (accounts : list managed_account) (id : string)
  (reply : api_reply) : list managed_account * option string :=
  match reply with
  | Rejected _ error_message => (accounts, Some error_message)
  | Fulfilled (ApiFailure message) => (accounts, Some ("API调用失败: " +:+ message))
  | Fulfilled (ApiSuccess data) =>
      match validateResponse data with
      | Throw msg => (accounts, Some msg)
      | Ok false => (accounts, Some "API响应格式不正确")
      | Ok true =>
          match parseResponseData data with
          | Throw msg => (accounts, Some msg)
          | Ok parsedData =>
              match setAccountPreWorkResult accounts id parsedData with
              | (true, accounts') => (accounts', None)
              | (false, accounts') => (accounts', Some "保存前置工作结果失败")
              end
          end
      end
  end.

(** [executeForAccount] for the account with the id [id], where [accounts]
    is the list of the manager and [reply] is how
    [apiClient.getApplySubsidyPositionList] settles: the [success] of what it
    returns and the accounts afterwards.  The calls for other accounts that
    run while this one waits change only their own accounts. *)
Definition executeForAccount (accounts : list managed_account) (id : string)
  (reply : api_reply) : bool * list managed_account :=
  let processing := updateAccountStatus accounts id "processing" None in
  match executeForAccount_body processing id reply with
  | (accounts', None) => (true, accounts')
  | (accounts', Some msg) => (false, updateAccountStatus accounts' id "error" (Some msg))
  end.

(** *** Vocabulary of the properties *)

Definition nullish (v : jsval) : bool :=
  match v with
  | JUndefined | JNull => true
  | _ => false
  end.

(** An array of positions none of which is [null], or a falsy value. *)
Definition loggable (positions : jsval) : bool :=
  match positions with
  | JArr items => forallb (fun p => negb (nullish p)) items
  | _ => negb (truthy positions)
  end.

End PreWork.

(** ** PurchaseFlow *)
Module Flow.
Import Js Api.

(** What [getTicketForAccount] returns. *)
Record ticket_result : Type := TicketResult {
  tk_success : bool;
  tk_ticket : string
}.

(** The calls one account's flow makes, in order. *)
Inductive stage_call : Type :=
| GetTicket
| ValidateTicket (ticket : string)
| SubmitForAccount (ticket : string)
| LogSuccessfulSubmission
| Sleep (ms : Z).

Record flow_result : Type := FlowResult {
  fr_success : bool;
  fr_account : account;
  fr_result : option Submitter.account_result;
  fr_error : option string;
  fr_type : string
}.

(** What one pass through [while (this.isRunning)] meets: the flag at the
    loop test and how each awaited call settles.  [getTicketForAccount] may
    throw; the other two catch everything themselves.  A result is only
    looked at if the pass gets as far as the call. *)
Record flow_env : Type := FlowEnv {
  env_running : bool;
  env_ticket : res ticket_result;
  env_validation : Validator.validation_result;
  env_submission : Submitter.account_result
}.

(** [submissionResult.result?.status === 'duplicate' ? 'duplicate' : 'submitted'] *)
Definition result_type (submissionResult : Submitter.account_result) : string :=
  match Submitter.ar_result submissionResult with
  | Some result =>
      if String.eqb (Submitter.sr_status (Submitter.tr_result result)) "duplicate"
      then "duplicate" else "submitted"
  | None => "submitted"
  end.

(** One pass of the loop body: the calls made and the value returned, [None]
    when the loop goes round again. *)
Definition flow_pass (acct : account) (env : flow_env)
  : list stage_call * option flow_result :=
  match env_ticket env with
  | Throw _ => ([GetTicket; Sleep 2000], None)
  | Ok ticketResult =>
      if negb (tk_success ticketResult) then ([GetTicket; Sleep 1000], None)
      else
        let ticket := tk_ticket ticketResult in
        let validationResult := env_validation env in
        if negb (Validator.vr_valid validationResult) then
          ([GetTicket; ValidateTicket ticket], None)
        else
          let submissionResult := env_submission env in
          if Submitter.ar_success submissionResult &&
             default false (Submitter.ar_completed submissionResult)
          then
            ([GetTicket; ValidateTicket ticket; SubmitForAccount ticket;
              LogSuccessfulSubmission],
             Some (FlowResult true acct (Some submissionResult) None
                     (result_type submissionResult)))
          else if default false (Submitter.ar_needNewTicket submissionResult) then
            ([GetTicket; ValidateTicket ticket; SubmitForAccount ticket], None)
          else
            ([GetTicket; ValidateTicket ticket; SubmitForAccount ticket], None)
  end.

(** [executeIndependentAccountFlow] over a finite script; [None] when the
    script ends with the loop still going. *)
Fixpoint executeIndependentAccountFlow (acct : account) (script : list flow_env)
  : list stage_call * option flow_result :=
  match script with
  | [] => ([], None)
  | env :: script' =>
      if negb (env_running env) then
        ([], Some (FlowResult false acct None (Some "系统停止") "interrupted"))
      else
        match flow_pass acct env with
        | (calls, Some result) => (calls, Some result)
        | (calls, None) =>
            let '(calls', result) := executeIndependentAccountFlow acct script' in
            (calls ++ calls', result)
        end
  end.

(** One entry of what [Promise.allSettled] yields. *)
Inductive settled : Type :=
| SettledFulfilled (value : flow_result)
| SettledRejected (reason : string).

Record result_stats : Type := ResultStats {
  stat_success : nat;
  stat_duplicate : nat;
  stat_fail : nat;
  stat_total : nat
}.

Definition count_result (stats : result_stats) (result : settled) : result_stats :=
  match result with
  | SettledFulfilled value =>
      if fr_success value then
        if String.eqb (fr_type value) "duplicate" then
          ResultStats (stat_success stats) (S (stat_duplicate stats)) (stat_fail stats)
            (stat_total stats)
        else
          ResultStats (S (stat_success stats)) (stat_duplicate stats) (stat_fail stats)
            (stat_total stats)
      else
        ResultStats (stat_success stats) (stat_duplicate stats) (S (stat_fail stats))
          (stat_total stats)
  | SettledRejected _ =>
      ResultStats (stat_success stats) (stat_duplicate stats) (S (stat_fail stats))
        (stat_total stats)
  end.

Definition calculateResultStats (results : list settled) : result_stats :=
  foldl count_result (ResultStats 0 0 0 (length results)) results.

(** *** Vocabulary of the properties *)

(** A pass that got a ticket, had it accepted and then received
    [submissionResult]. *)
Definition pass_env (ticket : string) (validation : Validator.validation_result)
  (submissionResult : Submitter.account_result) : flow_env :=
  FlowEnv true (Ok (TicketResult true ticket)) validation submissionResult.

Definition full_pass (ticket : string) : list stage_call :=
  [GetTicket; ValidateTicket ticket; SubmitForAccount ticket].

(** *** The success log *)

Record quota_info : Type := QuotaInfo {
  qi_type : string;
  qi_quota : string;
  qi_subsidyId : jsval;
  qi_description : string
}.

(** The call of [successLogger] that [logSuccessfulSubmission] makes. *)
Inductive log_entry : Type :=
| LogDuplicateUser (acct : account) (quotaInfo : quota_info) (result : Submitter.task_result)
| LogSuccessUser (acct : account) (quotaInfo : quota_info) (result : Submitter.task_result).

(** [logSuccessfulSubmission]; [None] when it logs nothing. *)
Definition logSuccessfulSubmission (acct : account)
  (submissionResult : Submitter.account_result) : option log_entry :=
  match Submitter.ar_result submissionResult with
  | None => None
  | Some result =>
      let quotaInfo :=
        match tourismSubsidyIds acct with
        | Some ((quota, subsidyId) :: _) =>
            QuotaInfo "tourism" quota subsidyId ("消费" +:+ quota +:+ "档")
        | _ => QuotaInfo "unknown" "unknown" (JStr "unknown") "提交成功"
        end in
      if String.eqb (Submitter.sr_status (Submitter.tr_result result)) "duplicate"
      then Some (LogDuplicateUser acct quotaInfo result)
      else Some (LogSuccessUser acct quotaInfo result)
  end.

Definition entry_quota (entry : log_entry) : quota_info :=
  match entry with
  | LogDuplicateUser _ quotaInfo _ | LogSuccessUser _ quotaInfo _ => quotaInfo
  end.

Definition entry_result (entry : log_entry) : Submitter.task_result :=
  match entry with
  | LogDuplicateUser _ _ result | LogSuccessUser _ _ result => result
  end.

Definition logged_as_duplicate (entry : log_entry) : bool :=
  match entry with
  | LogDuplicateUser _ _ _ => true
  | LogSuccessUser _ _ _ => false
  end.

(** *** Stopping and resetting the flow *)

Record purchase_flow : Type := PurchaseFlow {
  pf_currentStep : string;
  pf_startTime : option Z;
  pf_isRunning : bool;
  pf_ticketManager : TicketManager.ticket_manager;
  pf_applicationSubmitter : Submitter.submitter
}.

(** The state the constructor sets, around the two components it creates. *)
Definition new_PurchaseFlow (ticketManager : TicketManager.ticket_manager)
  (applicationSubmitter : Submitter.submitter) : purchase_flow :=
  PurchaseFlow "idle" None true ticketManager applicationSubmitter.

(** The class body declares [stop] twice.  The later declaration replaces the
    earlier one, which is the one that would clear [isRunning] and stop the
    components, so this is the method a call of [stop] runs. *)
Definition stop (pf : purchase_flow) : purchase_flow :=
  PurchaseFlow "stopped" (pf_startTime pf) (pf_isRunning pf)
    (TicketManager.clearAllTickets (pf_ticketManager pf))
    (Submitter.reset (pf_applicationSubmitter pf)).

Definition reset (pf : purchase_flow) : purchase_flow :=
  PurchaseFlow "idle" None (pf_isRunning pf)
    (TicketManager.clearAllTickets (pf_ticketManager pf))
    (Submitter.reset (pf_applicationSubmitter pf)).

Inductive flow_call : Type :=
| StopFlow
| ResetFlow.

Definition flow_step (pf : purchase_flow) (call : flow_call) : purchase_flow :=
  match call with
  | StopFlow => stop pf
  | ResetFlow => reset pf
  end.

(** Where a call of the flow stands in the order ticket, validation,
    submission, success log. *)
Definition in_order (calls : list stage_call) (i : nat) (call : stage_call) : Prop :=
  match call with
  | GetTicket | Sleep _ => True
  | ValidateTicket _ => ∃ j, i = S j ∧ calls !! j = Some GetTicket
  | SubmitForAccount ticket =>
      ∃ j, i = S (S j) ∧ calls !! j = Some GetTicket ∧
           calls !! S j = Some (ValidateTicket ticket)
  | LogSuccessfulSubmission =>
      ∃ j ticket, i = S j ∧ calls !! j = Some (SubmitForAccount ticket)
  end.

(** The counters of [calculateResultStats] a result belongs to. *)
Definition counted_success (result : settled) : bool :=
  match result with
  | SettledFulfilled value => fr_success value
  | SettledRejected _ => false
  end.

End Flow.

(** ** Concrete accounts, responses and runs *)
Module Samples.
Import Js Api Submitter.
Import TicketManager(ticket_manager, new_TicketManager, acquisitions, attempt_env, AttemptEnv).
Import ProxyPool(pool, Pool, fresh_proxy).

#[local] Open Scope Z_scope.

Definition fresh : submitter := Submitter ∅ true ∅ ∅.

Definition acct1 : account :=
  Account "acc-1" "user1" (Some [("500", JStr "t-500"); ("1000", JStr "t-1000")])
    (JStr "f-1").

Definition tasks1 : list submit_task := generateSubmitTasks acct1 "ticket-1".

Definition task1 : submit_task :=
  SubmitTask "tourism" (Some "500") (JStr "t-500") acct1 "ticket-1" "消费500档".

Definition submitted1 : task_result :=
  executeSubmitTask (SubmitTask "tourism" (Some "500") (JStr "t-500") acct1 "ticket-1" "消费500档")
    (Ok (api_result_object (ApiSuccess (JObj [("success", JBool true)])))).

Definition duplicate1 : task_result :=
  executeSubmitTask (SubmitTask "food" None (JStr "f-1") acct1 "ticket-1" "餐饮档")
    (Ok (api_result_object
           (ApiSuccess (JObj [("success", JBool false); ("message", JStr "请勿重复提交")])))).

Definition done1 : submitter := markAccountCompleted fresh "acc-1" "success" 0.

Definition accepted1 : Validator.validation_result :=
  Validator.V2.validateTicketForAccount acct1 "ticket-1"
    (Fulfilled (ApiSuccess (JObj [("success", JBool true)]))).

Definition duplicate_fields : list (string * jsval) :=
  [("success", JBool false); ("code", JStr "E1001"); ("message", JStr "请勿重复提交")].

Definition duplicate_with_ticket_code : list (string * jsval) :=
  [("success", JBool false); ("code", JStr "TICKET_INVALID"); ("message", JStr "重复提交")].

Definition ticket_invalid_fields : list (string * jsval) :=
  [("success", JBool false); ("code", JStr "TICKET_INVALID"); ("message", JStr "ticket已失效")].

Definition ticket_code_without_flag : list (string * jsval) :=
  [("code", JStr "TICKET_INVALID"); ("message", JStr "ticket已失效")].

Definition attempt (fields : list (string * jsval)) : task_result :=
  executeSubmitTask task1 (Ok (api_result_object (ApiSuccess (JObj fields)))).

Definition running1 : race := executeHighConcurrencySubmission fresh acct1 tasks1 [].

(** A body without a [success] property. *)
Definition body_without_flag : jsval := JObj [("code", JStr "0"); ("message", JStr "ok")].

(** A body whose [success] is a string. *)
Definition body_with_text_flag : jsval := JObj [("success", JStr "true")].

(** The manager with the default limit of two, and what five calls in a row
    do to it. *)
Definition tm0 : ticket_manager := new_TicketManager None None None.

Definition two_recorded : ticket_manager := snd (acquisitions tm0 "acc-1" [0; 1]).

(** A manager with a timeout of 100 ms, and replies of the network layer. *)
Definition hasty : ticket_manager := new_TicketManager None None (Some 100).

Definition bad_gateway : api_reply := Fulfilled (ApiFailure "HTTP 502: Bad Gateway").

Definition queue_closed : api_reply :=
  Fulfilled (ApiSuccess (JObj [("success", JBool true); ("code", JStr "1")])).

Definition ticket_granted : api_reply :=
  Fulfilled
    (ApiSuccess
       (JObj [("success", JBool true); ("code", JStr "0");
              ("data", JObj [("ticket", JStr "T-0001")])])).

(** One failed request, then the check at 600 ms. *)
Definition late_after_one : list attempt_env :=
  [AttemptEnv 0 0 0 bad_gateway 5 5 5; AttemptEnv 600 601 601 bad_gateway 601 601 601].

(** Two failed requests inside the timeout (the first reply carries no
    ticket, so the loop goes round at once), then the check at 1200 ms. *)
Definition late_after_two : list attempt_env :=
  [AttemptEnv 0 0 0 queue_closed 5 5 5; AttemptEnv 5 5 5 bad_gateway 10 10 10;
   AttemptEnv 1200 1202 1202 bad_gateway 1202 1202 1202].

(** Three passes without a ticket, well inside the default timeout; the
    third waits for the rate limiter until 1000 ms. *)
Definition three_failures : list attempt_env :=
  [AttemptEnv 0 0 0 bad_gateway 5 5 5; AttemptEnv 505 505 505 queue_closed 510 510 510;
   AttemptEnv 510 510 510 bad_gateway 1005 1005 1005].

(** The third request brings a ticket; the clock moves on between storing
    the ticket, logging and returning.  A fourth pass is never reached. *)
Definition ticket_on_third : list attempt_env :=
  [AttemptEnv 0 0 0 bad_gateway 5 5 5; AttemptEnv 505 505 505 queue_closed 510 510 510;
   AttemptEnv 510 510 510 ticket_granted 1010 1011 1012;
   AttemptEnv 1600 1601 1601 bad_gateway 1601 1601 1601].

(** Two healthy proxies whose lease ran out at 1000 ms. *)
Definition lapsed : pool :=
  Pool [fresh_proxy "10.0.0.1" 8080; fresh_proxy "10.0.0.2" 8080] 0 (Some 1000) 0.

(** An account with two quotas, and a pre-work result that offers both and
    a food position. *)
Definition managed1 : AccountManager.managed_account :=
  AccountManager.ManagedAccount "acc-1" "user1" true [800; 300] "pending" None false []
    JNull.

Definition positions1 : jsval :=
  JObj [("tourismSubsidyPositions",
         JArr [JObj [("id", JStr "p-300"); ("subsidyAmount", JNum 300)];
               JObj [("id", JStr "p-800"); ("subsidyAmount", JNum 800)]]);
        ("foodSubsidyPositions", JArr [JObj [("id", JStr "f-1")]])].

End Samples.

(** * Properties *)

(** ** parseSubmitResponse *)
Module SubmitterParse.
Import Js Api Submitter.

Ltac canonical_leaf :=
  unfold canonical, statuses; simpl;
  split; [set_solver | split; split; intros; try discriminate; intuition (try discriminate; auto)].

Lemma body_canonical apiResult r :
  parseSubmitResponse_body apiResult = Ok r → canonical r.
Proof.
  unfold parseSubmitResponse_body, bind.
  intros H. repeat case_match; simplify_eq; canonical_leaf.
Qed.

(** C10. [parseSubmitResponse] is a total function: whatever the body of
    its [try] throws is turned into a [parse_error] result.  For every API
    result the status of what it returns is one of the eight listed, [success]
    is [true] exactly for [submitted] and [duplicate], and [needNewTicket] is
    [true] exactly for [ticket_invalid]. *)
Theorem parseSubmitResponse_total_canonical (apiResult : jsval) :
  canonical (parseSubmitResponse apiResult).
Proof.
  unfold parseSubmitResponse, try_catch.
  destruct (parseSubmitResponse_body apiResult) as [r | msg] eqn:Hbody.
  - by eapply body_canonical.
  - canonical_leaf.
Qed.

(** Inputs on which the body throws, and one of each other class. *)
Example parse_null : sr_status (parseSubmitResponse JNull) = "parse_error".
Proof. reflexivity. Qed.

Example parse_numeric_message :
  sr_status
    (parseSubmitResponse
       (api_result_object
          (ApiSuccess (JObj [("success", JBool false); ("message", JNum 5)]))))
  = "parse_error".
Proof. reflexivity. Qed.

Example parse_transport_failure :
  sr_status (parseSubmitResponse (api_result_object (ApiFailure "HTTP 502: Bad Gateway")))
  = "api_error".
Proof. reflexivity. Qed.

Example parse_submitted :
  parseSubmitResponse
    (api_result_object (ApiSuccess (JObj [("success", JBool true); ("code", JStr "0")])))
  = SubmitResult true "submitted" (JStr "提交成功") (JStr "0") JUndefined (Some false) None.
Proof. reflexivity. Qed.

(** A body that reports failure, not the ticket code, and the marker in a
    string message. *)
Lemma parse_duplicate fields m :
  assoc "success" fields = JBool false →
  assoc "message" fields = JStr m →
  str_includes m "重复提交" = true →
  is_str (assoc "code" fields) "TICKET_INVALID" = false →
  parseSubmitResponse (api_result_object (ApiSuccess (JObj fields)))
  = SubmitResult true "duplicate" (JStr m) (assoc "code" fields)
      (assoc "requestId" fields) (Some false) None.
Proof.
  intros Hs Hm Hinc Hc.
  assert (js_or (JStr m) (JStr "") = JStr m) as Hor.
  { destruct m; [discriminate Hinc | reflexivity]. }
  unfold parseSubmitResponse, parseSubmitResponse_body; simpl.
  rewrite Hs, Hm, Hc, Hor; simpl. by rewrite Hinc.
Qed.

Lemma parse_ticket_invalid fields :
  assoc "success" fields = JBool false →
  assoc "code" fields = JStr "TICKET_INVALID" →
  parseSubmitResponse (api_result_object (ApiSuccess (JObj fields)))
  = SubmitResult false "ticket_invalid" (JStr "Ticket过期") (JStr "TICKET_INVALID")
      JUndefined (Some false) (Some true).
Proof.
  intros Hs Hc.
  unfold parseSubmitResponse, parseSubmitResponse_body; simpl.
  by rewrite Hs, Hc.
Qed.

End SubmitterParse.

(** ** The submission race *)
Module RaceProps.
Import Js Api Submitter.
Import Samples.

Section race.
Variable acct : account.
Variable submitTasks : list submit_task.

Lemma dispatchTask_verdict r task :
  same_verdict r (dispatchTask r task) ∧ this (dispatchTask r task) = this r ∧
  roundCounter (dispatchTask r task) = roundCounter r ∧
  roundTimers (dispatchTask r task) = roundTimers r.
Proof. unfold dispatchTask, same_verdict. by case_match. Qed.

Lemma dispatch_all_verdict tasks r :
  same_verdict r (foldl dispatchTask r tasks) ∧ this (foldl dispatchTask r tasks) = this r ∧
  roundCounter (foldl dispatchTask r tasks) = roundCounter r ∧
  roundTimers (foldl dispatchTask r tasks) = roundTimers r.
Proof.
  revert r. induction tasks as [| task tasks IH]; intros r; simpl.
  - by unfold same_verdict.
  - destruct (IH (dispatchTask r task)) as ([Hc Hr] & Ht & Hn & Hm).
    destruct (dispatchTask_verdict r task) as ([Hc' Hr'] & Ht' & Hn' & Hm').
    unfold same_verdict. repeat split; congruence.
Qed.

Lemma startSubmissionRound_verdict r :
  same_verdict r (startSubmissionRound submitTasks r) ∧
  this (startSubmissionRound submitTasks r) = this r.
Proof.
  unfold startSubmissionRound.
  destruct (completed r || negb (isRunning (this r))) eqn:Hidle.
  - by unfold same_verdict.
  - set (r1 := Race _ (S _) _ _ _ _).
    destruct (dispatch_all_verdict submitTasks r1) as ([Hc Hr] & Ht & _).
    unfold same_verdict. case_match; simpl; subst r1; simpl in *; repeat split; congruence.
Qed.

Lemma startSubmissionRound_idle r :
  completed r = true ∨ isRunning (this r) = false →
  startSubmissionRound submitTasks r = r.
Proof.
  unfold startSubmissionRound. intros [-> | ->]; [done |].
  by rewrite orb_true_r.
Qed.

(** A round that does something needs the flag clear and the submitter
    running. *)
Lemma startSubmissionRound_acts r :
  startSubmissionRound submitTasks r ≠ r →
  completed r = false ∧ isRunning (this r) = true.
Proof.
  intros Hne. destruct (completed r) eqn:Hc.
  - exfalso. apply Hne. apply startSubmissionRound_idle. by left.
  - destruct (isRunning (this r)) eqn:Hr; [done |].
    exfalso. apply Hne. apply startSubmissionRound_idle. by right.
Qed.

Lemma step_settled_once r e :
  settled_once r → settled_once (step acct submitTasks r e).
Proof.
  unfold settled_once. intros Hinv.
  destruct e; simpl.
  - unfold onTaskResult, handleSuccess, handleTicketExpired.
    destruct (completed r) eqn:Hc; [by rewrite Hc |].
    repeat case_match; simpl in *; try discriminate;
      try (rewrite Hinv; eauto); try congruence.
  - done.
  - destruct (startSubmissionRound_verdict r) as ([Hc Hr] & _).
    by rewrite Hc, Hr.
  - unfold onSubmitTimeout.
    destruct (completed r) eqn:Hc; simpl; [by rewrite Hc |].
    rewrite Hinv. eauto.
  - done.
  - done.
Qed.

Lemma race_start_settled_once s : settled_once (race_start s submitTasks).
Proof.
  unfold race_start, settled_once.
  destruct (startSubmissionRound_verdict (Race false 0 s [] [] 0)) as ([Hc Hr] & _).
  by rewrite Hc, Hr.
Qed.

Lemma run_settled_once r events :
  settled_once r → settled_once (foldl (step acct submitTasks) r events).
Proof.
  revert r. induction events as [| e events IH]; intros r Hinv; simpl; [done |].
  apply IH. by apply step_settled_once.
Qed.

(** Once the flag is set, no callback resolves, sends, counts or schedules. *)
Lemma step_after_completed r e :
  completed r = true →
  same_verdict r (step acct submitTasks r e) ∧ same_traffic r (step acct submitTasks r e).
Proof.
  intros Hc. unfold same_verdict, same_traffic.
  destruct e; simpl.
  - unfold onTaskResult. by rewrite Hc.
  - done.
  - rewrite startSubmissionRound_idle; [done | by left].
  - unfold onSubmitTimeout. by rewrite Hc.
  - done.
  - done.
Qed.

Lemma run_after_completed r events :
  completed r = true →
  same_verdict r (foldl (step acct submitTasks) r events) ∧
  same_traffic r (foldl (step acct submitTasks) r events).
Proof.
  revert r. induction events as [| e events IH]; intros r Hc; simpl.
  - by unfold same_verdict, same_traffic.
  - destruct (step_after_completed r e Hc) as ([Hc1 Hr1] & Hn1 & Hd1 & Ht1).
    destruct (IH (step acct submitTasks r e)) as ([Hc2 Hr2] & Hn2 & Hd2 & Ht2);
      [congruence |].
    unfold same_verdict, same_traffic. repeat split; congruence.
Qed.

Lemma onSubmitTimeout_completes r : completed (onSubmitTimeout acct r) = true.
Proof. unfold onSubmitTimeout. by destruct (completed r) eqn:Hc. Qed.

Lemma step_traffic r e :
  same_traffic r (step acct submitTasks r e) ∨
  (e = RoundTimer ∧ completed r = false ∧ isRunning (this r) = true).
Proof.
  destruct e; simpl; try (left; by unfold same_traffic).
  - left. unfold same_traffic, onTaskResult, handleSuccess, handleTicketExpired.
    by repeat case_match.
  - destruct (completed r) eqn:Hc.
    + left. rewrite startSubmissionRound_idle; [by unfold same_traffic | by left].
    + destruct (isRunning (this r)) eqn:Hr; [by right |].
      left. rewrite startSubmissionRound_idle; [by unfold same_traffic | by right].
  - left. unfold same_traffic, onSubmitTimeout. by case_match.
Qed.

End race.

(** C1. In every run of the race, whatever the order in which attempts,
    timers and the time guard complete, [resolve] has been called at most
    once; a call that has happened is never followed by another, so the first
    finaliser's value stays; and once the time guard has fired it has been
    called exactly once.  Each of the three finalisation paths checks
    [completed]: on a race that is already finalised [handleSuccess],
    [handleTicketExpired] and the time guard change nothing, and on a race
    that is not, each sets [completed] and calls [resolve] with its own value.
    So an attempt that settles with a [submitted] or [duplicate] result on a
    race not yet finalised resolves the promise with that result, an attempt
    that asks for a new ticket resolves it with the needs-new-ticket value,
    the time guard with the timeout value, and whatever completes later is
    discarded. *)
Theorem race_resolves_exactly_once (s : submitter) (acct : account)
  (submitTasks : list submit_task) (before after : list event) (result : task_result) :
  let run := executeHighConcurrencySubmission s acct submitTasks in
  let r := run before in
  (length (resolved r) ≤ 1)%nat ∧
  (resolved r = [] ∨ resolved (run (before ++ after)) = resolved r) ∧
  (∃ outcome,
     resolved (run (before ++ [SubmitTimeout])) = [outcome] ∧
     resolved (run (before ++ SubmitTimeout :: after)) = [outcome]) ∧
  if completed r then
    (∃ outcome, resolved r = [outcome]) ∧
    handleSuccess acct result r = r ∧
    handleTicketExpired acct r = r ∧
    onSubmitTimeout acct r = r
  else
    resolved r = [] ∧
    (completed (handleSuccess acct result r) = true ∧
     resolved (handleSuccess acct result r) = [won acct result]) ∧
    (completed (handleTicketExpired acct r) = true ∧
     resolved (handleTicketExpired acct r) = [needs_ticket acct]) ∧
    (completed (onSubmitTimeout acct r) = true ∧
     resolved (onSubmitTimeout acct r) = [timed_out acct]) ∧
    resolved (run (before ++ TaskSettled result :: after))
    = (if winning result then [won acct result]
       else if default false (sr_needNewTicket (tr_result result)) then [needs_ticket acct]
       else resolved (run (before ++ after))) ∧
    resolved (run (before ++ SubmitTimeout :: after)) = [timed_out acct].
Proof.
  intros run r. subst run r. unfold executeHighConcurrencySubmission.
  rewrite !foldl_app.
  set (r := foldl (step acct submitTasks) (race_start s submitTasks) before).
  assert (settled_once r) as Hinv
    by apply run_settled_once, race_start_settled_once.
  clearbody r. split_and!.
  - unfold settled_once in Hinv. destruct (completed r).
    + destruct Hinv as [o ->]. simpl. lia.
    + rewrite Hinv. simpl. lia.
  - unfold settled_once in Hinv. destruct (completed r) eqn:Hc; [right | by left].
    by destruct (run_after_completed acct submitTasks r after Hc) as ([_ ->] & _).
  - simpl.
    pose proof (step_settled_once acct submitTasks r SubmitTimeout Hinv) as Hinv'.
    pose proof (onSubmitTimeout_completes acct r) as Hc.
    simpl in Hinv'. unfold settled_once in Hinv'. rewrite Hc in Hinv'.
    destruct Hinv' as [o Ho]. exists o. split; [done |].
    destruct (run_after_completed acct submitTasks _ after Hc) as ([_ Hr] & _).
    by rewrite Hr.
  - unfold settled_once in Hinv. destruct (completed r) eqn:Hc.
    + unfold handleSuccess, handleTicketExpired, onSubmitTimeout. by rewrite Hc.
    + assert (completed (handleSuccess acct result r) = true ∧
              resolved (handleSuccess acct result r) = [won acct result]) as Hsuccess.
      { unfold handleSuccess. rewrite Hc. simpl. by rewrite Hinv. }
      assert (completed (handleTicketExpired acct r) = true ∧
              resolved (handleTicketExpired acct r) = [needs_ticket acct]) as Hexpired.
      { unfold handleTicketExpired. rewrite Hc. simpl. by rewrite Hinv. }
      assert (completed (onSubmitTimeout acct r) = true ∧
              resolved (onSubmitTimeout acct r) = [timed_out acct]) as Hguard.
      { unfold onSubmitTimeout. rewrite Hc. simpl. by rewrite Hinv. }
      destruct Hsuccess as [Hsuccess Hwon], Hexpired as [Hexpired Hneeds],
        Hguard as [Hguard Hlate].
      split_and!; try done.
      * simpl. unfold onTaskResult. rewrite Hc. fold (winning result).
        destruct (winning result).
        -- by destruct (run_after_completed acct submitTasks _ after Hsuccess)
             as ([_ ->] & _).
        -- destruct (default false (sr_needNewTicket (tr_result result))); [| done].
           by destruct (run_after_completed acct submitTasks _ after Hexpired)
             as ([_ ->] & _).
      * simpl.
        by destruct (run_after_completed acct submitTasks _ after Hguard) as ([_ ->] & _).
Qed.

(** Two attempts win one after the other before the time guard fires: the
    promise carries the result of the first. *)
Lemma race_resolves_exactly_once_witness :
  resolved (executeHighConcurrencySubmission fresh acct1 tasks1
              [TaskSettled submitted1; TaskSettled duplicate1; SubmitTimeout])
  = [won acct1 submitted1].
Proof.
  pose proof (race_resolves_exactly_once fresh acct1 tasks1 []
                [TaskSettled duplicate1; SubmitTimeout] submitted1) as Hrace.
  cbv zeta in Hrace. destruct Hrace as (_ & _ & _ & Hpaths).
  change (completed (executeHighConcurrencySubmission fresh acct1 tasks1 [])) with false
    in Hpaths.
  destruct Hpaths as (_ & _ & _ & _ & Hfirst & _). exact Hfirst.
Defined.

(** C4. A callback counts a round, sends an attempt or sets a round timer
    only if it is the round timer running with [completed] clear and the
    submitter running.  Once [completed] is set, [startSubmissionRound] and
    every single dispatch do nothing, and through any further events the round
    counter, the attempts sent and the round timers set stay as they are. *)
Theorem no_round_after_finalization (acct : account) (submitTasks : list submit_task)
  (r : race) (e : event) (events : list event) :
  (same_traffic r (step acct submitTasks r e) ∨
   (e = RoundTimer ∧ completed r = false ∧ isRunning (this r) = true)) ∧
  (completed r = true →
   startSubmissionRound submitTasks r = r ∧
   (∀ task, dispatchTask r task = r) ∧
   same_traffic r (foldl (step acct submitTasks) r events)).
Proof.
  split; [apply step_traffic |].
  intros Hc. split_and!.
  - apply startSubmissionRound_idle. by left.
  - intros task. unfold dispatchTask. by rewrite Hc.
  - by destruct (run_after_completed acct submitTasks r events Hc) as [_ ?].
Qed.

(** C9. For an account whose id is in [accountStatuses], [submitForAccount]
    settles with [{success: true, completed: true, account}], launches no race
    (so no task list is used, no round starts and no attempt is sent, whatever
    happens afterwards) and leaves the submitter as it was. *)
Theorem submitForAccount_completed_noop (s : submitter) (acct : account)
  (ticket : string) (events : list event) :
  is_Some (accountStatuses s !! accId acct) →
  submitForAccount s acct ticket events
  = Submission (Some (AccountResult true (Some true) None None None acct None)) None s.
Proof.
  intros Hdone. unfold submitForAccount, isAccountCompleted.
  by rewrite bool_decide_eq_true_2.
Qed.

(** The first round sends one attempt per task and sets the next timer. *)
Example first_round :
  let r := executeHighConcurrencySubmission fresh acct1 tasks1 [] in
  roundCounter r = 1%nat ∧ dispatched r = tasks1 ∧ length tasks1 = 3%nat ∧
  roundTimers r = 1%nat ∧ resolved r = [].
Proof. vm_compute. done. Qed.

(** Two attempts succeed one after the other, then a timer and the time
    guard fire: one [resolve], with the first result; one round only. *)
Example two_winners :
  let r := executeHighConcurrencySubmission fresh acct1 tasks1
             [TaskSettled duplicate1; TaskSettled submitted1; RoundTimer; SubmitTimeout] in
  resolved r = [AccountResult true (Some true) None None None acct1 (Some duplicate1)] ∧
  roundCounter r = 1%nat ∧ length (dispatched r) = 3%nat.
Proof. vm_compute. done. Qed.

(** A stopped submitter sends nothing; the time guard still settles the
    promise. *)
Example stopped_race :
  let r := executeHighConcurrencySubmission (stop fresh) acct1 tasks1 [RoundTimer; SubmitTimeout] in
  dispatched r = [] ∧
  resolved r = [AccountResult false (Some false) None None (Some "提交超时") acct1 None].
Proof. vm_compute. done. Qed.

Lemma no_round_after_finalization_witness :
  let r := executeHighConcurrencySubmission fresh acct1 tasks1 [TaskSettled submitted1] in
  completed r = true ∧
  same_traffic r
    (foldl (step acct1 tasks1) r [RoundTimer; TaskSettled duplicate1; RoundTimer; ResetCalled; RoundTimer]).
Proof.
  intros r.
  assert (completed r = true) as Hc by reflexivity.
  split; [exact Hc |].
  exact (proj2 (proj2 (proj2 (no_round_after_finalization acct1 tasks1 r RoundTimer
                                [RoundTimer; TaskSettled duplicate1; RoundTimer; ResetCalled;
                                 RoundTimer]) Hc))).
Defined.

(** Without the guard the same call launches a race. *)
Example submitForAccount_fresh :
  ∃ r, sub_race (submitForAccount fresh acct1 "ticket-1" []) = Some r ∧
       dispatched r = tasks1.
Proof. eexists. split; reflexivity. Qed.

Lemma submitForAccount_completed_noop_witness :
  is_Some (accountStatuses done1 !! accId acct1) ∧
  submitForAccount done1 acct1 "ticket-1" [RoundTimer; SubmitTimeout]
  = Submission (Some (AccountResult true (Some true) None None None acct1 None)) None done1.
Proof.
  assert (is_Some (accountStatuses done1 !! accId acct1)) as Hdone.
  { exists (AccountStatus "success" 0). reflexivity. }
  split; [exact Hdone |].
  exact (submitForAccount_completed_noop done1 acct1 "ticket-1" [RoundTimer; SubmitTimeout] Hdone).
Defined.

End RaceProps.

(** ** From a classified response to the account's flow and the statistics *)
Module FlowProps.
Import Js Api Submitter Flow.
Import SubmitterParse RaceProps.
Import Samples.

(** Every pass opens with a ticket request, so whatever the flow does next
    starts there. *)
Lemma flow_pass_starts_with_ticket acct env :
  ∃ rest, fst (flow_pass acct env) = GetTicket :: rest.
Proof. unfold flow_pass. repeat case_match; simpl; eauto. Qed.

Lemma flow_starts_with_ticket acct script :
  fst (executeIndependentAccountFlow acct script) = [] ∨
  ∃ rest, fst (executeIndependentAccountFlow acct script) = GetTicket :: rest.
Proof.
  destruct script as [| env script]; simpl; [by left |].
  destruct (env_running env); simpl; [| by left].
  destruct (flow_pass_starts_with_ticket acct env) as [rest Hrest].
  destruct (flow_pass acct env) as [calls [result |]]; simpl in *.
  - right. eauto.
  - destruct (executeIndependentAccountFlow acct script) as [calls' result'].
    simpl. right. exists (rest ++ calls'). by rewrite Hrest.
Qed.

(** A pass that ends without a value hands over to the rest of the script. *)
Lemma flow_continue acct env script calls :
  env_running env = true →
  flow_pass acct env = (calls, None) →
  fst (executeIndependentAccountFlow acct (env :: script))
  = calls ++ fst (executeIndependentAccountFlow acct script).
Proof.
  intros Hrun Hpass. simpl. rewrite Hrun, Hpass. simpl.
  by destruct (executeIndependentAccountFlow acct script).
Qed.

(** Both winning statuses take the same branch of the callback. *)
Lemma winning_result_takes_handleSuccess acct result r :
  sr_success (tr_result result) = true →
  sr_status (tr_result result) = "submitted" ∨ sr_status (tr_result result) = "duplicate" →
  completed r = false →
  onTaskResult acct result r = handleSuccess acct result r ∧
  resolved (onTaskResult acct result r) = resolved r ++ [won acct result] ∧
  completed (onTaskResult acct result r) = true.
Proof.
  intros Hs Hst Hc. unfold onTaskResult, handleSuccess. rewrite Hc, Hs.
  by destruct Hst as [-> | ->].
Qed.

(** C2, as the code has it.  A body with [success === false], a code other
    than [TICKET_INVALID] and a string message holding the marker is
    classified [duplicate] with [success = true]; in a race not yet finalised
    it takes the branch a [submitted] result takes and resolves the promise
    with [{success: true, completed: true, result}]; the account's flow then
    returns a successful result of type [duplicate], which the statistics
    count under [duplicate] and not under [fail]. *)
Theorem duplicate_counts_as_completed (fields : list (string * jsval)) (m : string)
  (acct : account) (task : submit_task) (ticket : string)
  (validation : Validator.validation_result) (r : race) (stats : result_stats) :
  assoc "success" fields = JBool false →
  assoc "message" fields = JStr m →
  str_includes m "重复提交" = true →
  is_str (assoc "code" fields) "TICKET_INVALID" = false →
  completed r = false →
  Validator.vr_valid validation = true →
  let result := executeSubmitTask task (Ok (api_result_object (ApiSuccess (JObj fields)))) in
  let final := FlowResult true acct (Some (won acct result)) None "duplicate" in
  sr_status (tr_result result) = "duplicate" ∧
  sr_success (tr_result result) = true ∧
  onTaskResult acct result r = handleSuccess acct result r ∧
  resolved (onTaskResult acct result r) = resolved r ++ [won acct result] ∧
  flow_pass acct (pass_env ticket validation (won acct result))
  = (full_pass ticket ++ [LogSuccessfulSubmission], Some final) ∧
  count_result stats (SettledFulfilled final)
  = ResultStats (stat_success stats) (S (stat_duplicate stats)) (stat_fail stats)
      (stat_total stats).
Proof.
  intros Hs Hm Hinc Hcode Hc Hvalid result final.
  assert (tr_result result
          = SubmitResult true "duplicate" (JStr m) (assoc "code" fields)
              (assoc "requestId" fields) (Some false) None) as Hres.
  { subst result. unfold executeSubmitTask, try_catch, bind. cbn [tr_result].
    by apply parse_duplicate. }
  destruct (winning_result_takes_handleSuccess acct result r) as (Hpath & Hresolved & _);
    [by rewrite Hres | right; by rewrite Hres | done |].
  clearbody result.
  split_and!; try done; try (by rewrite Hres).
  - unfold flow_pass, pass_env; simpl. rewrite Hvalid; simpl.
    unfold result_type; simpl. by rewrite Hres.
Qed.

(** C8, as the code has it.  A body with [success === false] and the code
    [TICKET_INVALID] is classified [ticket_invalid]; in a race not yet
    finalised the callback sets [completed] and resolves the promise with
    [{success: false, completed: false, needNewTicket: true}]; the account's
    flow ends the pass without a value, and whatever it does next starts with
    a new ticket request. *)
Theorem ticket_invalid_restarts_from_acquisition (fields : list (string * jsval))
  (acct : account) (task : submit_task) (ticket : string)
  (validation : Validator.validation_result) (r : race) (script : list flow_env) :
  assoc "success" fields = JBool false →
  assoc "code" fields = JStr "TICKET_INVALID" →
  completed r = false →
  Validator.vr_valid validation = true →
  let result := executeSubmitTask task (Ok (api_result_object (ApiSuccess (JObj fields)))) in
  let env := pass_env ticket validation (needs_ticket acct) in
  sr_status (tr_result result) = "ticket_invalid" ∧
  sr_success (tr_result result) = false ∧
  sr_needNewTicket (tr_result result) = Some true ∧
  onTaskResult acct result r = handleTicketExpired acct r ∧
  completed (onTaskResult acct result r) = true ∧
  resolved (onTaskResult acct result r) = resolved r ++ [needs_ticket acct] ∧
  flow_pass acct env = (full_pass ticket, None) ∧
  ∃ next, fst (executeIndependentAccountFlow acct (env :: script)) = full_pass ticket ++ next ∧
          (next = [] ∨ ∃ rest, next = GetTicket :: rest).
Proof.
  intros Hs Hcode Hc Hvalid result env.
  assert (tr_result result
          = SubmitResult false "ticket_invalid" (JStr "Ticket过期") (JStr "TICKET_INVALID")
              JUndefined (Some false) (Some true)) as Hres.
  { subst result. unfold executeSubmitTask, try_catch, bind. cbn [tr_result].
    by apply parse_ticket_invalid. }
  assert (flow_pass acct env = (full_pass ticket, None)) as Hpass.
  { unfold flow_pass, env, pass_env; simpl. by rewrite Hvalid. }
  clearbody result.
  split_and!; try (by rewrite Hres); try done.
  - unfold onTaskResult. by rewrite Hc, Hres.
  - unfold onTaskResult, handleTicketExpired. by rewrite Hc, Hres.
  - unfold onTaskResult, handleTicketExpired. by rewrite Hc, Hres.
  - exists (fst (executeIndependentAccountFlow acct script)). split.
    + by apply flow_continue.
    + apply flow_starts_with_ticket.
Qed.

Lemma duplicate_counts_as_completed_witness :
  sr_status (tr_result (attempt duplicate_fields)) = "duplicate" ∧
  resolved (onTaskResult acct1 (attempt duplicate_fields) running1)
  = [won acct1 (attempt duplicate_fields)] ∧
  count_result (ResultStats 2 0 1 4)
    (SettledFulfilled
       (FlowResult true acct1 (Some (won acct1 (attempt duplicate_fields))) None "duplicate"))
  = ResultStats 2 1 1 4.
Proof.
  destruct (duplicate_counts_as_completed duplicate_fields "请勿重复提交" acct1 task1
              "ticket-1" accepted1 running1 (ResultStats 2 0 1 4)
              eq_refl eq_refl eq_refl eq_refl eq_refl eq_refl)
    as (Hstatus & _ & _ & Hresolved & _ & Hcount).
  split; [exact Hstatus |]. split; [exact Hresolved | exact Hcount].
Defined.

(** C2 as stated fails where the body also carries the ticket code: the body
    reports failure and its message holds the marker, yet the result is
    [ticket_invalid] with [success = false], and the race resolves with the
    needs-new-ticket value instead of the success value. *)
Lemma duplicate_marker_with_ticket_code :
  assoc "success" duplicate_with_ticket_code = JBool false ∧
  assoc "message" duplicate_with_ticket_code = JStr "重复提交" ∧
  str_includes "重复提交" "重复提交" = true ∧
  sr_status (tr_result (attempt duplicate_with_ticket_code)) = "ticket_invalid" ∧
  sr_status (tr_result (attempt duplicate_with_ticket_code)) ≠ "duplicate" ∧
  sr_success (tr_result (attempt duplicate_with_ticket_code)) = false ∧
  resolved (onTaskResult acct1 (attempt duplicate_with_ticket_code) running1)
  = [needs_ticket acct1].
Proof. by vm_compute. Qed.

Lemma ticket_invalid_restarts_from_acquisition_witness :
  sr_status (tr_result (attempt ticket_invalid_fields)) = "ticket_invalid" ∧
  resolved (onTaskResult acct1 (attempt ticket_invalid_fields) running1)
  = [needs_ticket acct1] ∧
  fst (executeIndependentAccountFlow acct1
         [pass_env "ticket-1" accepted1 (needs_ticket acct1);
          pass_env "ticket-2" accepted1 (won acct1 (attempt duplicate_fields))])
  = full_pass "ticket-1" ++ full_pass "ticket-2" ++ [LogSuccessfulSubmission].
Proof.
  destruct (ticket_invalid_restarts_from_acquisition ticket_invalid_fields acct1 task1
              "ticket-1" accepted1 running1
              [pass_env "ticket-2" accepted1 (won acct1 (attempt duplicate_fields))]
              eq_refl eq_refl eq_refl eq_refl)
    as (Hstatus & _ & _ & _ & _ & Hresolved & _ & _).
  split; [exact Hstatus |]. split; [exact Hresolved | reflexivity].
Defined.

(** C8 as stated fails for a body that carries the code without
    [success === false]: with the flag missing the result is [unknown], asks
    for no new ticket and leaves the race running; with [success === true] the
    attempt even wins the race. *)
Lemma ticket_code_without_failure_flag :
  assoc "code" ticket_code_without_flag = JStr "TICKET_INVALID" ∧
  sr_status (tr_result (attempt ticket_code_without_flag)) = "unknown" ∧
  sr_needNewTicket (tr_result (attempt ticket_code_without_flag)) = None ∧
  completed (onTaskResult acct1 (attempt ticket_code_without_flag) running1) = false ∧
  resolved (onTaskResult acct1 (attempt ticket_code_without_flag) running1) = [] ∧
  sr_status
    (tr_result (attempt [("success", JBool true); ("code", JStr "TICKET_INVALID")]))
  = "submitted".
Proof. by vm_compute. Qed.

End FlowProps.

(** ** Ticket validation *)
Module ValidationProps.
Import Js Api Submitter Validator Flow.
Import RaceProps FlowProps.
Import Samples.

Lemma V1_verdict data :
  V1.parseValidationResponse data
  = is_object data && negb (is_bool (success_field data) false).
Proof.
  unfold V1.parseValidationResponse, is_object, try_catch, bind.
  destruct data as [| | b | n | s | items | fields]; simpl;
    rewrite ?orb_true_r, ?andb_false_r; simpl; try done.
  all: repeat case_match; by simplify_eq.
Qed.

Lemma V2_verdict data :
  V2.parseValidationResponse data
  = is_object data && is_bool (success_field data) true.
Proof.
  unfold V2.parseValidationResponse, is_object, try_catch, bind.
  destruct data as [| | b | n | s | items | fields]; simpl;
    rewrite ?orb_true_r, ?andb_false_r; simpl; try done.
  all: repeat case_match; by simplify_eq.
Qed.

Lemma no_verdict_retry parse acct ticket reply :
  (∀ data, is_object data = false → parse data = false) →
  no_verdict reply = true →
  let v := Validator.validateTicketForAccount parse acct ticket reply in
  vr_valid v = false ∧ vr_needRetry v = Some true.
Proof.
  intros Hparse Hno. unfold Validator.validateTicketForAccount.
  destruct reply as [[data | message] | error_code error_message]; simpl in *; try done.
  rewrite Hparse; [done |]. by destruct (is_object data).
Qed.

(** C7, as the code has it.  The first revision of
    [parseValidationResponse] accepts every object body whose [success] is not
    the boolean [false]; the second accepts exactly the object bodies whose
    [success] is the boolean [true].  In both revisions a rejected call, a
    failure of the network layer and a body that is no object give
    [valid = false] with [needRetry = true]; and on any result that is not
    valid the account's flow ends the pass after the validation, without a
    submission, and whatever it does next starts with a new ticket request. *)
Theorem validation_verdicts (acct : account) (ticket : string) (data : jsval)
  (reply : api_reply) (validation : validation_result)
  (submissionResult : Submitter.account_result) (script : list flow_env) :
  (is_object data = true → is_bool (success_field data) false = false →
   V1.parseValidationResponse data = true) ∧
  (V2.parseValidationResponse data = true ↔
   is_object data = true ∧ success_field data = JBool true) ∧
  (no_verdict reply = true →
   vr_valid (V1.validateTicketForAccount acct ticket reply) = false ∧
   vr_needRetry (V1.validateTicketForAccount acct ticket reply) = Some true ∧
   vr_valid (V2.validateTicketForAccount acct ticket reply) = false ∧
   vr_needRetry (V2.validateTicketForAccount acct ticket reply) = Some true) ∧
  (vr_valid validation = false →
   let env := pass_env ticket validation submissionResult in
   flow_pass acct env = ([GetTicket; ValidateTicket ticket], None) ∧
   ∃ next, fst (executeIndependentAccountFlow acct (env :: script))
           = [GetTicket; ValidateTicket ticket] ++ next ∧
           (next = [] ∨ ∃ rest, next = GetTicket :: rest)).
Proof.
  split_and!.
  - intros Hobj Hnot. by rewrite V1_verdict, Hobj, Hnot.
  - rewrite V2_verdict. split.
    + intros [Hobj Hs]%andb_true_iff. split; [done |].
      destruct (success_field data) as [| | [] | | | |]; by simpl in Hs.
    + intros [-> ->]. done.
  - intros Hno.
    destruct (no_verdict_retry V1.parseValidationResponse acct ticket reply) as [? ?];
      [intros d Hd; by rewrite V1_verdict, Hd | done |].
    destruct (no_verdict_retry V2.parseValidationResponse acct ticket reply) as [? ?];
      [intros d Hd; by rewrite V2_verdict, Hd | done |].
    done.
  - intros Hinvalid env.
    assert (flow_pass acct env = ([GetTicket; ValidateTicket ticket], None)) as Hpass.
    { unfold flow_pass, env, pass_env; simpl. by rewrite Hinvalid. }
    split; [done |].
    exists (fst (executeIndependentAccountFlow acct script)). split.
    + by apply flow_continue.
    + apply flow_starts_with_ticket.
Qed.

(** C7 as stated fails on the second revision: a body that does not report
    failure at all (no [success] property, or one that is not a boolean) is
    not accepted; the first revision accepts the same bodies. *)
Lemma second_revision_rejects_missing_flag :
  is_bool (success_field body_without_flag) false = false ∧
  V2.parseValidationResponse body_without_flag = false ∧
  vr_valid (V2.validateTicketForAccount acct1 "ticket-1"
              (Fulfilled (ApiSuccess body_without_flag))) = false ∧
  is_bool (success_field body_with_text_flag) false = false ∧
  V2.parseValidationResponse body_with_text_flag = false ∧
  V1.parseValidationResponse body_without_flag = true ∧
  V1.parseValidationResponse body_with_text_flag = true.
Proof. by vm_compute. Qed.

Lemma validation_verdicts_witness :
  V1.parseValidationResponse body_without_flag = true ∧
  vr_needRetry (V2.validateTicketForAccount acct1 "ticket-1"
                  (Fulfilled (ApiFailure "HTTP 502: Bad Gateway"))) = Some true ∧
  flow_pass acct1
    (pass_env "ticket-1"
       (V2.validateTicketForAccount acct1 "ticket-1" (Fulfilled (ApiSuccess JNull)))
       (needs_ticket acct1))
  = ([GetTicket; ValidateTicket "ticket-1"], None).
Proof.
  destruct (validation_verdicts acct1 "ticket-1" body_without_flag
              (Fulfilled (ApiFailure "HTTP 502: Bad Gateway"))
              (V2.validateTicketForAccount acct1 "ticket-1" (Fulfilled (ApiSuccess JNull)))
              (needs_ticket acct1) [])
    as (Hfirst & _ & Hretry & Hflow).
  split; [exact (Hfirst eq_refl eq_refl) |].
  split; [exact (proj2 (proj2 (proj2 (Hretry eq_refl)))) |].
  exact (proj1 (Hflow eq_refl)).
Defined.

End ValidationProps.

(** ** The rate limiter *)
Module RateLimitProps.
Import Js Api TicketManager.
Import Samples.

#[local] Open Scope Z_scope.

Lemma math_min_least (times : list Z) :
  times ≠ [] →
  ∃ oldest, math_min times = Fin oldest ∧ oldest ∈ times ∧ ∀ t, t ∈ times → oldest ≤ t.
Proof.
  induction times as [| time times IH]; [done | intros _].
  destruct times as [| time' times'].
  - exists time. simpl. split_and!; [done | set_solver |].
    intros t Ht. apply list_elem_of_singleton in Ht. lia.
  - destruct IH as (m & Hm & Hin & Hle); [done |].
    exists (Z.min time m). split_and!.
    + change (math_min (time :: time' :: times'))
        with (match math_min (time' :: times') with
              | Fin m' => Fin (Z.min time m')
              | Infinity => Fin time
              end).
      by rewrite Hm.
    + destruct (Z.min_spec time m) as [[_ ->] | [_ ->]];
        apply elem_of_cons; [by left | by right].
    + intros t [-> | Ht]%elem_of_cons; [lia |].
      specialize (Hle t Ht). lia.
Qed.

(** C5, as the code has it.  With a limit of at least one request,
    [enforceRateLimit] always returns.  With fewer than the limit recorded for
    the account inside the trailing second it does not sleep; with the limit
    or more it sleeps until 1000 ms after the oldest of them.  It keeps at most
    [maxRequestsPerSecond] records for the account and leaves every other
    account's records alone. *)
Theorem enforceRateLimit_waits_for_oldest (tm : ticket_manager) (accountId : string)
  (now : Z) :
  1 ≤ maxRequestsPerSecond tm →
  let tm' := fst (enforceRateLimit tm accountId now) in
  let slept := snd (enforceRateLimit tm accountId now) in
  (Z.of_nat (length (recent tm accountId now)) < maxRequestsPerSecond tm → slept = None) ∧
  (maxRequestsPerSecond tm ≤ Z.of_nat (length (recent tm accountId now)) →
   ∃ oldest, oldest ∈ recent tm accountId now ∧
             (∀ t, t ∈ recent tm accountId now → oldest ≤ t) ∧
             slept = Some (Fin (1000 - (now - oldest))) ∧
             0 < 1000 - (now - oldest) ∧
             wake now slept = oldest + 1000) ∧
  (∃ times, accountRequestTimes tm' !! accountId = Some times ∧
            Z.of_nat (length times) ≤ maxRequestsPerSecond tm) ∧
  (∀ other, other ≠ accountId →
            accountRequestTimes tm' !! other = accountRequestTimes tm !! other) ∧
  maxRequestsPerSecond tm' = maxRequestsPerSecond tm.
Proof.
  intros Hlimit tm' slept. subst tm' slept.
  unfold enforceRateLimit, recent. simpl.
  set (times := filter _ _).
  split_and!.
  - intros Hfew.
    assert ((maxRequestsPerSecond tm <=? Z.of_nat (length times)) = false) as ->
      by (apply Z.leb_gt; lia).
    done.
  - intros Hmany.
    assert ((maxRequestsPerSecond tm <=? Z.of_nat (length times)) = true) as ->
      by (apply Z.leb_le; lia).
    destruct (math_min_least times) as (oldest & -> & Hin & Hle).
    { intros Hnil. rewrite Hnil in Hmany. simpl in Hmany. lia. }
    exists oldest.
    assert (now - 1000 < oldest) as Hrecent.
    { subst times. by apply list_elem_of_filter in Hin as [? _]. }
    assert ((0 <? 1000 - (now - oldest)) = true) as -> by (apply Z.ltb_lt; lia).
    split_and!; try done; simpl; lia.
  - eexists. split; [by rewrite lookup_insert_eq |].
    unfold slice_from. rewrite length_drop.
    assert ((- maxRequestsPerSecond tm <? 0) = true) as -> by (apply Z.ltb_lt; lia).
    lia.
  - intros other Hother. by rewrite lookup_insert_ne.
  - done.
Qed.

Lemma enforceRateLimit_waits_for_oldest_witness :
  1 ≤ maxRequestsPerSecond two_recorded ∧
  recent two_recorded "acc-1" 2 = [0; 1] ∧
  ∃ oldest, oldest ∈ recent two_recorded "acc-1" 2 ∧
            snd (enforceRateLimit two_recorded "acc-1" 2) = Some (Fin (1000 - (2 - oldest))).
Proof.
  assert (1 ≤ maxRequestsPerSecond two_recorded) as Hlimit by (vm_compute; discriminate).
  split; [exact Hlimit |]. split; [reflexivity |].
  destruct (enforceRateLimit_waits_for_oldest two_recorded "acc-1" 2 Hlimit)
    as (_ & Hmany & _).
  destruct Hmany as (oldest & Hin & _ & Hslept & _); [vm_compute; discriminate |].
  exists oldest. split; [exact Hin | exact Hslept].
Defined.

(** C5 as stated fails.  With the default limit of two, five calls that each
    enter no earlier than the one before returned come back at 0, 1, 1000,
    1001 and 1002 ms.  The fourth and the fifth each found two requests
    recorded inside the trailing second and slept 1 ms: they return 1 ms after
    their predecessor, not 1000 / 2 ms, and three requests go out within 2 ms,
    more than two in one rolling second. *)
Lemma rate_limit_lets_a_burst_through :
  maxRequestsPerSecond tm0 = 2 ∧
  fst (acquisitions tm0 "acc-1" [0; 1; 2; 1000; 1001]) = [0; 1; 1000; 1001; 1002] ∧
  length (recent (snd (acquisitions tm0 "acc-1" [0; 1; 2])) "acc-1" 1000) = 2%nat ∧
  snd (enforceRateLimit (snd (acquisitions tm0 "acc-1" [0; 1; 2])) "acc-1" 1000)
  = Some (Fin 1) ∧
  length (recent (snd (acquisitions tm0 "acc-1" [0; 1; 2; 1000])) "acc-1" 1001) = 2%nat ∧
  snd (enforceRateLimit (snd (acquisitions tm0 "acc-1" [0; 1; 2; 1000])) "acc-1" 1001)
  = Some (Fin 1) ∧
  1001 - 1000 < 1000 / 2 ∧
  1002 - 1001 < 1000 / 2 ∧
  2 < Z.of_nat (length (filter (fun t => 1000 ≤ t < 1000 + 1000)
                          (fst (acquisitions tm0 "acc-1" [0; 1; 2; 1000; 1001])))).
Proof. by vm_compute. Qed.

End RateLimitProps.

(** ** Ticket acquisition *)
Module TicketProps.
Import Js Api TicketManager.
Import RaceProps RateLimitProps.
Import Samples.

#[local] Open Scope Z_scope.
#[local] Arguments enforceRateLimit : simpl never.

Lemma enforceRateLimit_keeps_settings tm accountId now tm1 slept :
  enforceRateLimit tm accountId now = (tm1, slept) →
  timeout tm1 = timeout tm ∧ retryInterval tm1 = retryInterval tm.
Proof. unfold enforceRateLimit. intros [= <- _]. done. Qed.

Section loop.
Variable acct : account.
Variable startTime : Z.

(** Quiet passes are gone through, one request each. *)
Lemma loop_skips_quiet earlier :
  ∀ tm attempts requests sleeps rest,
    Forall (quiet tm startTime) earlier →
    ∃ tm' sleeps',
      getTicketForAccount_loop tm acct startTime attempts requests sleeps (earlier ++ rest)
      = getTicketForAccount_loop tm' acct startTime (attempts + length earlier)
          (requests + length earlier) sleeps' rest ∧
      timeout tm' = timeout tm ∧ accountTickets tm' = accountTickets tm.
Proof.
  induction earlier as [| env earlier IH]; intros tm attempts requests sleeps rest Hquiet.
  - exists tm, sleeps. simpl. by rewrite !Nat.add_0_r.
  - apply Forall_cons in Hquiet as [[Hintime Hnone] Hquiet].
    rewrite <- app_comm_cons. cbn [getTicketForAccount_loop]. cbv zeta.
    assert ((timeout tm <? env_check_now env - startTime) = false) as ->
      by (apply Z.ltb_ge; lia).
    destruct (enforceRateLimit tm (accId acct) (env_rate_now env)) as [tm1 slept] eqn:Hrl.
    destruct (enforceRateLimit_keeps_settings _ _ _ _ _ Hrl) as [Htimeout _].
    assert (accountTickets tm1 = accountTickets tm) as Htickets
      by (unfold enforceRateLimit in Hrl; by injection Hrl as <- _).
    assert (Forall (quiet tm1 startTime) earlier) as Hquiet1.
    { eapply Forall_impl; [exact Hquiet |]. unfold quiet. intros e [? ?].
      by rewrite Htimeout. }
    assert (∀ s : list num,
              ∃ tm' sleeps',
                getTicketForAccount_loop tm1 acct startTime (S attempts) (S requests) s
                  (earlier ++ rest)
                = getTicketForAccount_loop tm' acct startTime
                    (attempts + length (env :: earlier))
                    (requests + length (env :: earlier)) sleeps' rest ∧
                timeout tm' = timeout tm ∧ accountTickets tm' = accountTickets tm) as Hnext.
    { intros s.
      destruct (IH tm1 (S attempts) (S requests) s rest Hquiet1)
        as (tm' & sleeps' & Heq & Ht & Hk).
      exists tm', sleeps'. rewrite Heq. split_and!; [| congruence | congruence].
      cbn [length]. by rewrite !Nat.add_succ_r. }
    destruct (env_reply env) as [[data | message] | error_code error_message];
      simpl in Hnone; [rewrite Hnone |..]; apply Hnext.
Qed.

(** A pass whose timeout check reads a late time ends the call with the
    error, after logging [attempts] and the duration read for the log. *)
Lemma loop_late_pass tm attempts requests sleeps env later :
  timeout tm < env_check_now env - startTime →
  getTicketForAccount_loop tm acct startTime attempts requests sleeps (env :: later)
  = TicketRun (TicketThrown (timeout_error tm)) (S attempts) requests sleeps
      (Some (S attempts, env_expired_now env - startTime)) None tm.
Proof.
  intros Hlate. cbn [getTicketForAccount_loop]. cbv zeta.
  by assert ((timeout tm <? env_check_now env - startTime) = true) as ->
    by (apply Z.ltb_lt; lia).
Qed.

(** A pass inside the timeout whose reply carries a ticket ends the call
    with the ticket. *)
Lemma loop_ticket_pass tm attempts requests sleeps env later ticket :
  env_check_now env - startTime ≤ timeout tm →
  ticket_of (env_reply env) = Some ticket →
  let run := getTicketForAccount_loop tm acct startTime attempts requests sleeps
               (env :: later) in
  run_outcome run
  = TicketReturned ticket (S attempts) (env_returned_now env - startTime) ∧
  run_requests run = S requests ∧
  run_timeout_log run = None ∧
  run_success_log run = Some (S attempts, env_logged_now env - startTime) ∧
  accountTickets (run_manager run)
  = <[accId acct := TicketInfo ticket (env_stored_now env) acct]> (accountTickets tm).
Proof.
  intros Hintime Hticket. cbn [getTicketForAccount_loop]. cbv zeta.
  assert ((timeout tm <? env_check_now env - startTime) = false) as ->
    by (apply Z.ltb_ge; lia).
  destruct (enforceRateLimit tm (accId acct) (env_rate_now env)) as [tm1 slept] eqn:Hrl.
  assert (accountTickets tm1 = accountTickets tm) as Htickets
    by (unfold enforceRateLimit in Hrl; by injection Hrl as <- _).
  destruct (env_reply env) as [[data | message] | error_code error_message];
    simpl in Hticket; try done.
  rewrite Hticket. simpl. by rewrite Htickets.
Qed.

(** A script is quiet throughout, or has a first pass that is not. *)
Lemma first_loud_pass tm script :
  Forall (quiet tm startTime) script ∨
  ∃ earlier env later,
    script = earlier ++ env :: later ∧ Forall (quiet tm startTime) earlier ∧
    (timeout tm < env_check_now env - startTime ∨
     (env_check_now env - startTime ≤ timeout tm ∧
      ∃ ticket, ticket_of (env_reply env) = Some ticket)).
Proof.
  induction script as [| env script IH]; [by left |].
  destruct (Z.lt_ge_cases (timeout tm) (env_check_now env - startTime)) as [Hlate | Hintime].
  { right. exists [], env, script. split_and!; [done | done | by left]. }
  destruct (ticket_of (env_reply env)) as [ticket |] eqn:Hticket.
  { right. exists [], env, script. split_and!; [done | done |].
    right. split; [lia | by exists ticket]. }
  assert (quiet tm startTime env) as Hquiet by (split; [lia | done]).
  destruct IH as [Hall | (earlier & env' & later & -> & Hearlier & Hloud)].
  - left. by constructor.
  - right. exists (env :: earlier), env', later. split_and!; [done | by constructor | done].
Qed.

End loop.

(** C6, as the code has it.  [getTicketForAccount] has no retry ceiling: as
    long as every timeout check reads a time within the timeout and no reply
    carries a ticket it goes on, one request per pass.  It throws exactly at
    the first pass whose timeout check reads a time more than [timeout] ms
    after the start, never before: such a check makes it throw, whatever
    follows, and a throw comes from such a check.  The error is the fixed
    message naming the configured timeout; the attempt count and a duration
    read from the clock go to the log.  If it returns, the attempt count it
    returns is the number of requests it issued. *)
Theorem getTicketForAccount_bounded_by_time_only (tm : ticket_manager) (acct : account)
  (startTime : Z) (script : list attempt_env) :
  let run := getTicketForAccount tm acct startTime script in
  match run_outcome run with
  | TicketThrown error_message =>
      error_message = timeout_error tm ∧
      ∃ earlier env later,
        script = earlier ++ env :: later ∧ Forall (quiet tm startTime) earlier ∧
        timeout tm < env_check_now env - startTime ∧
        run_requests run = length earlier ∧
        run_timeout_log run = Some (S (length earlier), env_expired_now env - startTime)
  | TicketReturned ticket attempts duration =>
      attempts = run_requests run ∧ run_timeout_log run = None ∧
      ∃ earlier env later,
        script = earlier ++ env :: later ∧ Forall (quiet tm startTime) earlier ∧
        env_check_now env - startTime ≤ timeout tm ∧
        ticket_of (env_reply env) = Some ticket ∧
        attempts = S (length earlier) ∧
        duration = env_returned_now env - startTime
  | TicketRunning =>
      run_requests run = length script ∧ run_timeout_log run = None ∧
      Forall (quiet tm startTime) script
  end ∧
  (∀ earlier env later,
     script = earlier ++ env :: later →
     Forall (quiet tm startTime) earlier →
     timeout tm < env_check_now env - startTime →
     run_outcome run = TicketThrown (timeout_error tm) ∧
     run_requests run = length earlier ∧
     run_timeout_log run = Some (S (length earlier), env_expired_now env - startTime)) ∧
  (Forall (quiet tm startTime) script →
   run_outcome run = TicketRunning ∧ run_requests run = length script).
Proof.
  intros run. subst run. unfold getTicketForAccount.
  assert (∀ earlier env later,
            script = earlier ++ env :: later →
            Forall (quiet tm startTime) earlier →
            timeout tm < env_check_now env - startTime →
            run_outcome (getTicketForAccount_loop tm acct startTime 0 0 [] script)
            = TicketThrown (timeout_error tm) ∧
            run_requests (getTicketForAccount_loop tm acct startTime 0 0 [] script)
            = length earlier ∧
            run_timeout_log (getTicketForAccount_loop tm acct startTime 0 0 [] script)
            = Some (S (length earlier), env_expired_now env - startTime)) as Hlate.
  { intros earlier env later -> Hquiet Hcheck.
    destruct (loop_skips_quiet acct startTime earlier tm 0%nat 0%nat [] (env :: later) Hquiet)
      as (tm' & sleeps' & -> & Htimeout & _).
    rewrite loop_late_pass by (rewrite Htimeout; lia).
    unfold timeout_error. rewrite Htimeout. done. }
  assert (Forall (quiet tm startTime) script →
          run_outcome (getTicketForAccount_loop tm acct startTime 0 0 [] script)
          = TicketRunning ∧
          run_requests (getTicketForAccount_loop tm acct startTime 0 0 [] script)
          = length script ∧
          run_timeout_log (getTicketForAccount_loop tm acct startTime 0 0 [] script) = None)
    as Hquiet.
  { intros Hall.
    destruct (loop_skips_quiet acct startTime script tm 0%nat 0%nat [] [] Hall)
      as (tm' & sleeps' & Heq & _).
    rewrite app_nil_r in Heq. rewrite Heq. done. }
  split_and!.
  - destruct (first_loud_pass startTime tm script)
      as [Hall | (earlier & env & later & Hscript & Hearlier & [Hcheck | [Hintime [ticket Hticket]]])].
    + destruct (Hquiet Hall) as (-> & Hrequests & Hlog). done.
    + destruct (Hlate earlier env later Hscript Hearlier Hcheck) as (-> & Hrequests & Hlog).
      split; [done |]. by exists earlier, env, later.
    + destruct (loop_skips_quiet acct startTime earlier tm 0%nat 0%nat [] (env :: later)
                  Hearlier) as (tm' & sleeps' & Heq & Htimeout & _).
      rewrite <- Hscript in Heq. rewrite Heq.
      destruct (loop_ticket_pass acct startTime tm' (0 + length earlier) (0 + length earlier)
                  sleeps' env later ticket) as (-> & -> & -> & _);
        [by rewrite Htimeout | done |].
      split_and!; [done | done |]. by exists earlier, env, later.
  - exact Hlate.
  - intros Hall. by destruct (Hquiet Hall) as (? & ? & _).
Qed.

Example ticket_on_third_request :
  let run := getTicketForAccount tm0 acct1 0 ticket_on_third in
  run_outcome run = TicketReturned "T-0001" 3 1012 ∧
  run_success_log run = Some (3%nat, 1011) ∧
  ti_timestamp <$> getAccountTicket (run_manager run) "acc-1" = Some 1010.
Proof. by vm_compute. Qed.

Lemma getTicketForAccount_bounded_by_time_only_witness :
  run_outcome (getTicketForAccount hasty acct1 0 late_after_one)
  = TicketThrown (timeout_error hasty) ∧
  run_requests (getTicketForAccount hasty acct1 0 late_after_one) = 1%nat ∧
  run_timeout_log (getTicketForAccount hasty acct1 0 late_after_one) = Some (2%nat, 601).
Proof.
  apply (proj1 (proj2 (getTicketForAccount_bounded_by_time_only hasty acct1 0 late_after_one))
           [AttemptEnv 0 0 0 bad_gateway 5 5 5]
           (AttemptEnv 600 601 601 bad_gateway 601 601 601) []).
  - reflexivity.
  - constructor; [| constructor]. split; [vm_compute; discriminate | reflexivity].
  - vm_compute. reflexivity.
Defined.

(** C6 as stated fails on what the error carries and on the count.  Both
    runs throw the same error, whose message names the configured timeout
    only; the attempt count and the elapsed time go to the log.  The logged
    count is one more than the requests issued: 2 after one request, 3 after
    two. *)
Lemma timeout_error_carries_no_count :
  run_outcome (getTicketForAccount hasty acct1 0 late_after_one)
  = TicketThrown "获取ticket超时 (100ms)" ∧
  run_outcome (getTicketForAccount hasty acct1 0 late_after_two)
  = TicketThrown "获取ticket超时 (100ms)" ∧
  run_timeout_log (getTicketForAccount hasty acct1 0 late_after_one) = Some (2%nat, 601) ∧
  run_requests (getTicketForAccount hasty acct1 0 late_after_one) = 1%nat ∧
  run_timeout_log (getTicketForAccount hasty acct1 0 late_after_two) = Some (3%nat, 1202) ∧
  run_requests (getTicketForAccount hasty acct1 0 late_after_two) = 2%nat.
Proof. by vm_compute. Qed.

End TicketProps.

(** ** The proxy pool *)
Module ProxyProps.
Import ProxyPool.
Import Samples.

#[local] Open Scope Z_scope.

Lemma scan_in_range now entries remaining :
  ∀ index, (index < length entries)%nat →
    (∃ r entries' next, scan now entries index remaining = Ok (inl (r, entries', next))) ∨
    (∃ next, scan now entries index remaining = Ok (inr next)).
Proof.
  induction remaining as [| remaining IH]; intros index Hindex; simpl.
  - right. eauto.
  - destruct (lookup_lt_is_Some_2 entries index Hindex) as [p ->].
    destruct (usable p).
    + left. eauto.
    + apply IH. apply Nat.mod_upper_bound. lia.
Qed.

Lemma getNextProxy_gives_route pl now :
  proxies pl ≠ [] → (currentIndex pl < length (proxies pl))%nat →
  ∃ r pl', getNextProxy pl now = Ok (r, pl') ∧
           refreshCalls pl'
           = (if expired pl now then S (refreshCalls pl) else refreshCalls pl).
Proof.
  intros Hne Hindex. unfold getNextProxy.
  destruct (proxies pl) as [| p0 entries] eqn:Hentries; [done |].
  change (length (p0 :: entries) =? 0)%nat with false. cbv iota.
  destruct (scan_in_range now (p0 :: entries) (length (p0 :: entries)) (currentIndex pl) Hindex)
    as [(r & entries' & next & ->) | (next & ->)]; simpl.
  - eauto.
  - eauto.
Qed.

Lemma available_lookup entries i :
  i ∈ available entries → ∃ p, entries !! i = Some p ∧ usable p = true.
Proof.
  unfold available. intros [Husable _]%list_elem_of_filter.
  destruct (entries !! i) as [p |]; simpl in Husable; [eauto | done].
Qed.

Lemma pick_gives_route pl rand_num rand_den now :
  available (proxies pl) ≠ [] → (rand_num < rand_den)%nat →
  ∃ r pl', pick pl rand_num rand_den now = Ok (r, pl').
Proof.
  intros Hsome Hrand. unfold pick.
  set (candidates := available (proxies pl)) in *.
  assert ((rand_num * length candidates / rand_den < length candidates)%nat) as Hlt.
  { apply Nat.Div0.div_lt_upper_bound.
    assert (0 < length candidates)%nat by (destruct candidates; [done | simpl; lia]).
    nia. }
  destruct (lookup_lt_is_Some_2 candidates _ Hlt) as [i Hi]. rewrite Hi.
  destruct (available_lookup (proxies pl) i) as (p & -> & _);
    [by eapply list_elem_of_lookup_2 | eauto].
Qed.

Lemma available_after_reset pl :
  proxies pl ≠ [] → Forall (fun p => 0 < maxFails p) (proxies pl) →
  available (proxies (resetFailCounts pl)) ≠ [].
Proof.
  intros Hne Hpositive. simpl.
  destruct (proxies pl) as [| p0 entries]; [done |].
  apply Forall_cons in Hpositive as [Hp0 _].
  intros Hnone.
  assert (0%nat ∈ available (forgiven <$> p0 :: entries)) as Hin.
  { unfold available. apply list_elem_of_filter. split.
    - simpl. unfold usable. simpl. by apply Z.ltb_lt.
    - apply elem_of_seq. simpl. lia. }
  rewrite Hnone in Hin. by apply elem_of_nil in Hin.
Qed.

Lemma getRandomProxy_gives_route pl rand_num rand_den now :
  proxies pl ≠ [] → Forall (fun p => 0 < maxFails p) (proxies pl) →
  (rand_num < rand_den)%nat →
  ∃ r pl', getRandomProxy pl rand_num rand_den now = Ok (r, pl').
Proof.
  intros Hne Hpositive Hrand. unfold getRandomProxy.
  destruct (length (proxies pl) =? 0)%nat eqn:Hlen.
  { apply Nat.eqb_eq, nil_length_inv in Hlen. done. }
  destruct (length (available (proxies pl)) =? 0)%nat eqn:Hnone.
  - pose proof (available_after_reset pl Hne Hpositive) as Hreset.
    destruct (length (available (proxies (resetFailCounts pl))) =? 0)%nat eqn:Hstill.
    { apply Nat.eqb_eq, nil_length_inv in Hstill. done. }
    by apply pick_gives_route.
  - apply pick_gives_route; [| done].
    intros Hnil. rewrite Hnil in Hnone. done.
Qed.

Lemma getRandomProxy_ignores_deadline pl deadline rand_num rand_den now :
  route_given (getRandomProxy (with_deadline deadline pl) rand_num rand_den now)
  = route_given (getRandomProxy pl rand_num rand_den now).
Proof.
  unfold getRandomProxy, pick, with_deadline, resetFailCounts; simpl.
  by repeat case_match.
Qed.

(** C3, as the code has it.  The deadline does not make route selection
    fail.  For every pool with at least one entry and every time, also every
    time after the deadline, [getNextProxy] gives a route; after the deadline
    it also asks for a refresh, which runs in the background.
    [getRandomProxy] never reads the deadline: it gives the same route whatever
    the deadline is, and it gives one whenever the entries allow at least one
    failure.  Selection throws only on an empty pool. *)
Theorem selection_survives_expiry (pl : pool) (now : Z) (rand_num rand_den : nat)
  (deadline : option Z) :
  proxies pl ≠ [] →
  (currentIndex pl < length (proxies pl))%nat →
  Forall (fun p => 0 < maxFails p) (proxies pl) →
  (rand_num < rand_den)%nat →
  (∃ r pl', getNextProxy pl now = Ok (r, pl') ∧
            refreshCalls pl'
            = (if expired pl now then S (refreshCalls pl) else refreshCalls pl)) ∧
  (∃ r pl', getRandomProxy pl rand_num rand_den now = Ok (r, pl')) ∧
  route_given (getRandomProxy (with_deadline deadline pl) rand_num rand_den now)
  = route_given (getRandomProxy pl rand_num rand_den now) ∧
  getNextProxy (Pool [] (currentIndex pl) (expireTime pl) (refreshCalls pl)) now
  = Throw "代理池为空" ∧
  getRandomProxy (Pool [] (currentIndex pl) (expireTime pl) (refreshCalls pl))
    rand_num rand_den now
  = Throw "代理池为空".
Proof.
  intros Hne Hindex Hpositive Hrand. split_and!.
  - by apply getNextProxy_gives_route.
  - by apply getRandomProxy_gives_route.
  - apply getRandomProxy_ignores_deadline.
  - done.
  - done.
Qed.

(** C3 as stated fails: one second after the deadline both selections hand
    out a route of the lapsed pool; [getNextProxy] only notes a refresh. *)
Lemma selection_after_deadline :
  expired lapsed 2000 = true ∧
  getNextProxy lapsed 2000
  = Ok (Route "10.0.0.1" 8080 "http",
        Pool [touch 2000 (fresh_proxy "10.0.0.1" 8080); fresh_proxy "10.0.0.2" 8080]
          1 (Some 1000) 1) ∧
  route_given (getRandomProxy lapsed 1 2 2000) = Some (Route "10.0.0.2" 8080 "http").
Proof. by vm_compute. Qed.

Lemma selection_survives_expiry_witness :
  expired lapsed 2000 = true ∧
  ∃ r pl', getNextProxy lapsed 2000 = Ok (r, pl') ∧ refreshCalls pl' = 1%nat.
Proof.
  split; [reflexivity |].
  assert (proxies lapsed ≠ []) as Hne by discriminate.
  assert (currentIndex lapsed < length (proxies lapsed))%nat as Hindex by (simpl; lia).
  assert (Forall (fun p => 0 < maxFails p) (proxies lapsed)) as Hpositive
    by (repeat constructor).
  assert (1 < 2)%nat as Hrand by lia.
  exact (proj1 (selection_survives_expiry lapsed 2000 1 2 None Hne Hindex Hpositive Hrand)).
Defined.

End ProxyProps.

(** ** More of the submitter: batches, tasks and rounds *)
Module SubmitterMore.
Import Js Api Submitter.
Import Samples.

Lemma chunk_from_partitions {A : Type} (array : list A) (chunkSize : nat) :
  (1 ≤ chunkSize)%nat →
  ∀ fuel i, (length array - i ≤ fuel)%nat →
    ∃ chunks, chunk_from fuel array chunkSize i = Some chunks ∧
              concat chunks = drop i array ∧
              Forall (fun chunk => (1 ≤ length chunk ≤ chunkSize)%nat) chunks ∧
              length chunks = ((length array - i + chunkSize - 1) / chunkSize)%nat.
Proof.
  intros Hsize. induction fuel as [| fuel IH]; intros i Hfuel.
  - simpl. destruct (Nat.ltb_spec i (length array)); [lia |].
    exists []. split_and!; [done | by rewrite drop_ge | done |].
    simpl. symmetry. apply Nat.div_small. lia.
  - simpl. destruct (Nat.ltb_spec i (length array)) as [Hin | Hout].
    + destruct (IH (i + chunkSize)%nat) as (rest & -> & Hcat & Hall & Hlen); [lia |].
      exists (take chunkSize (drop i array) :: rest). split_and!.
      * done.
      * simpl. rewrite Hcat, <- drop_drop. apply take_drop.
      * constructor; [| done]. rewrite length_take, length_drop. lia.
      * simpl. rewrite Hlen.
        destruct (Nat.le_gt_cases chunkSize (length array - i)) as [Hfull | Hshort].
        -- replace (length array - i + chunkSize - 1)%nat
             with (length array - (i + chunkSize) + chunkSize - 1 + 1 * chunkSize)%nat by lia.
           rewrite Nat.div_add by lia. lia.
        -- replace (length array - (i + chunkSize) + chunkSize - 1)%nat
             with (chunkSize - 1)%nat by lia.
           rewrite (Nat.div_small (chunkSize - 1)) by lia.
           apply (Nat.div_unique _ _ 1%nat (length array - i - 1)%nat); lia.
    + exists []. split_and!; [done | by rewrite drop_ge | done |].
      simpl. symmetry. apply Nat.div_small. lia.
Qed.

Lemma chunk_from_zero_never_ends {A : Type} (array : list A) (fuel : nat) :
  array ≠ [] → chunk_from fuel array 0 0 = None.
Proof.
  intros Hne. induction fuel as [| fuel IH]; simpl.
  - destruct array; [done | reflexivity].
  - destruct array as [| x array]; [done |]. simpl in *. by rewrite IH.
Qed.

(** X1. With a chunk size of at least one, [chunkArray] ends and cuts the
    array into consecutive pieces: joined again they give the array, none is
    empty or longer than the chunk size, and there are
    ceil(length / chunkSize) of them.  With a chunk size of zero the loop over
    a non-empty array never ends, however many passes it is given. *)
Theorem chunkArray_partitions {A : Type} (array : list A) (chunkSize : nat) :
  ((1 ≤ chunkSize)%nat →
   ∃ chunks, chunkArray array chunkSize = Some chunks ∧
             concat chunks = array ∧
             Forall (fun chunk => (1 ≤ length chunk ≤ chunkSize)%nat) chunks ∧
             length chunks = ((length array + chunkSize - 1) / chunkSize)%nat) ∧
  (array ≠ [] → ∀ fuel, chunk_from fuel array 0 0 = None).
Proof.
  split.
  - intros Hsize. unfold chunkArray.
    destruct (chunk_from_partitions array chunkSize Hsize (length array) 0%nat)
      as (chunks & Hrun & Hcat & Hall & Hlen); [lia |].
    exists chunks. rewrite Nat.sub_0_r in Hlen. by rewrite drop_0 in Hcat.
  - intros Hne fuel. by apply chunk_from_zero_never_ends.
Qed.

Lemma chunkArray_partitions_witness :
  ∃ chunks, chunkArray [1; 2; 3; 4; 5; 6; 7]%nat 3 = Some chunks ∧
            concat chunks = [1; 2; 3; 4; 5; 6; 7]%nat ∧ length chunks = 3%nat.
Proof.
  destruct (proj1 (chunkArray_partitions [1; 2; 3; 4; 5; 6; 7]%nat 3))
    as (chunks & Hrun & Hcat & _ & Hlen); [lia |].
  exists chunks. split; [exact Hrun |]. split; [exact Hcat | exact Hlen].
Defined.

Example chunkArray_seven_by_three :
  chunkArray [1; 2; 3; 4; 5; 6; 7]%nat 3 = Some [[1; 2; 3]; [4; 5; 6]; [7]]%nat.
Proof. reflexivity. Qed.

(** *** Tasks *)

Lemma generateSubmitTasks_length acct ticket :
  length (generateSubmitTasks acct ticket)
  = (length (default [] (tourismSubsidyIds acct))
     + (if truthy (foodSubsidyId acct) then 1 else 0))%nat.
Proof.
  unfold generateSubmitTasks. destruct (truthy (foodSubsidyId acct)).
  - rewrite length_app, length_map. simpl. lia.
  - rewrite length_map. lia.
Qed.

Lemma generateSubmitTasks_carry acct ticket :
  Forall (fun task => task_ticket task = ticket ∧ task_account task = acct)
    (generateSubmitTasks acct ticket).
Proof.
  unfold generateSubmitTasks.
  assert (Forall (fun task => task_ticket task = ticket ∧ task_account task = acct)
            (map (fun '(quota, subsidyId) =>
                    SubmitTask "tourism" (Some quota) subsidyId acct ticket
                      ("消费" +:+ quota +:+ "档"))
               (default [] (tourismSubsidyIds acct)))) as Htourism.
  { induction (default [] (tourismSubsidyIds acct)) as [| [quota subsidyId] entries IH];
      simpl; constructor; done. }
  destruct (truthy (foodSubsidyId acct)); [| done].
  apply Forall_app. split; [done |]. by repeat constructor.
Qed.

(** *** Rounds *)

Lemma dispatch_all_sends tasks :
  ∀ r, completed r = false → isRunning (this r) = true →
    foldl dispatchTask r tasks
    = Race (completed r) (roundCounter r) (this r) (resolved r) (dispatched r ++ tasks)
        (roundTimers r).
Proof.
  induction tasks as [| task tasks IH]; intros r Hc Hr; simpl.
  - destruct r. simpl. by rewrite app_nil_r.
  - unfold dispatchTask at 2. rewrite Hc, Hr. simpl.
    rewrite IH by done. simpl. by rewrite <- app_assoc.
Qed.

Lemma rounds_commute {A : Type} (n : nat) (l : list A) :
  concat (replicate n l) ++ l = concat (replicate (S n) l).
Proof.
  induction n as [| n IH]; simpl.
  - by rewrite app_nil_r.
  - simpl in IH. by rewrite <- app_assoc, IH.
Qed.

Lemma startSubmissionRound_paced submitTasks r :
  dispatched r = concat (replicate (roundCounter r) submitTasks) →
  roundTimers r = roundCounter r →
  let r' := startSubmissionRound submitTasks r in
  dispatched r' = concat (replicate (roundCounter r') submitTasks) ∧
  roundTimers r' = roundCounter r' ∧
  (roundCounter r ≤ roundCounter r')%nat ∧
  (completed r = false → isRunning (this r) = true → roundCounter r' = S (roundCounter r)).
Proof.
  intros Hd Ht. unfold startSubmissionRound.
  destruct (completed r) eqn:Hc; simpl; [split_and!; done || lia |].
  destruct (isRunning (this r)) eqn:Hr; simpl; [| split_and!; done || lia].
  rewrite dispatch_all_sends by done. simpl. rewrite Hr. simpl.
  rewrite Hd, Ht. split_and!; try done; try lia. apply rounds_commute.
Qed.

Lemma run_paced acct submitTasks events :
  ∀ r0 : race,
    dispatched r0 = concat (replicate (roundCounter r0) submitTasks) →
    roundTimers r0 = roundCounter r0 →
    let r := foldl (step acct submitTasks) r0 events in
    dispatched r = concat (replicate (roundCounter r) submitTasks) ∧
    roundTimers r = roundCounter r ∧ (roundCounter r0 ≤ roundCounter r)%nat.
Proof.
  induction events as [| e events IH]; intros r0 Hd Ht; simpl; [done |].
  assert (dispatched (step acct submitTasks r0 e)
          = concat (replicate (roundCounter (step acct submitTasks r0 e)) submitTasks) ∧
          roundTimers (step acct submitTasks r0 e) = roundCounter (step acct submitTasks r0 e) ∧
          (roundCounter r0 ≤ roundCounter (step acct submitTasks r0 e))%nat)
    as (Hd' & Ht' & Hle).
  { destruct (RaceProps.step_traffic acct submitTasks r0 e)
      as [(Hn & Hs & Hm) | (-> & _)].
    - rewrite Hn, Hs, Hm. split_and!; [done | done | lia].
    - simpl. destruct (startSubmissionRound_paced submitTasks r0 Hd Ht) as (? & ? & ? & _).
      done. }
  destruct (IH _ Hd' Ht') as (? & ? & ?). split_and!; [done | done | lia].
Qed.

Lemma race_paced s acct submitTasks events :
  let r := executeHighConcurrencySubmission s acct submitTasks events in
  dispatched r = concat (replicate (roundCounter r) submitTasks) ∧
  roundTimers r = roundCounter r ∧
  (roundCounter (race_start s submitTasks) ≤ roundCounter r)%nat.
Proof.
  unfold executeHighConcurrencySubmission.
  destruct (startSubmissionRound_paced submitTasks (Race false 0 s [] [] 0) eq_refl eq_refl)
    as (Hd0 & Ht0 & _).
  exact (run_paced acct submitTasks events (race_start s submitTasks) Hd0 Ht0).
Qed.

(** X3. In every run of the race each round that starts sends exactly one
    attempt per task and sets exactly one timer for the next round: the
    attempts sent are the task list repeated once per round counted.  With a
    running submitter the first round has started before any event. *)
Theorem every_round_sends_each_task_once (s : submitter) (acct : account)
  (submitTasks : list submit_task) (events : list event) :
  let r := executeHighConcurrencySubmission s acct submitTasks events in
  dispatched r = concat (replicate (roundCounter r) submitTasks) ∧
  roundTimers r = roundCounter r ∧
  (if isRunning s then 1 ≤ roundCounter r else True)%nat.
Proof.
  destruct (race_paced s acct submitTasks events) as (Hd & Ht & Hle).
  cbv zeta. split_and!; [done | done |].
  destruct (isRunning s) eqn:Hr; [| done].
  destruct (startSubmissionRound_paced submitTasks (Race false 0 s [] [] 0) eq_refl eq_refl)
    as (_ & _ & _ & Hfirst).
  unfold race_start in *. cbv zeta in Hfirst. rewrite Hfirst in Hle by done.
  simpl in Hle. lia.
Qed.

(** X2. An account with no tourism entry and no food id yields no task, and
    [submitForAccount], unless the account is marked completed, then settles
    with [{success: false, error: '无可提交的档位', needRetry: false}] without
    launching a race.  Otherwise there is one task per tourism entry plus one
    for the food id, each carrying the account and the ticket, and for an
    account not marked completed a race is launched that sends only these
    tasks, round after round. *)
Theorem submitForAccount_task_list (s : submitter) (acct : account) (ticket : string)
  (events : list event) :
  accountStatuses s !! accId acct = None →
  let submitTasks := generateSubmitTasks acct ticket in
  length submitTasks
  = (length (default [] (tourismSubsidyIds acct))
     + (if truthy (foodSubsidyId acct) then 1 else 0))%nat ∧
  Forall (fun task => task_ticket task = ticket ∧ task_account task = acct) submitTasks ∧
  match submitTasks with
  | [] =>
      submitForAccount s acct ticket events
      = Submission
          (Some (AccountResult false None (Some false) None (Some "无可提交的档位") acct None))
          None s
  | _ :: _ =>
      ∃ r, sub_race (submitForAccount s acct ticket events) = Some r ∧
           dispatched r = concat (replicate (roundCounter r) submitTasks)
  end.
Proof.
  intros Hfresh submitTasks. split_and!.
  - apply generateSubmitTasks_length.
  - apply generateSubmitTasks_carry.
  - unfold submitForAccount, isAccountCompleted.
    rewrite bool_decide_eq_false_2 by (rewrite Hfresh; by intros [? ?]).
    fold submitTasks. destruct submitTasks as [| task tasks] eqn:Htasks; [done |].
    simpl. eexists. split; [reflexivity |].
    apply (race_paced s acct (task :: tasks) events).
Qed.

Lemma submitForAccount_task_list_witness :
  length (generateSubmitTasks acct1 "ticket-1") = 3%nat ∧
  ∃ r, sub_race (submitForAccount fresh acct1 "ticket-1" [RoundTimer; RoundTimer]) = Some r ∧
       dispatched r = concat (replicate (roundCounter r) (generateSubmitTasks acct1 "ticket-1")).
Proof.
  destruct (submitForAccount_task_list fresh acct1 "ticket-1" [RoundTimer; RoundTimer] eq_refl)
    as (Hlen & _ & Hrace).
  split; [exact Hlen | exact Hrace].
Defined.

(** *** Where the value of a race comes from *)

Lemma step_source acct submitTasks r e :
  completed r = false → resolved r = [] →
  resolved (step acct submitTasks r e) = [] ∨
  (∃ result, e = TaskSettled result ∧ winning result = true ∧
             resolved (step acct submitTasks r e) = [won acct result]) ∨
  (∃ result, e = TaskSettled result ∧ winning result = false ∧
             sr_needNewTicket (tr_result result) = Some true ∧
             resolved (step acct submitTasks r e) = [needs_ticket acct]) ∨
  (e = SubmitTimeout ∧ resolved (step acct submitTasks r e) = [timed_out acct]).
Proof.
  intros Hc Hr. destruct e as [result | msg | | | |]; simpl.
  - unfold onTaskResult, handleSuccess, handleTicketExpired. rewrite Hc.
    fold (winning result). destruct (winning result) eqn:Hwin.
    + right. left. exists result. by rewrite Hr.
    + destruct (sr_needNewTicket (tr_result result)) as [[] |] eqn:Hneed; simpl.
      * right. right. left. exists result. by rewrite Hr.
      * by left.
      * by left.
  - by left.
  - left. by destruct (RaceProps.startSubmissionRound_verdict submitTasks r) as ([_ ->] & _).
  - right. right. right. unfold onSubmitTimeout. by rewrite Hc, Hr.
  - by left.
  - by left.
Qed.

(** X4. Whatever a race has resolved with has a cause among the events:
    the success value carries the result of an attempt that settled as
    [submitted] or [duplicate]; the needs-new-ticket value follows an attempt
    whose result asked for a new ticket; the timeout value follows the time
    guard.  A race never reports success on its own. *)
Theorem race_value_has_a_cause (s : submitter) (acct : account)
  (submitTasks : list submit_task) (events : list event) :
  let r := executeHighConcurrencySubmission s acct submitTasks events in
  resolved r = [] ∨
  (∃ result, TaskSettled result ∈ events ∧ winning result = true ∧
             resolved r = [won acct result]) ∨
  (∃ result, TaskSettled result ∈ events ∧ winning result = false ∧
             sr_needNewTicket (tr_result result) = Some true ∧
             resolved r = [needs_ticket acct]) ∨
  (SubmitTimeout ∈ events ∧ resolved r = [timed_out acct]).
Proof.
  unfold executeHighConcurrencySubmission.
  induction events as [| e events IH] using rev_ind; simpl.
  - left. unfold race_start.
    by destruct (RaceProps.startSubmissionRound_verdict submitTasks
                   (Race false 0 s [] [] 0)) as ([_ ->] & _).
  - rewrite foldl_app. simpl.
    set (r := foldl (step acct submitTasks) (race_start s submitTasks) events) in *.
    pose proof (RaceProps.run_settled_once acct submitTasks _ events
                  (RaceProps.race_start_settled_once submitTasks s)) as Hinv.
    fold r in Hinv. unfold settled_once in Hinv.
    destruct (completed r) eqn:Hc.
    + destruct (RaceProps.step_after_completed acct submitTasks r e Hc) as ([_ ->] & _).
      destruct Hinv as [o Ho].
      destruct IH as [Hnone | [(result & Hin & Hwin & Hres) | [(result & Hin & Hwin & Hneed & Hres)
                                                               | [Hin Hres]]]].
      * congruence.
      * right. left. exists result. split_and!; [apply elem_of_app; by left | done | done].
      * right. right. left. exists result.
        split_and!; [apply elem_of_app; by left | done | done | done].
      * right. right. right. split; [apply elem_of_app; by left | done].
    + destruct (step_source acct submitTasks r e Hc Hinv)
        as [Hnone | [(result & -> & Hwin & Hres) | [(result & -> & Hwin & Hneed & Hres)
                                                    | [-> Hres]]]].
      * by left.
      * right. left. exists result. split_and!; [apply elem_of_app; right; apply elem_of_cons; by left | done | done].
      * right. right. left. exists result. split_and!; [apply elem_of_app; right; apply elem_of_cons; by left | done | done | done].
      * right. right. right. split; [apply elem_of_app; right; apply elem_of_cons; by left | done].
Qed.

(** X7. The high-concurrency [submitForAccount] never marks an account
    completed and never records it as successful or duplicate: after the call
    and any events, an account that was not marked before is still not
    marked, so a later call for the same account runs a race again. *)
Theorem submitForAccount_never_marks (s : submitter) (acct : account) (ticket : string)
  (events : list event) (accountId : string) :
  let s' := sub_submitter (submitForAccount s acct ticket events) in
  (accountStatuses s' = accountStatuses s ∨ accountStatuses s' = ∅) ∧
  (successfulAccounts s' = successfulAccounts s ∨ successfulAccounts s' = ∅) ∧
  (duplicateSubmissions s' = duplicateSubmissions s ∨ duplicateSubmissions s' = ∅) ∧
  (if isAccountCompleted s accountId then True
   else isAccountCompleted s' accountId = false).
Proof.
  assert (∀ r0 : race,
            let r := foldl (step acct (generateSubmitTasks acct ticket)) r0 events in
            (accountStatuses (this r) = accountStatuses (this r0) ∨
             accountStatuses (this r) = ∅) ∧
            (successfulAccounts (this r) = successfulAccounts (this r0) ∨
             successfulAccounts (this r) = ∅) ∧
            (duplicateSubmissions (this r) = duplicateSubmissions (this r0) ∨
             duplicateSubmissions (this r) = ∅)) as Hrun.
  { induction events as [| e events IH]; intros r0; simpl; [by repeat split; left |].
    destruct (IH (step acct (generateSubmitTasks acct ticket) r0 e)) as (Ha & Hs & Hd).
    assert (this (step acct (generateSubmitTasks acct ticket) r0 e) = this r0 ∨
            this (step acct (generateSubmitTasks acct ticket) r0 e) = stop (this r0) ∨
            this (step acct (generateSubmitTasks acct ticket) r0 e) = reset (this r0))
      as [Ht | [Ht | Ht]].
    { destruct e; simpl; try (by left); try (by right; left); try (by right; right).
      - left. unfold onTaskResult, handleSuccess, handleTicketExpired. by repeat case_match.
      - left. by destruct (RaceProps.startSubmissionRound_verdict
                             (generateSubmitTasks acct ticket) r0) as (_ & ->).
      - left. unfold onSubmitTimeout. by case_match. }
    - by rewrite Ht in Ha, Hs, Hd.
    - by rewrite Ht in Ha, Hs, Hd.
    - rewrite Ht in Ha, Hs, Hd. simpl in Ha, Hs, Hd.
      split_and!; right; [by destruct Ha | by destruct Hs | by destruct Hd]. }
  assert (let s' := sub_submitter (submitForAccount s acct ticket events) in
          (accountStatuses s' = accountStatuses s ∨ accountStatuses s' = ∅) ∧
          (successfulAccounts s' = successfulAccounts s ∨ successfulAccounts s' = ∅) ∧
          (duplicateSubmissions s' = duplicateSubmissions s ∨ duplicateSubmissions s' = ∅))
    as (Ha & Hs & Hd).
  { unfold submitForAccount. repeat case_match; simpl; try (by repeat split; left).
    unfold executeHighConcurrencySubmission.
    destruct (Hrun (race_start s (generateSubmitTasks acct ticket))) as (Ha & Hs & Hd).
    unfold race_start in *.
    destruct (RaceProps.startSubmissionRound_verdict (generateSubmitTasks acct ticket)
                (Race false 0 s [] [] 0)) as (_ & Hthis).
    rewrite Hthis in Ha, Hs, Hd. done. }
  intros s'. split_and!; [done | done | done |].
  unfold isAccountCompleted. destruct (bool_decide (is_Some (accountStatuses s !! accountId)))
    eqn:Hbefore; [done |].
  apply bool_decide_eq_false in Hbefore. apply bool_decide_eq_false.
  subst s'. destruct Ha as [-> | ->]; [done |]. rewrite lookup_empty. by intros [? ?].
Qed.

(** *** The results of a synchronous round *)

Lemma tally_flags results :
  ∀ t, let t' := foldl tally_result t results in
       hasSuccess t' = hasSuccess t || existsb (settled_as "submitted") results ∧
       hasDuplicate t' = hasDuplicate t || existsb (settled_as "duplicate") results.
Proof.
  induction results as [| [task result] results IH]; intros t.
  - simpl. by rewrite !orb_false_r.
  - specialize (IH (tally_result t (task, result))). cbv zeta in IH.
    destruct IH as [Hs Hd]. cbv zeta.
    change (foldl tally_result t ((task, result) :: results))
      with (foldl tally_result (tally_result t (task, result)) results).
    rewrite Hs, Hd. cbn [existsb].
    set (later_submitted := existsb (settled_as "submitted") results).
    set (later_duplicate := existsb (settled_as "duplicate") results).
    unfold tally_result, settled_as; simpl.
    destruct result as [value | reason]; simpl; [| done].
    destruct (sr_success (tr_result value)); simpl; [| done].
    destruct (String.eqb_spec (sr_status (tr_result value)) "submitted") as [-> | Hns]; simpl.
    + by rewrite !orb_true_r.
    + destruct (String.eqb (sr_status (tr_result value)) "duplicate"); simpl;
        by rewrite ?orb_true_r.
Qed.

Lemma processSubmitResults_marks s acct now results :
  isAccountCompleted (snd (processSubmitResults s acct now results)) (accId acct)
  = br_success (fst (processSubmitResults s acct now results))
    || isAccountCompleted s (accId acct).
Proof.
  unfold processSubmitResults; simpl.
  destruct (tally_flags results (Tally false false false true [])) as [Hs Hd].
  simpl in Hs, Hd. rewrite Hs, Hd.
  unfold isAccountCompleted, markAccountCompleted.
  destruct (existsb (settled_as "submitted") results),
    (existsb (settled_as "duplicate") results); simpl; try done;
    rewrite lookup_insert_eq; by rewrite bool_decide_eq_true_2.
Qed.

(** X5. [processSubmitResults] reports success, and completion, exactly
    when some attempt was fulfilled with a successful [submitted] or
    [duplicate] result, and then never asks for a retry.  Exactly then it marks
    the account in [accountStatuses]; the marks of other accounts stay as they
    are, and the account enters [successfulAccounts] only through a
    [submitted] result and [duplicateSubmissions] only through a [duplicate]
    one. *)
Theorem processSubmitResults_marks_winners (s : submitter) (acct : account) (now : Z)
  (results : list (submit_task * task_settled)) (other : string) :
  let result := fst (processSubmitResults s acct now results) in
  let s' := snd (processSubmitResults s acct now results) in
  let submitted := existsb (settled_as "submitted") results in
  let duplicated := existsb (settled_as "duplicate") results in
  br_success result = submitted || duplicated ∧
  br_completed result = br_success result ∧
  br_needRetry result && br_success result = false ∧
  isAccountCompleted s' (accId acct)
  = br_success result || isAccountCompleted s (accId acct) ∧
  (if bool_decide (other = accId acct) then True
   else accountStatuses s' !! other = accountStatuses s !! other) ∧
  (accId acct ∈ successfulAccounts s' ↔
   submitted = true ∨ accId acct ∈ successfulAccounts s) ∧
  (accId acct ∈ duplicateSubmissions s' ↔
   duplicated = true ∨ accId acct ∈ duplicateSubmissions s).
Proof.
  unfold processSubmitResults; simpl.
  destruct (tally_flags results (Tally false false false true [])) as [Hs Hd].
  simpl in Hs, Hd. rewrite Hs, Hd.
  set (submitted := existsb (settled_as "submitted") results).
  set (duplicated := existsb (settled_as "duplicate") results).
  split_and!.
  - done.
  - done.
  - destruct submitted, duplicated; simpl; by rewrite ?andb_false_r.
  - unfold isAccountCompleted, markAccountCompleted.
    destruct submitted, duplicated; simpl; try done;
      rewrite lookup_insert_eq; by rewrite bool_decide_eq_true_2.
  - case_bool_decide as Hother; [done |].
    unfold markAccountCompleted.
    destruct submitted, duplicated; simpl; try done; by rewrite lookup_insert_ne.
  - unfold markAccountCompleted.
    destruct submitted, duplicated; simpl;
      rewrite ?elem_of_union, ?elem_of_singleton; intuition congruence.
  - unfold markAccountCompleted.
    destruct submitted, duplicated; simpl;
      rewrite ?elem_of_union, ?elem_of_singleton; intuition congruence.
Qed.

Lemma batch_marks_on_success s acct ticket now settle :
  bs_success (submitForAccount_batch s acct ticket now settle) = true →
  isAccountCompleted (bs_submitter (submitForAccount_batch s acct ticket now settle))
    (accId acct) = true.
Proof.
  unfold submitForAccount_batch.
  destruct (isAccountCompleted s (accId acct)) eqn:Hdone; [done |].
  destruct (length (generateSubmitTasks acct ticket) =? 0)%nat; [done |].
  set (results := _ <$> generateSubmitTasks acct ticket).
  pose proof (processSubmitResults_marks s acct now results) as Hmark.
  destruct (processSubmitResults s acct now results) as [result s'] eqn:Hp.
  simpl in *. intros Hsuccess. by rewrite Hmark, Hsuccess.
Qed.

(** X6. Once the earlier revision of [submitForAccount] has returned success
    for an account, every later call for that account, with whatever ticket,
    returns [{success: true, completed: true}] at once: it makes no attempt
    and leaves the submitter as it is. *)
Theorem batch_submission_is_final (s : submitter) (acct : account) (ticket ticket' : string)
  (now now' : Z) (settle settle' : submit_task → task_settled) :
  bs_success (submitForAccount_batch s acct ticket now settle) = true →
  let s' := bs_submitter (submitForAccount_batch s acct ticket now settle) in
  submitForAccount_batch s' acct ticket' now' settle'
  = BatchSubmission true (Some true) None [] s'.
Proof.
  intros Hsuccess s'.
  pose proof (batch_marks_on_success s acct ticket now settle Hsuccess) as Hmarked.
  fold s' in Hmarked. unfold submitForAccount_batch at 1. by rewrite Hmarked.
Qed.

Lemma batch_submission_is_final_witness :
  let settle := fun task => TaskFulfilled (TaskResult (tr_result submitted1) task) in
  let settle' := fun _ => TaskFailed "ECONNRESET" in
  let s' := bs_submitter (submitForAccount_batch fresh acct1 "ticket-1" 0 settle) in
  bs_attempts (submitForAccount_batch fresh acct1 "ticket-1" 0 settle) = tasks1 ∧
  submitForAccount_batch s' acct1 "ticket-2" 5 settle'
  = BatchSubmission true (Some true) None [] s'.
Proof.
  intros settle settle' s'. split; [reflexivity |].
  exact (batch_submission_is_final fresh acct1 "ticket-1" "ticket-2" 0 5 settle settle'
           eq_refl).
Defined.

(** *** Statistics *)

Lemma count_submit_sums results :
  ∀ stats,
    let stats' := foldl count_submit stats results in
    (ss_completed stats' + ss_needRetry stats' + ss_failed stats'
     = ss_completed stats + ss_needRetry stats + ss_failed stats + length results)%nat ∧
    (ss_successful stats' - ss_successful stats ≤ ss_completed stats' - ss_completed stats)%nat ∧
    (ss_duplicate stats' - ss_duplicate stats ≤ ss_completed stats' - ss_completed stats)%nat ∧
    (ss_successful stats ≤ ss_successful stats')%nat ∧
    (ss_duplicate stats ≤ ss_duplicate stats')%nat ∧
    (ss_completed stats ≤ ss_completed stats')%nat ∧
    ss_total stats' = ss_total stats ∧
    (Forall (fun v => sv_hasSuccess v = false ∧ sv_hasDuplicate v = false) results →
     ss_successful stats' = ss_successful stats ∧ ss_duplicate stats' = ss_duplicate stats).
Proof.
  induction results as [| v results IH]; intros stats; simpl.
  - split_and!; try lia; done.
  - destruct (IH (count_submit stats v)) as (Hsum & Hs & Hd & Hs' & Hd' & Hc' & Ht & Hnone).
    assert (∃ a b c d e : nat,
              (a ≤ 1 ∧ b ≤ 1 ∧ c + d + e = 1 ∧ a ≤ c ∧ b ≤ c)%nat ∧
              (sv_hasSuccess v = false → a = 0%nat) ∧
              (sv_hasDuplicate v = false → b = 0%nat) ∧
              ss_successful (count_submit stats v) = (ss_successful stats + a)%nat ∧
              ss_duplicate (count_submit stats v) = (ss_duplicate stats + b)%nat ∧
              ss_completed (count_submit stats v) = (ss_completed stats + c)%nat ∧
              ss_needRetry (count_submit stats v) = (ss_needRetry stats + d)%nat ∧
              ss_failed (count_submit stats v) = (ss_failed stats + e)%nat ∧
              ss_total (count_submit stats v) = ss_total stats)
      as (a & b & c & d & e & Hbounds & Ha0 & Hb0 & Has & Hbs & Hcs & Hds & Hes & Hts).
    { unfold count_submit.
      destruct (sv_completed v), (sv_hasSuccess v), (sv_hasDuplicate v), (sv_needRetry v);
        simpl;
        first [ by exists 1%nat, 1%nat, 1%nat, 0%nat, 0%nat; split_and!; try lia
              | by exists 1%nat, 0%nat, 1%nat, 0%nat, 0%nat; split_and!; try lia
              | by exists 0%nat, 1%nat, 1%nat, 0%nat, 0%nat; split_and!; try lia
              | by exists 0%nat, 0%nat, 1%nat, 0%nat, 0%nat; split_and!; try lia
              | by exists 0%nat, 0%nat, 0%nat, 1%nat, 0%nat; split_and!; try lia
              | by exists 0%nat, 0%nat, 0%nat, 0%nat, 1%nat; split_and!; try lia ]. }
    split_and!; try lia.
    intros Hall. apply Forall_cons in Hall as [[Hvs Hvd] Hall].
    destruct (Hnone Hall) as [-> ->]. rewrite Has, Hbs, (Ha0 Hvs), (Hb0 Hvd). lia.
Qed.

(** X8. [calculateSubmitStats] puts every result into exactly one of
    [completed], [needRetry] and [failed], which add up to [total];
    [successful] and [duplicate] count some of the completed ones.  Over
    results of the high-concurrency [submitForAccount], which carry neither
    [hasSuccess] nor [hasDuplicate], both stay zero. *)
Theorem calculateSubmitStats_partitions (results : list stat_view)
  (raced : list account_result) :
  let stats := calculateSubmitStats results in
  ss_total stats = length results ∧
  (ss_completed stats + ss_needRetry stats + ss_failed stats = ss_total stats)%nat ∧
  (ss_successful stats ≤ ss_completed stats)%nat ∧
  (ss_duplicate stats ≤ ss_completed stats)%nat ∧
  ss_successful (calculateSubmitStats (view_account <$> raced)) = 0%nat ∧
  ss_duplicate (calculateSubmitStats (view_account <$> raced)) = 0%nat.
Proof.
  unfold calculateSubmitStats.
  destruct (count_submit_sums results (SubmitStats (length results) 0 0 0 0 0))
    as (Hsum & Hs & Hd & _ & _ & _ & Ht & _).
  destruct (count_submit_sums (view_account <$> raced)
              (SubmitStats (length (view_account <$> raced)) 0 0 0 0 0))
    as (_ & _ & _ & _ & _ & _ & _ & Hnone).
  simpl in *. destruct Hnone as [-> ->].
  { apply Forall_fmap. by apply Forall_true. }
  split_and!; try done; lia.
Qed.

End SubmitterMore.

(** ** More of the ticket manager *)
Module TicketMore.
Import Js Api TicketManager.
Import Samples.

#[local] Open Scope Z_scope.

(** X9. The limiter keeps the accounts apart: calls for two different
    accounts commute, each sleeping as long as it would without the other and
    leaving the same records. *)
Theorem enforceRateLimit_accounts_independent (tm : ticket_manager) (a b : string)
  (now_a now_b : Z) :
  a ≠ b →
  let after_a := fst (enforceRateLimit tm a now_a) in
  let after_b := fst (enforceRateLimit tm b now_b) in
  snd (enforceRateLimit after_a b now_b) = snd (enforceRateLimit tm b now_b) ∧
  snd (enforceRateLimit after_b a now_a) = snd (enforceRateLimit tm a now_a) ∧
  fst (enforceRateLimit after_a b now_b) = fst (enforceRateLimit after_b a now_a) ∧
  recorded after_a b = recorded tm b.
Proof.
  intros Hab. unfold enforceRateLimit, recorded; simpl.
  rewrite !(lookup_insert_ne _ a b), !(lookup_insert_ne _ b a) by done.
  split_and!; try done.
  f_equal. by apply insert_insert_ne.
Qed.

Lemma enforceRateLimit_accounts_independent_witness :
  "acc-1" ≠ "acc-2" ∧
  snd (enforceRateLimit (fst (enforceRateLimit two_recorded "acc-1" 2)) "acc-2" 3)
  = snd (enforceRateLimit two_recorded "acc-2" 3).
Proof.
  assert ("acc-1" ≠ "acc-2") as Hne by discriminate.
  split; [exact Hne |].
  exact (proj1 (enforceRateLimit_accounts_independent two_recorded "acc-1" "acc-2" 2 3 Hne)).
Defined.

(** X10. When no record of the account lies in the future, a call with a
    limit of at least one sleeps for at most 1000 ms, if at all, and no record
    lies in the future afterwards either: with a clock that does not run
    backwards the limiter never delays a call by more than a second. *)
Theorem enforceRateLimit_sleeps_at_most_a_second (tm : ticket_manager) (accountId : string)
  (now : Z) :
  1 ≤ maxRequestsPerSecond tm →
  Forall (fun time => time ≤ now) (recorded tm accountId) →
  match snd (enforceRateLimit tm accountId now) with
  | Some (Fin waitTime) => 0 < waitTime ≤ 1000
  | Some Infinity => False
  | None => True
  end ∧
  Forall (fun time => time ≤ now) (recorded (fst (enforceRateLimit tm accountId now)) accountId).
Proof.
  intros Hlimit Hpast. split.
  - unfold enforceRateLimit; simpl.
    set (times := filter _ _).
    destruct (maxRequestsPerSecond tm <=? Z.of_nat (length times)) eqn:Hmany; [| done].
    apply Z.leb_le in Hmany.
    destruct (RateLimitProps.math_min_least times) as (oldest & -> & Hin & _).
    { intros Hnil. rewrite Hnil in Hmany. simpl in Hmany. lia. }
    subst times. apply list_elem_of_filter in Hin as [Hrecent Hin].
    assert (oldest ≤ now) as Hle.
    { unfold recorded in Hpast. by eapply Forall_forall in Hpast. }
    assert ((0 <? 1000 - (now - oldest)) = true) as -> by (apply Z.ltb_lt; lia).
    lia.
  - unfold enforceRateLimit, recorded; simpl. rewrite lookup_insert_eq. simpl.
    unfold slice_from. apply Forall_drop. apply Forall_app. split; [done |].
    constructor; [lia | done].
Qed.

Lemma enforceRateLimit_sleeps_at_most_a_second_witness :
  match snd (enforceRateLimit two_recorded "acc-1" 2) with
  | Some (Fin waitTime) => 0 < waitTime ≤ 1000
  | Some Infinity => False
  | None => True
  end.
Proof.
  assert (1 ≤ maxRequestsPerSecond two_recorded) as Hlimit by (vm_compute; discriminate).
  assert (Forall (fun time => time ≤ 2) (recorded two_recorded "acc-1")) as Hpast.
  { change (recorded two_recorded "acc-1") with [0; 1]. repeat constructor; lia. }
  exact (proj1 (enforceRateLimit_sleeps_at_most_a_second two_recorded "acc-1" 2 Hlimit Hpast)).
Defined.

(** *** The ticket store *)

Lemma validateTicketResponse_not_blank data ticket :
  validateTicketResponse data = Some ticket → blank ticket = false.
Proof.
  unfold validateTicketResponse, try_catch, bind.
  intros H. repeat case_match; by simplify_eq.
Qed.

#[local] Arguments enforceRateLimit : simpl never.

Lemma enforceRateLimit_keeps_tickets tm accountId now tm1 slept :
  enforceRateLimit tm accountId now = (tm1, slept) →
  accountTickets tm1 = accountTickets tm.
Proof. unfold enforceRateLimit. by intros [= <- _]. Qed.

(** X11. A ticket that [getTicketForAccount] returns is never blank.  It
    comes from the reply of one pass of the loop, and is then the one
    [getAccountTicket] gives for the account, stamped with the clock reading
    taken when it is stored, while the duration returned comes from a reading
    of its own.  The tickets of other accounts are untouched, and
    [clearAccountTicket] removes just this one.  A run that throws, or that is
    still going, stores nothing. *)
Theorem getTicketForAccount_stores_ticket (tm : ticket_manager) (acct : account)
  (startTime : Z) (script : list attempt_env) (other : string) :
  let run := getTicketForAccount tm acct startTime script in
  match run_outcome run with
  | TicketReturned ticket _ duration =>
      blank ticket = false ∧
      (∃ env,
         env ∈ script ∧ ticket_of (env_reply env) = Some ticket ∧
         duration = env_returned_now env - startTime ∧
         getAccountTicket (run_manager run) (accId acct)
         = Some (TicketInfo ticket (env_stored_now env) acct)) ∧
      getAccountTicket (clearAccountTicket (run_manager run) (accId acct)) (accId acct)
      = None ∧
      (if bool_decide (other = accId acct) then True
       else getAccountTicket (run_manager run) other = getAccountTicket tm other ∧
            getAccountTicket (clearAccountTicket (run_manager run) (accId acct)) other
            = getAccountTicket tm other)
  | _ => getAccountTicket (run_manager run) other = getAccountTicket tm other
  end.
Proof.
  intros run. subst run. unfold getTicketForAccount, getAccountTicket, clearAccountTicket.
  destruct (TicketProps.first_loud_pass startTime tm script)
    as [Hall | (earlier & env & later & -> & Hearlier & [Hcheck | [Hintime [ticket Hticket]]])].
  - destruct (TicketProps.loop_skips_quiet acct startTime script tm 0%nat 0%nat [] [] Hall)
      as (tm' & sleeps' & Heq & _ & Hkeep).
    rewrite app_nil_r in Heq. rewrite Heq. simpl. by rewrite Hkeep.
  - destruct (TicketProps.loop_skips_quiet acct startTime earlier tm 0%nat 0%nat []
                (env :: later) Hearlier) as (tm' & sleeps' & -> & Htimeout & Hkeep).
    rewrite TicketProps.loop_late_pass by (rewrite Htimeout; lia).
    simpl. by rewrite Hkeep.
  - destruct (TicketProps.loop_skips_quiet acct startTime earlier tm 0%nat 0%nat []
                (env :: later) Hearlier) as (tm' & sleeps' & -> & Htimeout & Hkeep).
    destruct (TicketProps.loop_ticket_pass acct startTime tm' (0 + length earlier)
                (0 + length earlier) sleeps' env later ticket)
      as (Hout & _ & _ & _ & Hstore); [by rewrite Htimeout | done |].
    rewrite Hout. cbv beta iota. cbn [accountTickets]. rewrite Hstore, Hkeep. split_and!.
    + destruct (env_reply env) as [[data | message] | error_code error_message];
        simpl in Hticket; try done.
      by eapply validateTicketResponse_not_blank.
    + exists env. split_and!; try done.
      * apply elem_of_app. right. apply elem_of_cons. by left.
      * by rewrite lookup_insert_eq.
    + by rewrite lookup_delete_eq.
    + case_bool_decide as Hother; [done |].
      rewrite lookup_delete_ne, lookup_insert_ne by done. done.
Qed.

End TicketMore.

(** ** More of the proxy pool *)
Module ProxyMore.
Import ProxyPool.
Import Samples.

#[local] Open Scope Z_scope.






(** X13. [markProxyFailed] changes at most the first entry with the route's
    host and port: its failure count goes up by one, and it is usable
    afterwards exactly if it was enabled and the new count is still below its
    [maxFails]; so reporting a failure never makes an unusable entry usable.
    Every other entry, the size of the pool and its index stay as they are, and
    a route that matches no entry changes nothing. *)
Theorem markProxyFailed_counts_first_match (pl : pool) (info : route) :
  let pl' := markProxyFailed pl info in
  length (proxies pl') = length (proxies pl) ∧
  currentIndex pl' = currentIndex pl ∧
  (Forall (fun p => ¬ matches info p) (proxies pl) → pl' = pl) ∧
  ∀ i p, proxies pl !! i = Some p → matches info p →
         (∀ j q, proxies pl !! j = Some q → (j < i)%nat → ¬ matches info q) →
         ∃ p', proxies pl' !! i = Some p' ∧
               failCount p' = failCount p + 1 ∧
               usable p' = enabled p && (failCount p + 1 <? maxFails p) ∧
               (host p', port p', maxFails p') = (host p, port p, maxFails p) ∧
               ∀ j, j ≠ i → proxies pl' !! j = proxies pl !! j.
Proof.
  intros pl'. subst pl'. unfold markProxyFailed.
  set (hit := fun p : proxy =>
                (bool_decide (host p = route_host info) && (port p =? route_port info)) = true).
  assert (∀ p, hit p ↔ matches info p) as Hhit.
  { intros p. unfold hit, matches. rewrite andb_true_iff, bool_decide_eq_true, Z.eqb_eq. done. }
  destruct (list_find hit (proxies pl)) as [[k pk] |] eqn:Hfind.
  - apply list_find_Some in Hfind as (Hk & Hpk & Hfirst). simpl.
    rewrite length_insert. split_and!; [done | done | |].
    + intros Hnone. exfalso.
      eapply Forall_lookup_1 in Hnone; [| exact Hk]. apply Hnone. by apply Hhit.
    + intros i p Hi Hmatch Hbefore.
      assert (i = k) as ->.
      { destruct (Nat.lt_trichotomy i k) as [Hlt | [-> | Hgt]]; [| done |].
        - exfalso. eapply Hfirst; [exact Hi | done | by apply Hhit].
        - exfalso. eapply Hbefore; [exact Hk | done | by apply Hhit]. }
      assert (pk = p) as -> by congruence.
      eexists. split; [apply list_lookup_insert_eq; by eapply lookup_lt_Some |].
      unfold usable; simpl. split_and!; try done.
      * destruct (Z.leb_spec (maxFails p) (failCount p + 1)) as [Hmax | Hok].
        -- assert ((failCount p + 1 <? maxFails p) = false) as -> by (apply Z.ltb_ge; lia).
           by rewrite !andb_false_r.
        -- done.
      * intros j Hj. by rewrite list_lookup_insert_ne.
  - apply list_find_None in Hfind. split_and!; [done | done | done |].
    intros i p Hi Hmatch _. exfalso.
    eapply Forall_lookup_1 in Hfind; [| exact Hi]. apply Hfind. by apply Hhit.
Qed.

Lemma markProxyFailed_counts_first_match_witness :
  ∃ p', proxies (markProxyFailed lapsed (Route "10.0.0.1" 8080 "http")) !! 0%nat = Some p' ∧
        failCount p' = 1.
Proof.
  destruct (proj2 (proj2 (proj2
              (markProxyFailed_counts_first_match lapsed (Route "10.0.0.1" 8080 "http"))))
              0%nat (fresh_proxy "10.0.0.1" 8080))
    as (p' & Hp' & Hcount & _).
  - reflexivity.
  - split; reflexivity.
  - intros j q _ Hj. lia.
  - exists p'. split; [exact Hp' | exact Hcount].
Defined.

End ProxyMore.

(** ** The retry loop of the API client *)
Module ApiClientProps.
Import Js Api ApiClient.

#[local] Open Scope Z_scope.

Lemma delays_snoc retryDelay n :
  delays retryDelay n ++ [retryDelay * Z.of_nat (S n)] = delays retryDelay (S n).
Proof. unfold delays. by rewrite seq_S, fmap_app. Qed.

(** The loop entered for attempt [n + 1], after [n] failed requests. *)
Lemma makeRequest_loop_run retryDelay retries script :
  ∀ n lastError,
    (n ≤ retries)%nat →
    let run := makeRequest_loop retryDelay retries (S n) None lastError n
                 (delays retryDelay (n `min` (retries - 1))) [] script in
    rq_marked run = [] ∧
    match rq_result run with
    | Some (ApiSuccess data) =>
        ∃ k statusText,
          script !! k = Some (HttpResponse 200 statusText data) ∧
          rq_requests run = (n + k + 1)%nat ∧ (rq_requests run ≤ retries)%nat ∧
          rq_sleeps run = delays retryDelay (n + k) ∧
          Forall (fun o => accepted o = false) (take k script)
    | Some (ApiFailure message) =>
        rq_requests run = retries ∧
        rq_sleeps run = delays retryDelay (retries - 1) ∧
        (retries - n ≤ length script)%nat ∧
        Forall (fun o => accepted o = false) (take (retries - n) script) ∧
        message = match last (take (retries - n) script) with
                  | Some o => error_message o
                  | None => default "请求失败" lastError
                  end
    | None =>
        rq_requests run = (n + length script)%nat ∧ (rq_requests run < retries)%nat ∧
        rq_sleeps run = delays retryDelay (n + length script) ∧
        Forall (fun o => accepted o = false) script
    end.
Proof.
  induction script as [| outcome script IH]; intros n lastError Hn.
  - cbn [makeRequest_loop].
    destruct (S n <=? retries)%nat eqn:Hle; simpl.
    + apply Nat.leb_le in Hle. split; [done |].
      rewrite Nat.add_0_r. split_and!; [done | lia | | done].
      f_equal. lia.
    + apply Nat.leb_gt in Hle. assert (n = retries) as -> by lia.
      rewrite Nat.sub_diag. simpl. split; [done |]. split_and!; try done; try lia.
      f_equal. lia.
  - cbn [makeRequest_loop]. cbv zeta.
    destruct (S n <=? retries)%nat eqn:Hle.
    + apply Nat.leb_le in Hle.
      assert (∀ message,
                let run := makeRequest_loop retryDelay retries (S (S n)) None (Some message)
                             (S n)
                             (if (S n <? retries)%nat
                              then delays retryDelay (n `min` (retries - 1))
                                   ++ [retryDelay * Z.of_nat (S n)]
                              else delays retryDelay (n `min` (retries - 1))) [] script in
                accepted outcome = false → message = error_message outcome →
                rq_marked run = [] ∧
                match rq_result run with
                | Some (ApiSuccess data) =>
                    ∃ k statusText,
                      (outcome :: script) !! k = Some (HttpResponse 200 statusText data) ∧
                      rq_requests run = (n + k + 1)%nat ∧ (rq_requests run ≤ retries)%nat ∧
                      rq_sleeps run = delays retryDelay (n + k) ∧
                      Forall (fun o => accepted o = false) (take k (outcome :: script))
                | Some (ApiFailure message') =>
                    rq_requests run = retries ∧
                    rq_sleeps run = delays retryDelay (retries - 1) ∧
                    (retries - n ≤ length (outcome :: script))%nat ∧
                    Forall (fun o => accepted o = false)
                      (take (retries - n) (outcome :: script)) ∧
                    message' = match last (take (retries - n) (outcome :: script)) with
                               | Some o => error_message o
                               | None => default "请求失败" lastError
                               end
                | None =>
                    rq_requests run = (n + length (outcome :: script))%nat ∧
                    (rq_requests run < retries)%nat ∧
                    rq_sleeps run = delays retryDelay (n + length (outcome :: script)) ∧
                    Forall (fun o => accepted o = false) (outcome :: script)
                end) as Hretry.
      { intros message run Hbad Hmessage. subst run.
        assert ((if (S n <? retries)%nat
                 then delays retryDelay (n `min` (retries - 1))
                      ++ [retryDelay * Z.of_nat (S n)]
                 else delays retryDelay (n `min` (retries - 1)))
                = delays retryDelay (S n `min` (retries - 1))) as ->.
        { destruct (S n <? retries)%nat eqn:Hlt.
          - apply Nat.ltb_lt in Hlt.
            replace (n `min` (retries - 1))%nat with n by lia.
            replace (S n `min` (retries - 1))%nat with (S n) by lia.
            apply delays_snoc.
          - apply Nat.ltb_ge in Hlt. f_equal. lia. }
        specialize (IH (S n) (Some message) Hle). cbv zeta in IH.
        destruct IH as [Hmarked IH]. split; [done |].
        destruct (rq_result _) as [[data | message'] |].
        - destruct IH as (k & statusText & Hk & Hreq & Hmax & Hsleeps & Hbefore).
          exists (S k), statusText. split_and!; [done | lia | done | |].
          + rewrite Hsleeps. f_equal. lia.
          + simpl. by constructor.
        - destruct IH as (Hreq & Hsleeps & Hlen & Hbefore & Hmsg).
          replace (retries - n)%nat with (S (retries - S n)) by lia.
          split_and!; [done | done | simpl; lia | simpl; by constructor |].
          rewrite Hmsg. cbn [take].
          destruct (take (retries - S n) script) as [| o l] eqn:Htake; simpl; [by subst |].
          destruct (last (o :: l)) eqn:Hlast; [done |]. by apply last_None in Hlast.
        - destruct IH as (Hreq & Hlt & Hsleeps & Hall).
          split_and!; [rewrite Hreq; cbn [length]; lia | done | | by constructor].
          rewrite Hsleeps. f_equal. cbn [length]. lia. }
      destruct outcome as [status statusText data | code message].
      * destruct (status =? 200) eqn:Hstatus.
        -- apply Z.eqb_eq in Hstatus as ->. simpl. split; [done |].
           exists 0%nat, statusText. rewrite Nat.add_0_r.
           split_and!; [done | lia | lia | | done].
           f_equal. lia.
        -- by apply Hretry.
      * by apply Hretry.
    + apply Nat.leb_gt in Hle. assert (n = retries) as -> by lia.
      rewrite Nat.sub_diag. simpl. split; [done |]. split_and!; try done; try lia.
      f_equal. lia.
Qed.

(** X14. [makeRequest] issues at most [retries] requests and stops at the
    first one answered with status 200, whose body it returns.  After each
    failed attempt but the last it sleeps [retryDelay * attempt], so the waits
    grow linearly; when all [retries] attempts fail it reports the message of
    the last error, or the default text when [retries] is 0.  It never reports
    a proxy to [markProxyFailed], since [currentProxy] stays [null]. *)
Theorem makeRequest_stops_at_first_200 (retryDelay : Z) (retries : nat)
  (script : list http_outcome) :
  let run := makeRequest retryDelay retries script in
  rq_marked run = [] ∧
  (rq_requests run ≤ retries)%nat ∧
  match rq_result run with
  | Some (ApiSuccess data) =>
      ∃ k statusText,
        script !! k = Some (HttpResponse 200 statusText data) ∧
        rq_requests run = S k ∧
        rq_sleeps run = delays retryDelay k ∧
        Forall (fun o => accepted o = false) (take k script)
  | Some (ApiFailure message) =>
      rq_requests run = retries ∧
      rq_sleeps run = delays retryDelay (retries - 1) ∧
      (retries ≤ length script)%nat ∧
      Forall (fun o => accepted o = false) (take retries script) ∧
      message = from_option error_message "请求失败" (last (take retries script))
  | None =>
      rq_requests run = length script ∧ (length script < retries)%nat ∧
      rq_sleeps run = delays retryDelay (length script) ∧
      Forall (fun o => accepted o = false) script
  end.
Proof.
  pose proof (makeRequest_loop_run retryDelay retries script 0 None (Nat.le_0_l _)) as Hrun.
  cbv zeta in Hrun. change (0 `min` (retries - 1))%nat with 0%nat in Hrun.
  unfold makeRequest. change (delays retryDelay 0) with (@nil Z) in Hrun.
  destruct Hrun as [Hmarked Hrun]. cbv zeta. split; [done |].
  destruct (rq_result _) as [[data | message] |].
  - destruct Hrun as (k & statusText & Hk & Hreq & Hmax & Hsleeps & Hbefore).
    split; [done |]. exists k, statusText. split_and!; [done | lia | done | done].
  - destruct Hrun as (Hreq & Hsleeps & Hlen & Hbefore & Hmsg).
    rewrite Nat.sub_0_r in *. split; [lia |]. split_and!; done.
  - destruct Hrun as (Hreq & Hlt & Hsleeps & Hall).
    simpl in Hreq, Hsleeps. split_and!; first [done | lia].
Qed.

End ApiClientProps.

(** ** More of the purchase flow *)
Module FlowMore.
Import Js Api Flow.
Import Submitter(account_result, ar_success, ar_completed, isRunning, isAccountCompleted).
Import Validator(vr_valid).
Import TicketManager(getAccountTicket, recorded).
Import Samples.

Lemma in_order_app_l calls later i call :
  calls !! i = Some call → in_order calls i call → in_order (calls ++ later) i call.
Proof.
  intros Hi. destruct call; simpl; try done.
  - intros (j & -> & Hj). exists j. split; [done |]. by apply lookup_app_l_Some.
  - intros (j & -> & Hj & Hv). exists j.
    split_and!; [done | |]; by apply lookup_app_l_Some.
  - intros (j & t & -> & Hj). exists j, t. split; [done |]. by apply lookup_app_l_Some.
Qed.

Lemma in_order_app_r earlier calls i call :
  in_order calls i call → in_order (earlier ++ calls) (length earlier + i) call.
Proof.
  destruct call; simpl; try done.
  - intros (j & -> & Hj). exists (length earlier + j)%nat.
    split; [lia |]. by rewrite lookup_app_r, Nat.add_comm, Nat.add_sub by lia.
  - intros (j & -> & Hj & Hv). exists (length earlier + j)%nat. split_and!; [lia | |].
    + by rewrite lookup_app_r, Nat.add_comm, Nat.add_sub by lia.
    + replace (S (length earlier + j)) with (length earlier + S j)%nat by lia.
      by rewrite lookup_app_r, Nat.add_comm, Nat.add_sub by lia.
  - intros (j & t & -> & Hj). exists (length earlier + j)%nat, t.
    split; [lia |]. by rewrite lookup_app_r, Nat.add_comm, Nat.add_sub by lia.
Qed.

Lemma flow_pass_in_order acct env i call :
  (flow_pass acct env).1 !! i = Some call → in_order (flow_pass acct env).1 i call.
Proof.
  unfold flow_pass.
  destruct (env_ticket env) as [ticketResult | msg]; simpl.
  - destruct (tk_success ticketResult); simpl.
    + destruct (vr_valid (env_validation env)); simpl.
      * destruct (ar_success (env_submission env) &&
                  default false (ar_completed (env_submission env))); simpl.
        -- destruct i as [| [| [| [| i]]]]; intros [= <-]; simpl; eauto.
        -- destruct (default false (Submitter.ar_needNewTicket (env_submission env)));
             simpl; destruct i as [| [| [| i]]]; intros [= <-]; simpl; eauto.
      * destruct i as [| [| i]]; intros [= <-]; simpl; eauto.
    + destruct i as [| [| i]]; intros [= <-]; simpl; eauto.
  - destruct i as [| [| i]]; intros [= <-]; simpl; eauto.
Qed.

(** X15. In the calls one account's flow makes, whatever the answers:
    every submission of a ticket comes directly after the validation of that
    same ticket, which comes directly after a ticket request, and the success
    log comes directly after a submission.  So no ticket is submitted without
    having been validated in the same pass, and none is validated twice. *)
Theorem flow_submits_only_validated_ticket (acct : account) (script : list flow_env)
  (i : nat) (call : stage_call) :
  (executeIndependentAccountFlow acct script).1 !! i = Some call →
  in_order (executeIndependentAccountFlow acct script).1 i call.
Proof.
  revert i. induction script as [| env script IH]; intros i; simpl; [done |].
  destruct (env_running env); simpl; [| done].
  pose proof (flow_pass_in_order acct env) as Hpass.
  destruct (flow_pass acct env) as [calls [result |]]; simpl in *; [apply Hpass |].
  destruct (executeIndependentAccountFlow acct script) as [calls' result'] eqn:Hrest.
  simpl in *. intros Hi. apply lookup_app_Some in Hi as [Hi | [Hlen Hi]].
  - apply in_order_app_l; [done |]. by apply Hpass.
  - replace i with (length calls + (i - length calls))%nat by lia.
    apply in_order_app_r. by apply IH.
Qed.

Lemma flow_submits_only_validated_ticket_witness :
  in_order
    (executeIndependentAccountFlow acct1
       [pass_env "T1"
          (Validator.V2.validateTicketForAccount acct1 "T1"
             (Fulfilled (ApiSuccess body_without_flag)))
          (Submitter.AccountResult true (Some true) None None None acct1 (Some submitted1));
        pass_env "T2" accepted1
          (Submitter.AccountResult true (Some true) None None None acct1 (Some submitted1))]).1
    4 (SubmitForAccount "T2").
Proof.
  apply flow_submits_only_validated_ticket. reflexivity.
Defined.

(** X16. What [executeIndependentAccountFlow] returns.  A result is either
    the [interrupted] one, given only when a loop test read [isRunning] as
    false, or a success: its [result] is the submission result of a pass that
    obtained a ticket, had it validated and whose submission reported
    [success] and [completed], and its [type] is [duplicate] or [submitted]
    after that result.  While it has not returned, every loop test read
    [isRunning] as true. *)
Theorem flow_returns_success_or_interrupted (acct : account) (script : list flow_env) :
  match (executeIndependentAccountFlow acct script).2 with
  | Some value =>
      fr_account value = acct ∧
      ((fr_success value = false ∧ fr_type value = "interrupted" ∧
        fr_result value = None ∧ Exists (fun env => env_running env = false) script) ∨
       (fr_success value = true ∧
        ∃ env ticketResult,
          env ∈ script ∧ env_running env = true ∧
          env_ticket env = Ok ticketResult ∧ tk_success ticketResult = true ∧
          vr_valid (env_validation env) = true ∧
          ar_success (env_submission env) = true ∧
          ar_completed (env_submission env) = Some true ∧
          fr_result value = Some (env_submission env) ∧
          fr_type value = result_type (env_submission env)))
  | None => Forall (fun env => env_running env = true) script
  end.
Proof.
  induction script as [| env script IH]; simpl; [done |].
  destruct (env_running env) eqn:Hrunning; simpl.
  - assert (match (flow_pass acct env).2 with
            | Some value =>
                fr_account value = acct ∧ fr_success value = true ∧
                ∃ ticketResult,
                  env_ticket env = Ok ticketResult ∧ tk_success ticketResult = true ∧
                  vr_valid (env_validation env) = true ∧
                  ar_success (env_submission env) = true ∧
                  ar_completed (env_submission env) = Some true ∧
                  fr_result value = Some (env_submission env) ∧
                  fr_type value = result_type (env_submission env)
            | None => True
            end) as Hpass.
    { unfold flow_pass.
      destruct (env_ticket env) as [ticketResult | msg]; simpl; [| done].
      destruct (tk_success ticketResult) eqn:Hticket; simpl; [| done].
      destruct (vr_valid (env_validation env)) eqn:Hvalid; simpl; [| done].
      destruct (ar_success (env_submission env)) eqn:Hsuccess; simpl.
      - destruct (ar_completed (env_submission env)) as [[|] |] eqn:Hcompleted; simpl.
        + split_and!; try done. by exists ticketResult.
        + by destruct (default false (Submitter.ar_needNewTicket (env_submission env))).
        + by destruct (default false (Submitter.ar_needNewTicket (env_submission env))).
      - by destruct (default false (Submitter.ar_needNewTicket (env_submission env))). }
    destruct (flow_pass acct env) as [calls [value |]]; simpl in *.
    + destruct Hpass as (Hacct & Hsuccess & ticketResult & Hrest).
      split; [done |]. right. split; [done |].
      exists env, ticketResult. split; [apply elem_of_cons; by left |]. done.
    + destruct (executeIndependentAccountFlow acct script) as [calls' [value |]]; simpl in *.
      * destruct IH as [Hacct [(Hf & Ht & Hr & Hex) | (Hs & env' & tr & Hin & Hrest)]].
        -- split; [done |]. left. split_and!; try done. by apply Exists_cons_tl.
        -- split; [done |]. right. split; [done |].
           exists env', tr. split; [apply elem_of_cons; by right |]. done.
      * by constructor.
  - split; [done |]. left. split_and!; try done. by apply Exists_cons_hd.
Qed.

Lemma count_result_sums results :
  ∀ stats,
    let stats' := foldl count_result stats results in
    stat_total stats' = stat_total stats ∧
    (stat_success stats' + stat_duplicate stats'
     = stat_success stats + stat_duplicate stats
       + length (filter (fun r => counted_success r = true) results))%nat ∧
    (stat_fail stats'
     = stat_fail stats + length (filter (fun r => counted_success r = false) results))%nat.
Proof.
  induction results as [| r results IH]; intros stats; simpl; [split_and!; lia |].
  destruct (IH (count_result stats r)) as (Ht & Hs & Hf).
  rewrite Ht, Hs, Hf. clear IH Ht Hs Hf.
  rewrite !filter_cons.
  destruct r as [value | reason]; simpl.
  - destruct (fr_success value); simpl.
    + destruct (String.eqb (fr_type value) "duplicate"); simpl;
        repeat case_decide; try done; simpl; split_and!; lia.
    + repeat case_decide; try done; simpl; split_and!; lia.
  - repeat case_decide; try done; simpl; split_and!; lia.
Qed.

(** X17. [calculateResultStats] puts every settled flow into exactly one of
    [success], [duplicate] and [fail], which add up to [total], the number of
    flows; [fail] counts exactly the rejected flows and those whose result is
    not a success, so an interrupted flow counts as a failure. *)
Theorem calculateResultStats_partitions (results : list settled) :
  let stats := calculateResultStats results in
  stat_total stats = length results ∧
  (stat_success stats + stat_duplicate stats + stat_fail stats = stat_total stats)%nat ∧
  stat_fail stats = length (filter (fun r => counted_success r = false) results) ∧
  (stat_success stats + stat_duplicate stats
   = length (filter (fun r => counted_success r = true) results))%nat.
Proof.
  unfold calculateResultStats.
  destruct (count_result_sums results (ResultStats 0 0 0 (length results)))
    as (Ht & Hs & Hf).
  simpl in *.
  assert (length (filter (fun r => counted_success r = true) results)
          + length (filter (fun r => counted_success r = false) results)
          = length results)%nat as Hsplit.
  { clear. induction results as [| r results IH]; [done |].
    rewrite !filter_cons. destruct (counted_success r);
      repeat case_decide; try done; simpl; lia. }
  split_and!; lia.
Qed.

(** X27. [logSuccessfulSubmission] logs nothing for a submission result
    without a [result]; otherwise it writes to the duplicate log exactly when
    the flow reports the type [duplicate].  The quota it records is the
    account's first tourism entry, with its key, its id and the description
    made from the key, and it is the [unknown] one exactly when the account
    has no tourism entry: it does not depend on the task that won the race. *)
Theorem success_log_names_first_quota (acct : account)
  (submissionResult other : account_result) :
  match logSuccessfulSubmission acct submissionResult with
  | None => Submitter.ar_result submissionResult = None
  | Some entry =>
      Submitter.ar_result submissionResult = Some (entry_result entry) ∧
      (logged_as_duplicate entry = true ↔ result_type submissionResult = "duplicate") ∧
      match head (default [] (tourismSubsidyIds acct)) with
      | Some (quota, subsidyId) =>
          entry_quota entry
          = QuotaInfo "tourism" quota subsidyId ("消费" +:+ quota +:+ "档")
      | None =>
          entry_quota entry = QuotaInfo "unknown" "unknown" (JStr "unknown") "提交成功"
      end ∧
      (qi_type (entry_quota entry) = "unknown" ↔ default [] (tourismSubsidyIds acct) = []) ∧
      (is_Some (Submitter.ar_result other) →
       entry_quota <$> logSuccessfulSubmission acct other = Some (entry_quota entry))
  end.
Proof.
  unfold logSuccessfulSubmission, result_type.
  destruct (Submitter.ar_result submissionResult) as [result |]; [| done].
  set (quotaInfo := match tourismSubsidyIds acct with
                    | Some ((quota, subsidyId) :: _) => _
                    | _ => _
                    end).
  assert (match head (default [] (tourismSubsidyIds acct)) with
          | Some (quota, subsidyId) =>
              quotaInfo = QuotaInfo "tourism" quota subsidyId ("消费" +:+ quota +:+ "档")
          | None => quotaInfo = QuotaInfo "unknown" "unknown" (JStr "unknown") "提交成功"
          end ∧
          (qi_type quotaInfo = "unknown" ↔ default [] (tourismSubsidyIds acct) = []))
    as [Hfirst Hunknown].
  { subst quotaInfo. destruct (tourismSubsidyIds acct) as [[| [quota subsidyId] entries] |];
      simpl; split; done. }
  assert (is_Some (Submitter.ar_result other) →
          entry_quota <$>
            match Submitter.ar_result other with
            | Some result' =>
                if String.eqb (Submitter.sr_status (Submitter.tr_result result')) "duplicate"
                then Some (LogDuplicateUser acct quotaInfo result')
                else Some (LogSuccessUser acct quotaInfo result')
            | None => None
            end = Some quotaInfo) as Hother.
  { intros [result' ->].
    by destruct (String.eqb (Submitter.sr_status (Submitter.tr_result result')) "duplicate"). }
  clearbody quotaInfo.
  destruct (String.eqb (Submitter.sr_status (Submitter.tr_result result)) "duplicate");
    simpl; split_and!; done.
Qed.

Lemma success_log_names_first_quota_witness :
  entry_quota <$> logSuccessfulSubmission acct1
                    (Submitter.AccountResult true (Some true) None None None acct1
                       (Some duplicate1))
  = entry_quota <$> logSuccessfulSubmission acct1
                      (Submitter.AccountResult true (Some true) None None None acct1
                         (Some submitted1)).
Proof.
  pose proof (success_log_names_first_quota acct1
                (Submitter.AccountResult true (Some true) None None None acct1
                   (Some submitted1))
                (Submitter.AccountResult true (Some true) None None None acct1
                   (Some duplicate1))) as Hlog.
  destruct (logSuccessfulSubmission acct1
              (Submitter.AccountResult true (Some true) None None None acct1
                 (Some submitted1))) as [entry |] eqn:Hentry;
    [| by vm_compute in Hentry].
  destruct Hlog as (_ & _ & _ & _ & Hother). rewrite Hother; [reflexivity |].
  simpl. by eexists.
Defined.

Lemma flow_step_keeps_running calls :
  ∀ pf, pf_isRunning (foldl flow_step pf calls) = pf_isRunning pf.
Proof.
  induction calls as [| call calls IH]; intros pf; simpl; [done |].
  rewrite IH. by destruct call.
Qed.

(** X18. Neither [stop] nor [reset] of the purchase flow clears the flag
    the account loops test: after any calls of them on a constructed flow
    [isRunning] is still true.  A call of [stop] forgets every ticket, every
    request time and every completed account, and leaves the submitter
    running, also when the submitter had been stopped before. *)
Theorem purchase_flow_stop_keeps_running (ticketManager : TicketManager.ticket_manager)
  (applicationSubmitter : Submitter.submitter) (calls : list flow_call)
  (pf : purchase_flow) (accountId : string) :
  pf_isRunning (foldl flow_step (new_PurchaseFlow ticketManager applicationSubmitter) calls)
  = true ∧
  pf_isRunning (stop pf) = pf_isRunning pf ∧
  isRunning (pf_applicationSubmitter (stop pf)) = true ∧
  isAccountCompleted (pf_applicationSubmitter (stop pf)) accountId = false ∧
  getAccountTicket (pf_ticketManager (stop pf)) accountId = None ∧
  recorded (pf_ticketManager (stop pf)) accountId = [].
Proof.
  split_and!; try done.
  by rewrite flow_step_keeps_running.
Qed.

End FlowMore.

(** ** Batch validation *)
Module ValidatorMore.
Import Js Api Validator.
Import Samples.

Section batch.
Variable parseValidationResponse : jsval -> bool.

Lemma map_set_fresh {V : Type} (key : string) (value : V) (m : list (string * V)) :
  key ∉ m.*1 → map_set key value m = m ++ [(key, value)].
Proof.
  induction m as [| [k v] m IH]; simpl; [done |].
  intros Hfresh. apply not_elem_of_cons in Hfresh as [Hne Hfresh].
  destruct (String.eqb_spec k key) as [-> | _]; [done |].
  by rewrite IH.
Qed.

Lemma results_in_order settled :
  ∀ results,
    NoDup (results.*1 ++ ((fun call => accId call.1.1) <$> settled)) →
    foldl (fun results '(acct, ticket, reply) =>
             map_set (accId acct)
               (validateTicketForAccount parseValidationResponse acct ticket reply) results)
      results settled
    = results ++ (validated parseValidationResponse <$> settled).
Proof.
  induction settled as [| [[acct ticket] reply] settled IH]; intros results Hdistinct; simpl.
  - by rewrite app_nil_r.
  - simpl in Hdistinct.
    rewrite map_set_fresh.
    + rewrite IH.
      * by rewrite <- app_assoc.
      * rewrite fmap_app. simpl. by rewrite <- app_assoc.
    + apply NoDup_app in Hdistinct as (_ & Hfresh & _).
      intros Hin. apply (Hfresh _ Hin). apply elem_of_cons. by left.
Qed.

Lemma count_validation_sums settled :
  ∀ stats,
    let stats' := foldl count_validation stats
                    ((validated parseValidationResponse <$> settled).*2) in
    vs_total stats' = vs_total stats ∧
    (vs_error stats'
     = vs_error stats + length (filter (fun call => answered call = false) settled))%nat ∧
    (vs_valid stats'
     = vs_valid stats
       + length (filter (fun call => passed parseValidationResponse call = true) settled))%nat ∧
    (vs_valid stats' + vs_invalid stats' + vs_error stats'
     = vs_valid stats + vs_invalid stats + vs_error stats + length settled)%nat.
Proof.
  induction settled as [| [[acct ticket] reply] settled IH]; intros stats;
    [simpl; split_and!; lia |].
  specialize (IH (count_validation stats
                    (validateTicketForAccount parseValidationResponse acct ticket reply))).
  cbv zeta in IH |- *.
  change (foldl count_validation stats
            (validated parseValidationResponse <$> (acct, ticket, reply) :: settled).*2)
    with (foldl count_validation
            (count_validation stats
               (validateTicketForAccount parseValidationResponse acct ticket reply))
            (validated parseValidationResponse <$> settled).*2).
  destruct IH as (Ht & He & Hv & Hsum).
  rewrite Hsum, Ht, He, Hv. clear Ht He Hv Hsum. cbn [length].
  rewrite !filter_cons. unfold answered, passed, validateTicketForAccount, count_validation.
  destruct reply as [[data | message] | code message]; simpl.
  - destruct (parseValidationResponse data); simpl;
      repeat case_decide; try done; simpl; split_and!; lia.
  - repeat case_decide; try done; simpl; split_and!; lia.
  - repeat case_decide; try done; simpl; split_and!; lia.
Qed.

(** X19. For accounts with distinct ids [validateTicketsForAccounts] keeps
    one result per account, in the order in which the calls settle, and its
    statistics add up: [valid], [invalid] and [error] sum to [total], the
    number of accounts.  [error] counts exactly the calls that brought back no
    body (a rejected call or a failure of the network layer) and [valid] the
    calls whose body the parser accepts; a body the parser rejects counts as
    [invalid], never as an error. *)
Theorem validateTicketsForAccounts_counts (settled : list (account * string * api_reply)) :
  NoDup ((fun call => accId call.1.1) <$> settled) →
  let batch := validateTicketsForAccounts parseValidationResponse settled in
  batch.1 = validated parseValidationResponse <$> settled ∧
  vs_total batch.2 = length settled ∧
  (vs_valid batch.2 + vs_invalid batch.2 + vs_error batch.2 = vs_total batch.2)%nat ∧
  vs_error batch.2 = length (filter (fun call => answered call = false) settled) ∧
  vs_valid batch.2
  = length (filter (fun call => passed parseValidationResponse call = true) settled).
Proof.
  intros Hdistinct. unfold validateTicketsForAccounts. cbv zeta.
  rewrite results_in_order by done. simpl.
  unfold calculateValidationStats.
  destruct (count_validation_sums settled
              (ValidationStats (length (validated parseValidationResponse <$> settled)) 0 0 0))
    as (Ht & He & Hv & Hsum).
  simpl in *. rewrite length_fmap in *.
  split_and!; [done | lia | lia | lia | lia].
Qed.

End batch.

Lemma validateTicketsForAccounts_counts_witness :
  vs_error (validateTicketsForAccounts V2.parseValidationResponse
              [(acct1, "T1", bad_gateway);
               (Account "acc-2" "user2" None JUndefined, "T2",
                Fulfilled (ApiSuccess body_without_flag))]).2 = 1%nat.
Proof.
  assert (NoDup ["acc-1"; "acc-2"]) as Hdistinct.
  { apply (bool_decide_unpack _). by vm_compute. }
  exact (proj1 (proj2 (proj2 (proj2
           (validateTicketsForAccounts_counts V2.parseValidationResponse
              [(acct1, "T1", bad_gateway);
               (Account "acc-2" "user2" None JUndefined, "T2",
                Fulfilled (ApiSuccess body_without_flag))] Hdistinct))))).
Defined.

End ValidatorMore.

(** ** The ticket of a response *)
Module TicketParse.
Import Js Api TicketManager.

Lemma is_str_eq (v : jsval) (lit : string) : is_str v lit = true ↔ v = JStr lit.
Proof.
  destruct v; simpl; try (split; [discriminate | by intros [=]]).
  rewrite String.eqb_eq. split; [by intros -> | by intros [= ->]].
Qed.

(** X20. [validateTicketResponse] yields a ticket for exactly the bodies it
    can take one from: an object whose [success] is truthy, whose [code] is
    the string [0] and whose [data] is an object with a string [ticket] that
    is not blank; the ticket it yields is that string.  Every other value,
    those on which a property read throws included, gives [null]. *)
Theorem validateTicketResponse_accepts_exactly (responseData : jsval) (ticket : string) :
  validateTicketResponse responseData = Some ticket ↔
  ∃ fields data_fields,
    responseData = JObj fields ∧
    truthy (assoc "success" fields) = true ∧
    assoc "code" fields = JStr "0" ∧
    assoc "data" fields = JObj data_fields ∧
    assoc "ticket" data_fields = JStr ticket ∧
    blank ticket = false.
Proof.
  split.
  - unfold validateTicketResponse, try_catch, bind.
    destruct responseData as [| | b | n | s | items | fields]; simpl; try done;
      try (by intros Hnull; repeat case_match; simplify_eq/=).
    destruct (truthy (assoc "success" fields)) eqn:Hsuccess; simpl; [| done].
    destruct (is_str (assoc "code" fields) "0") eqn:Hcode; simpl; [| done].
    apply is_str_eq in Hcode.
    destruct (assoc "data" fields) as [| | b | n | s | items | data_fields] eqn:Hdata;
      simpl; try done; try (by intros Hnull; repeat case_match; simplify_eq/=).
    destruct (assoc "ticket" data_fields) as [| | b | n | t | items | fs] eqn:Hticket;
      simpl; try done; try (by intros Hnull; repeat case_match; simplify_eq/=).
    destruct (negb (String.eqb t "")); simpl; [| done].
    destruct (blank t) eqn:Hblank; [done |].
    intros [= ->]. by exists fields, data_fields.
  - intros (fields & data_fields & -> & Hsuccess & Hcode & Hdata & Hticket & Hblank).
    unfold validateTicketResponse, try_catch, bind. simpl.
    rewrite Hsuccess, Hcode, Hdata. simpl. rewrite Hticket. simpl.
    destruct (String.eqb_spec ticket "") as [-> | _]; [done |].
    simpl. by rewrite Hblank.
Qed.

End TicketParse.

(** ** The account manager *)
Module AccountProps.
Import Js AccountManager.

#[local] Open Scope Z_scope.

Lemma obj_get_set key value entries other :
  obj_get other (obj_set key value entries)
  = if key =? other then Some value else obj_get other entries.
Proof.
  induction entries as [| [k v] entries IH]; simpl.
  - by destruct (key =? other).
  - destruct (Z.eqb_spec k key) as [-> | Hk]; simpl.
    + by destruct (key =? other).
    + destruct (is_index key && (negb (is_index k) || (key <? k))); simpl.
      * by destruct (key =? other).
      * rewrite IH. destruct (Z.eqb_spec k other) as [-> | Hko]; [| done].
        by destruct (Z.eqb_spec key other) as [-> | _].
Qed.

Lemma obj_set_length key value entries :
  (length (obj_set key value entries) ≤ S (length entries))%nat.
Proof.
  induction entries as [| [k v] entries IH]; simpl; [done |].
  destruct (k =? key); simpl; [lia |].
  destruct (is_index key && (negb (is_index k) || (key <? k))); simpl; lia.
Qed.

Lemma find_position_first quota positions found :
  find_position quota positions = Ok found →
  found = snd <$> list_find (fun p => is_amount quota p = true) positions.
Proof.
  revert found. induction positions as [| p positions IH]; intros found; simpl.
  - by intros [= <-].
  - unfold bind. destruct p as [| | b | n | s | items | fields]; simpl; try done.
    + intros Hrest. apply IH in Hrest as ->.
      by destruct (list_find _ positions) as [[i x] |].
    + intros Hrest. apply IH in Hrest as ->.
      by destruct (list_find _ positions) as [[i x] |].
    + intros Hrest. apply IH in Hrest as ->.
      by destruct (list_find _ positions) as [[i x] |].
    + intros Hrest. apply IH in Hrest as ->.
      by destruct (list_find _ positions) as [[i x] |].
    + destruct (is_num (assoc "subsidyAmount" fields) quota) eqn:Hamount.
      * intros [= <-]. by rewrite decide_True by done.
      * intros Hrest. apply IH in Hrest as ->.
        rewrite decide_False by (simpl; congruence).
        by destruct (list_find _ positions) as [[i x] |].
Qed.

Lemma match_quota_get positions ids quota ids' other :
  match_quota positions ids quota = Ok ids' →
  obj_get other ids'
  = match first_offer quota positions with
    | Some id => if quota =? other then Some id else obj_get other ids
    | None => obj_get other ids
    end.
Proof.
  unfold match_quota, bind, first_offer.
  destruct (find_position quota positions) as [found | msg] eqn:Hfind; [| done].
  apply find_position_first in Hfind as ->.
  destruct (list_find _ positions) as [[i p] |] eqn:Hlist; simpl.
  - apply list_find_Some in Hlist as (_ & Hp & _).
    destruct p as [| | b | n | s | items | fields]; try done.
    simpl. intros [= <-]. apply obj_get_set.
  - by intros [= <-].
Qed.

Lemma match_quotas_get positions remaining :
  ∀ ids ids',
    match_quotas positions remaining ids = (ids', None) →
    ∀ quota,
      obj_get quota ids'
      = if bool_decide (quota ∈ remaining)
        then match first_offer quota positions with
             | Some id => Some id
             | None => obj_get quota ids
             end
        else obj_get quota ids.
Proof.
  induction remaining as [| q remaining IH]; intros ids ids'; simpl.
  - by intros [= <-] quota.
  - destruct (match_quota positions ids q) as [ids1 | msg] eqn:Hq; [| done].
    intros Hrest quota. rewrite (IH _ _ Hrest quota).
    rewrite (match_quota_get _ _ _ _ quota Hq).
    destruct (decide (quota = q)) as [-> | Hne].
    + rewrite (bool_decide_eq_true_2 (q ∈ q :: remaining)) by (apply elem_of_cons; by left).
      rewrite Z.eqb_refl.
      by destruct (first_offer q positions), (bool_decide (q ∈ remaining)).
    + assert ((q =? quota) = false) as -> by (apply Z.eqb_neq; congruence).
      assert (bool_decide (quota ∈ q :: remaining) = bool_decide (quota ∈ remaining)) as ->.
      { apply bool_decide_ext. rewrite elem_of_cons. intuition congruence. }
      by destruct (first_offer q positions).
Qed.

Lemma match_quotas_length positions remaining :
  ∀ ids, (length (match_quotas positions remaining ids).1
          ≤ length ids + length remaining)%nat.
Proof.
  induction remaining as [| q remaining IH]; intros ids; simpl; [lia |].
  destruct (match_quota positions ids q) as [ids1 | msg] eqn:Hq; simpl; [| lia].
  specialize (IH ids1).
  assert (length ids1 ≤ S (length ids))%nat; [| lia].
  unfold match_quota, bind in Hq.
  destruct (find_position q positions) as [[p |] | msg]; simplify_eq; try lia.
  destruct (truthy p); simplify_eq; try lia.
  destruct (get p "id"); simplify_eq. apply obj_set_length.
Qed.

(** What the [try] block leaves of the account it works on. *)
Lemma savePreWorkResult_account a result :
  let a' := (savePreWorkResult a result).1 in
  accId a' = accId a ∧ username a' = username a ∧ enabled a' = enabled a ∧
  quotas a' = quotas a ∧ lastError a' = lastError a ∧
  (length (tourismSubsidyIds a') ≤ length (quotas a))%nat ∧
  match (savePreWorkResult a result).2 with
  | None => status a' = "ready" ∧ preWorkCompleted a' = true
  | Some _ =>
      status a' = status a ∧ preWorkCompleted a' = preWorkCompleted a ∧
      foodSubsidyId a' = JNull
  end.
Proof.
  unfold savePreWorkResult.
  destruct (get result "tourismSubsidyPositions") as [tp | msg]; simpl;
    [| split_and!; done || lia].
  assert (length (match is_array tp with
                  | Some positions => match_quotas positions (quotas a) []
                  | None => ([], None)
                  end).1 ≤ length (quotas a))%nat as Hlen.
  { destruct (is_array tp) as [positions |]; simpl; [| lia].
    pose proof (match_quotas_length positions (quotas a) []) as Hl. simpl in Hl. lia. }
  destruct (match is_array tp with
            | Some positions => match_quotas positions (quotas a) []
            | None => ([], None)
            end) as [ids [msg |]]; simpl in *; [done |].
  destruct (get result "foodSubsidyPositions") as [fp | msg]; simpl; [| done].
  destruct (is_array fp) as [[| first rest] |]; simpl; try done.
  by destruct (get first "id").
Qed.

Lemma savePreWorkResult_ids a result quota :
  (savePreWorkResult a result).2 = None →
  obj_get quota (tourismSubsidyIds (savePreWorkResult a result).1)
  = match get result "tourismSubsidyPositions" with
    | Ok (JArr positions) =>
        if bool_decide (quota ∈ quotas a) then first_offer quota positions else None
    | _ => None
    end.
Proof.
  unfold savePreWorkResult.
  destruct (get result "tourismSubsidyPositions") as [tp | msg]; simpl; [| done].
  destruct tp as [| | b | n | s | positions | fields]; simpl.
  all: try (destruct (match_quotas positions (quotas a) []) as [ids [msg |]] eqn:Hids;
            simpl; [done |]).
  all: destruct (get result "foodSubsidyPositions") as [fp | msg]; simpl; [| done].
  all: destruct (is_array fp) as [[| first rest] |]; simpl; try done.
  all: try (destruct (get first "id"); simpl; try done).
  all: intros _; pose proof (match_quotas_get _ _ _ _ Hids quota) as Hget; simpl in Hget;
    rewrite Hget; by destruct (bool_decide _), (first_offer quota positions).
Qed.

Lemma savePreWorkResult_food a result :
  (savePreWorkResult a result).2 = None →
  match get result "foodSubsidyPositions" with
  | Ok (JArr (first :: _)) =>
      get first "id" = Ok (foodSubsidyId (savePreWorkResult a result).1)
  | _ => foodSubsidyId (savePreWorkResult a result).1 = JNull
  end.
Proof.
  unfold savePreWorkResult.
  destruct (get result "tourismSubsidyPositions") as [tp | msg]; simpl; [| done].
  destruct (match is_array tp with
            | Some positions => match_quotas positions (quotas a) []
            | None => ([], None)
            end) as [ids [msg |]]; simpl; [done |].
  destruct (get result "foodSubsidyPositions") as [fp | msg]; simpl; [| done].
  destruct fp as [| | b | n | s | [| first rest] | fields]; simpl; try done.
  by destruct (get first "id").
Qed.

(** X21. [setAccountPreWorkResult] for an id no account has returns false
    and changes nothing.  Otherwise it changes only the first account with
    that id.  When it returns true the account is [ready] and
    [tourismSubsidyIds] maps exactly the account's quotas for which the result
    offers a position to the id of the first such position, and
    [foodSubsidyId] is the id of the first food position, or [null].  When it
    returns false the account is in [error], its food id is [null], and
    [preWorkCompleted] is as it was. *)
Theorem setAccountPreWorkResult_matches (accounts : list managed_account) (id : string)
  (result : jsval) (quota : Z) :
  let saved := (setAccountPreWorkResult accounts id result).1 in
  let accounts' := (setAccountPreWorkResult accounts id result).2 in
  match getAccountByAccId accounts id with
  | None => saved = false ∧ accounts' = accounts
  | Some (i, a) =>
      ∃ a',
        accounts' = <[i := a']> accounts ∧
        accId a' = id ∧ enabled a' = enabled a ∧ quotas a' = quotas a ∧
        (length (tourismSubsidyIds a') ≤ length (quotas a))%nat ∧
        if saved then
          status a' = "ready" ∧ preWorkCompleted a' = true ∧
          obj_get quota (tourismSubsidyIds a')
          = match get result "tourismSubsidyPositions" with
            | Ok (JArr positions) =>
                if bool_decide (quota ∈ quotas a) then first_offer quota positions else None
            | _ => None
            end ∧
          match get result "foodSubsidyPositions" with
          | Ok (JArr (first :: _)) => get first "id" = Ok (foodSubsidyId a')
          | _ => foodSubsidyId a' = JNull
          end
        else
          status a' = "error" ∧ is_Some (lastError a') ∧
          preWorkCompleted a' = preWorkCompleted a ∧ foodSubsidyId a' = JNull
  end.
Proof.
  unfold setAccountPreWorkResult.
  destruct (getAccountByAccId accounts id) as [[i a] |] eqn:Hfind; [| done].
  apply list_find_Some in Hfind as (Hi & Hid & _).
  pose proof (savePreWorkResult_account a result) as Hacct. cbv zeta in Hacct.
  pose proof (savePreWorkResult_ids a result quota) as Hids.
  pose proof (savePreWorkResult_food a result) as Hfood.
  destruct (savePreWorkResult a result) as [a' [msg |]]; simpl in *.
  - destruct Hacct as (Ha & Hu & He & Hq & Hl & Hlen & Hs & Hp & Hf).
    eexists. split; [reflexivity |]. simpl.
    split_and!; try done. by rewrite Ha.
  - destruct Hacct as (Ha & Hu & He & Hq & Hl & Hlen & Hs & Hp).
    exists a'. split_and!; try done; [by rewrite Ha | | by apply Hfood].
    by apply Hids.
Qed.

(** *** From the pre-work to the tasks *)

Lemma getAccountByAccId_insert accounts id i a a' :
  getAccountByAccId accounts id = Some (i, a) →
  accId a' = id →
  getAccountByAccId (<[i := a']> accounts) id = Some (i, a').
Proof.
  intros (Hi & Hid & Hbefore)%list_find_Some Ha'. apply list_find_Some. split_and!.
  - apply list_lookup_insert_eq. by eapply lookup_lt_Some.
  - done.
  - intros j y Hj Hlt. rewrite list_lookup_insert_ne in Hj by lia. by eapply Hbefore.
Qed.

Lemma obj_set_Forall (P : Z * jsval → Prop) key value entries :
  Forall P entries → P (key, value) → Forall P (obj_set key value entries).
Proof.
  intros Hall Hnew. induction entries as [| [k v] entries IH]; simpl.
  - by constructor.
  - apply Forall_cons in Hall as [Hkv Hall].
    destruct (Z.eqb_spec k key) as [-> | _]; [by constructor |].
    destruct (is_index key && (negb (is_index k) || (key <? k))).
    + constructor; [done |]. by constructor.
    + constructor; [done |]. by apply IH.
Qed.

Lemma match_quotas_offered positions remaining :
  ∀ ids,
    Forall (fun entry => first_offer entry.1 positions = Some entry.2) ids →
    Forall (fun entry => first_offer entry.1 positions = Some entry.2)
      (match_quotas positions remaining ids).1.
Proof.
  induction remaining as [| q remaining IH]; intros ids Hall; simpl; [done |].
  destruct (match_quota positions ids q) as [ids1 | msg] eqn:Hq; simpl; [| done].
  apply IH. unfold match_quota, bind in Hq.
  destruct (find_position q positions) as [found | msg] eqn:Hfind; [| done].
  apply find_position_first in Hfind as ->.
  destruct (list_find _ positions) as [[i p] |] eqn:Hlist; simpl in Hq; [| by simplify_eq].
  pose proof Hlist as Hp. apply list_find_Some in Hp as (_ & Hp & _).
  destruct p as [| | b | n | s | items | fields]; try done.
  simpl in Hq. simplify_eq. apply obj_set_Forall; [done |].
  simpl. unfold first_offer. by rewrite Hlist.
Qed.

Lemma savePreWorkResult_ids_source a result :
  tourismSubsidyIds (savePreWorkResult a result).1
  = match get result "tourismSubsidyPositions" with
    | Ok (JArr positions) => (match_quotas positions (quotas a) []).1
    | _ => []
    end.
Proof.
  unfold savePreWorkResult.
  destruct (get result "tourismSubsidyPositions") as [tp | msg]; simpl; [| done].
  destruct tp as [| | b | n | s | positions | fields]; simpl.
  all: try (destruct (match_quotas positions (quotas a) []) as [ids [msg |]]; simpl;
            [done |]).
  all: destruct (get result "foodSubsidyPositions") as [fp | msg]; simpl; [| done].
  all: destruct (is_array fp) as [[| first rest] |]; simpl; try done.
  all: by destruct (get first "id").
Qed.

Lemma savePreWorkResult_offered a result :
  Forall (fun entry =>
            ∃ positions, get result "tourismSubsidyPositions" = Ok (JArr positions) ∧
                         first_offer entry.1 positions = Some entry.2)
    (tourismSubsidyIds (savePreWorkResult a result).1).
Proof.
  rewrite savePreWorkResult_ids_source.
  destruct (get result "tourismSubsidyPositions") as [tp | msg]; [| done].
  destruct tp as [| | b | n | s | positions | fields]; try done.
  eapply Forall_impl;
    [exact (match_quotas_offered positions (quotas a) [] (Forall_nil_2 _)) |].
  intros entry Hentry. by exists positions.
Qed.

Lemma match_quotas_keys positions (all_quotas remaining : list Z) :
  ∀ ids,
    (∀ quota, quota ∈ remaining → quota ∈ all_quotas) →
    Forall (fun entry => entry.1 ∈ all_quotas) ids →
    Forall (fun entry => entry.1 ∈ all_quotas) (match_quotas positions remaining ids).1.
Proof.
  induction remaining as [| q remaining IH]; intros ids Hsub Hall; simpl; [done |].
  destruct (match_quota positions ids q) as [ids1 | msg] eqn:Hq; simpl; [| done].
  apply IH; [intros quota Hin; apply Hsub, elem_of_cons; by right |].
  unfold match_quota, bind in Hq.
  destruct (find_position q positions) as [[p |] | msg]; simplify_eq; try done.
  destruct (truthy p); simplify_eq; try done.
  destruct (get p "id"); simplify_eq.
  apply obj_set_Forall; [done |]. simpl. apply Hsub, elem_of_cons. by left.
Qed.

Lemma savePreWorkResult_keys a result :
  Forall (fun entry => entry.1 ∈ quotas a)
    (tourismSubsidyIds (savePreWorkResult a result).1).
Proof.
  rewrite savePreWorkResult_ids_source.
  destruct (get result "tourismSubsidyPositions") as [tp | msg]; [| done].
  destruct tp as [| | b | n | s | positions | fields]; try done.
  by apply match_quotas_keys.
Qed.

(** The keys of safe integers are their decimal notations. *)
Lemma entries_of_safe ids :
  Forall (fun entry => safe_integer entry.1 = true) ids →
  entries_of ids = Some (map (fun '(quota, id) => (pretty quota, id)) ids).
Proof.
  induction ids as [| [quota id] ids IH]; intros Hsafe; simpl; [done |].
  apply Forall_cons in Hsafe as [Hquota Hsafe]. simpl in Hquota.
  unfold number_to_string. by rewrite Hquota, IH.
Qed.

(** X22. After [setAccountPreWorkResult] has returned true for an account
    whose quotas are safe integers, the two task generators agree on it:
    [getAccountPurchaseTasks] of the manager and [generateSubmitTasks] of the
    submitter list, task by task, the same types and the same subsidy ids in
    the same order.  Every tourism task carries a quota of the account, as a
    number in the one list and as its key in the other, and the id of the
    first position the result offers for that same quota; the food task
    carries no quota.  The tasks are at most one more than the account has
    quotas. *)
Theorem prework_result_feeds_tasks (accounts : list managed_account) (id : string)
  (result : jsval) (ticket : string) (i : nat) (a : managed_account) :
  getAccountByAccId accounts id = Some (i, a) →
  Forall (fun quota => safe_integer quota = true) (quotas a) →
  (setAccountPreWorkResult accounts id result).1 = true →
  let accounts' := (setAccountPreWorkResult accounts id result).2 in
  ∃ a' acct,
    getAccountByAccId accounts' id = Some (i, a') ∧
    to_account a' = Some acct ∧
    let submitTasks := Submitter.generateSubmitTasks acct ticket in
    let purchaseTasks := getAccountPurchaseTasks accounts' id in
    map pt_subsidyId purchaseTasks = map Submitter.task_subsidyId submitTasks ∧
    map pt_type purchaseTasks = map Submitter.task_type submitTasks ∧
    (length submitTasks ≤ length (quotas a) + 1)%nat ∧
    Forall2 (same_task (quotas a) result) purchaseTasks submitTasks.
Proof.
  intros Hfind Hsafe Hsaved accounts'. subst accounts'.
  unfold setAccountPreWorkResult in *. rewrite Hfind in *.
  pose proof Hfind as Hfound. apply list_find_Some in Hfound as (Hi & Hid & Hbefore).
  pose proof (savePreWorkResult_account a result) as Hacct. cbv zeta in Hacct.
  pose proof (savePreWorkResult_offered a result) as Hoffered.
  pose proof (savePreWorkResult_keys a result) as Hkeys.
  destruct (savePreWorkResult a result) as [a' [msg |]]; simpl in *; [done |].
  destruct Hacct as (Ha & Hu & He & Hq & Hl & Hlen & Hs & Hp).
  assert (Forall (fun entry => safe_integer entry.1 = true) (tourismSubsidyIds a')) as Hsafe'.
  { eapply Forall_impl; [exact Hkeys |]. intros entry Hin.
    by eapply Forall_forall in Hsafe. }
  exists a', (Api.Account (accId a') (username a')
                (Some (map (fun '(quota, id) => (pretty quota, id)) (tourismSubsidyIds a')))
                (foodSubsidyId a')).
  assert (getAccountByAccId (<[i := a']> accounts) id = Some (i, a')) as Hfind'
    by (apply (getAccountByAccId_insert accounts id i a a' Hfind); by rewrite Ha).
  split; [done |].
  split; [unfold to_account; by rewrite entries_of_safe |]. cbv zeta.
  unfold getAccountPurchaseTasks, Submitter.generateSubmitTasks. rewrite Hfind', Hp.
  cbn [negb Api.tourismSubsidyIds Api.foodSubsidyId default from_option Datatypes.id].
  set (acct := Api.Account _ _ _ _).
  assert (Forall2 (same_task (quotas a) result)
            (map (fun '(quota, subsidyId) =>
                    PurchaseTask "tourism" (parseInt_key quota) subsidyId a')
               (tourismSubsidyIds a'))
            (map (fun '(quota, subsidyId) =>
                    Submitter.SubmitTask "tourism" (Some quota) subsidyId acct ticket
                      ("消费" +:+ quota +:+ "档"))
               (map (fun '(quota, id) => (pretty quota, id)) (tourismSubsidyIds a'))))
    as Htourism.
  { clear Hlen. clearbody acct.
    induction (tourismSubsidyIds a') as [| [quota subsidyId] ids IH]; simpl;
      [constructor |].
    apply Forall_cons in Hoffered as [(positions & Hpositions & Hoffer) Hoffered].
    apply Forall_cons in Hkeys as [Hkey Hkeys].
    apply Forall_cons in Hsafe' as [Hquota Hsafe'].
    simpl in *. constructor; [| by apply IH].
    unfold same_task, parseInt_key. rewrite Hquota. simpl.
    split_and!; try done. by exists positions. }
  destruct (truthy (foodSubsidyId a')); cbn [negb app].
  - split_and!.
    + rewrite !map_app, !map_map. f_equal. apply map_ext. by intros [quota subsidyId].
    + rewrite !map_app, !map_map. f_equal. apply map_ext. by intros [quota subsidyId].
    + rewrite length_app, !length_map. simpl. lia.
    + apply Forall2_app; [exact Htourism |]. constructor; [| constructor].
      by unfold same_task.
  - rewrite ?app_nil_r. split_and!.
    + rewrite !map_map. apply map_ext. by intros [quota subsidyId].
    + rewrite !map_map. apply map_ext. by intros [quota subsidyId].
    + rewrite !length_map. lia.
    + exact Htourism.
Qed.

Lemma prework_result_feeds_tasks_witness :
  ∃ a' acct,
    to_account a' = Some acct ∧
    Forall2 (same_task [800; 300] Samples.positions1)
      (getAccountPurchaseTasks
         (setAccountPreWorkResult [Samples.managed1] "acc-1" Samples.positions1).2 "acc-1")
      (Submitter.generateSubmitTasks acct "T-1").
Proof.
  assert (getAccountByAccId [Samples.managed1] "acc-1" = Some (0%nat, Samples.managed1))
    as Hfind by (vm_compute; reflexivity).
  assert (Forall (fun quota => safe_integer quota = true) (quotas Samples.managed1))
    as Hsafe by (repeat constructor).
  assert ((setAccountPreWorkResult [Samples.managed1] "acc-1" Samples.positions1).1 = true)
    as Hsaved by (vm_compute; reflexivity).
  destruct (prework_result_feeds_tasks [Samples.managed1] "acc-1" Samples.positions1 "T-1"
              0 Samples.managed1 Hfind Hsafe Hsaved)
    as (a' & acct & _ & Hacct & _ & _ & _ & Htasks).
  by exists a', acct.
Defined.

(** The two lists for the sample account: the quotas as numbers and as
    keys, in key order, and the food task last. *)
Example sample_account_tasks :
  let accounts' := (setAccountPreWorkResult [Samples.managed1] "acc-1"
                      Samples.positions1).2 in
  pt_quota <$> getAccountPurchaseTasks accounts' "acc-1" = [Quota 300; Quota 800; NoQuota] ∧
  (Submitter.task_quota <$>
     from_option (fun acct => Submitter.generateSubmitTasks acct "T-1") []
       (accounts' !! 0%nat ≫= to_account))
  = [Some "300"; Some "800"; None].
Proof. vm_compute. done. Qed.

(** A quota that is no safe integer: its key is not modelled, and the quota
    of its task stands for [parseInt] of that key. *)
Example unsafe_quota_is_left_open :
  number_to_string (10 ^ 21) = None ∧ parseInt_key (10 ^ 21) = QuotaOfKey (10 ^ 21) ∧
  number_to_string (2 ^ 60) = None.
Proof. vm_compute. done. Qed.

(** The quotas 800 and 300, matched in this order, are listed by ascending
    key. *)
Example tourism_ids_in_key_order :
  tourismSubsidyIds <$> (setAccountPreWorkResult [Samples.managed1] "acc-1"
                           Samples.positions1).2
  = [[(300, JStr "p-300"); (800, JStr "p-800")]].
Proof. vm_compute. reflexivity. Qed.

(** *** Statistics and reset *)

Lemma count_account_sums accounts :
  ∀ stats,
    let stats' := foldl count_account stats accounts in
    as_total stats' = as_total stats ∧
    as_enabled stats'
    = (as_enabled stats + length (filter (fun a => enabled a = true) accounts))%nat ∧
    as_ready stats'
    = (as_ready stats + length (filter (fun a => status a = "ready") accounts))%nat ∧
    as_pending stats'
    = (as_pending stats + length (filter (fun a => status a = "pending") accounts))%nat ∧
    (as_ready stats' + as_pending stats' + as_error stats' + as_success stats'
     ≤ as_ready stats + as_pending stats + as_error stats + as_success stats
       + length accounts)%nat.
Proof.
  induction accounts as [| a accounts IH]; intros stats; [simpl; split_and!; lia |].
  specialize (IH (count_account stats a)). cbv zeta in IH |- *.
  change (foldl count_account stats (a :: accounts))
    with (foldl count_account (count_account stats a) accounts).
  destruct IH as (Ht & He & Hr & Hp & Hsum).
  rewrite Ht, He, Hr, Hp. rewrite !filter_cons. cbn [length].
  unfold count_account in *.
  destruct (enabled a); simpl in *;
    destruct (String.eqb_spec (status a) "ready") as [Hready | Hready];
    destruct (String.eqb_spec (status a) "pending") as [Hpending | Hpending];
    destruct (String.eqb_spec (status a) "error") as [Herror | Herror];
    destruct (String.eqb_spec (status a) "success") as [Hsuccess | Hsuccess];
    try congruence;
    repeat case_decide; try congruence; simpl in *; split_and!; lia.
Qed.

(** X23. [getAccountStats] counts every account under [total], the enabled
    ones under [enabled] and an account under at most one of [ready],
    [pending], [error] and [success], by its status.  After
    [resetAccountsStatus] every account is [pending], none is handed out by
    [getReadyAccounts], no account has purchase tasks, and the enabled
    accounts are the same as before. *)
Theorem resetAccountsStatus_forgets_prework (accounts : list managed_account)
  (id : string) :
  let stats := getAccountStats accounts in
  let after := getAccountStats (resetAccountsStatus accounts) in
  as_total stats = length accounts ∧
  as_enabled stats = length (getEnabledAccounts accounts) ∧
  as_ready stats = length (filter (fun a => status a = "ready") accounts) ∧
  (as_ready stats + as_pending stats + as_error stats + as_success stats
   ≤ as_total stats)%nat ∧
  as_pending after = length accounts ∧
  as_enabled after = as_enabled stats ∧
  getReadyAccounts (resetAccountsStatus accounts) = [] ∧
  getAccountPurchaseTasks (resetAccountsStatus accounts) id = [].
Proof.
  cbv zeta. unfold getAccountStats.
  destruct (count_account_sums accounts (AccountStats (length accounts) 0 0 0 0 0))
    as (Ht & He & Hr & Hp & Hsum).
  destruct (count_account_sums (resetAccountsStatus accounts)
              (AccountStats (length (resetAccountsStatus accounts)) 0 0 0 0 0))
    as (Ht' & He' & Hr' & Hp' & Hsum').
  simpl in *.
  assert (length (resetAccountsStatus accounts) = length accounts) as Hlen
    by apply length_fmap.
  assert (length (filter (fun a => status a = "pending") (resetAccountsStatus accounts))
          = length accounts) as Hpending.
  { unfold resetAccountsStatus. clear.
    induction accounts as [| a accounts IH]; [done |].
    rewrite fmap_cons. rewrite filter_cons. cbn [status]. rewrite decide_True by done.
    cbn [length]. by rewrite IH. }
  assert (length (filter (fun a => enabled a = true) (resetAccountsStatus accounts))
          = length (filter (fun a => enabled a = true) accounts)) as Henabled.
  { unfold resetAccountsStatus. clear.
    induction accounts as [| a accounts IH]; [done |].
    rewrite fmap_cons. rewrite !filter_cons. cbn [enabled].
    destruct (enabled a); repeat case_decide; try done; cbn [length]; by rewrite IH. }
  split_and!; try lia.
  - done.
  - unfold getReadyAccounts, resetAccountsStatus. clear.
    induction accounts as [| a accounts IH]; [done |].
    rewrite fmap_cons. rewrite filter_cons. cbn [enabled preWorkCompleted].
    rewrite decide_False; [done |]. by rewrite andb_false_r.
  - unfold getAccountPurchaseTasks, getAccountByAccId.
    destruct (list_find _ (resetAccountsStatus accounts)) as [[i a] |] eqn:Hfind; [| done].
    apply list_find_Some in Hfind as (Hi & _ & _).
    unfold resetAccountsStatus in Hi. rewrite list_lookup_fmap in Hi.
    destruct (accounts !! i) as [a0 |]; simpl in Hi; [| done].
    by injection Hi as <-.
Qed.

End AccountProps.

(** ** The pre-work of one account *)
Module PreWorkProps.
Import Js Api AccountManager PreWork.

#[local] Open Scope Z_scope.

Lemma get_not_nullish v k : nullish v = false → ∃ x, get v k = Ok x.
Proof. destruct v; simpl; try done; eauto. Qed.

Lemma each_position_ok items u :
  each_position items = Ok u → forallb (fun p => negb (nullish p)) items = true.
Proof.
  induction items as [| p items IH]; simpl; [done |].
  unfold bind. destruct p; simpl; try done; apply IH.
Qed.

Lemma log_positions_ok positions u :
  log_positions positions = Ok u → loggable positions = true.
Proof.
  unfold log_positions, loggable.
  destruct positions as [| | b | n | s | items | fields]; simpl; try done.
  - by destruct b.
  - by destruct (n =? 0).
  - by destruct (String.eqb s "").
  - apply each_position_ok.
Qed.

Lemma parseResponseData_ok data parsed :
  parseResponseData data = Ok parsed →
  get data "data" = Ok parsed ∧
  ∃ tourism food,
    get parsed "tourismSubsidyPositions" = Ok tourism ∧
    get parsed "foodSubsidyPositions" = Ok food ∧
    loggable tourism = true ∧ loggable food = true.
Proof.
  unfold parseResponseData, bind.
  destruct (get data "data") as [responseData | msg]; [| done].
  destruct (get responseData "tourismSubsidyPositions") as [tourism | msg] eqn:Ht; [| done].
  destruct (get responseData "foodSubsidyPositions") as [food | msg] eqn:Hf; [| done].
  destruct (log_positions tourism) as [u1 | msg] eqn:Hlt; [| done].
  destruct (log_positions food) as [u2 | msg] eqn:Hlf; [| done].
  intros [= <-]. split; [done |]. exists tourism, food.
  split_and!; try done; by eapply log_positions_ok.
Qed.

Lemma find_position_total quota positions :
  forallb (fun p => negb (nullish p)) positions = true →
  ∃ found, find_position quota positions = Ok found ∧
           from_option (fun p => nullish p = false) True found.
Proof.
  induction positions as [| p positions IH]; simpl; [by exists None |].
  intros [Hp Hrest]%andb_true_iff. apply negb_true_iff in Hp.
  destruct (get_not_nullish p "subsidyAmount" Hp) as [amount ->]. unfold bind.
  destruct (is_num amount quota); [by exists (Some p) |]. by apply IH.
Qed.

Lemma match_quotas_total positions remaining :
  forallb (fun p => negb (nullish p)) positions = true →
  ∀ ids, (match_quotas positions remaining ids).2 = None.
Proof.
  intros Hpositions. induction remaining as [| q remaining IH]; intros ids; simpl; [done |].
  unfold match_quota, bind.
  destruct (find_position_total q positions Hpositions) as (found & -> & Hfound).
  destruct found as [p |]; simpl in *; [| apply IH].
  destruct (truthy p); [| apply IH].
  destruct (get_not_nullish p "id" Hfound) as [id ->]. apply IH.
Qed.

Lemma savePreWorkResult_total a parsed tourism food :
  get parsed "tourismSubsidyPositions" = Ok tourism →
  get parsed "foodSubsidyPositions" = Ok food →
  loggable tourism = true → loggable food = true →
  (savePreWorkResult a parsed).2 = None.
Proof.
  intros Ht Hf Hlt Hlf. unfold savePreWorkResult. rewrite Ht, Hf.
  assert ((match is_array tourism with
           | Some positions => match_quotas positions (quotas a) []
           | None => ([], None)
           end).2 = None) as Hnone.
  { destruct tourism as [| | b | n | s | positions | fields]; simpl; try done.
    by apply match_quotas_total. }
  destruct (match is_array tourism with
            | Some positions => match_quotas positions (quotas a) []
            | None => ([], None)
            end) as [ids thrown]; simpl in Hnone; subst thrown.
  destruct food as [| | b | n | s | [| first rest] | fields]; simpl; try done.
  simpl in Hlf. apply andb_true_iff in Hlf as [Hfirst _]. apply negb_true_iff in Hfirst.
  by destruct (get_not_nullish first "id" Hfirst) as [id ->].
Qed.

(** X24. [executeForAccount] for an account the manager knows changes only
    that account and never leaves it [processing]: it returns success and
    leaves the account [ready], with the pre-work completed, exactly when the
    call succeeded, the body passed [validateResponse] and
    [parseResponseData] did not throw on it; in every other case it returns
    failure and leaves the account in [error] with the error recorded.  An
    account the manager does not know gives failure and changes nothing. *)
Theorem executeForAccount_ready_or_error (accounts : list managed_account) (id : string)
  (reply : api_reply) :
  let done := (executeForAccount accounts id reply).1 in
  let accounts' := (executeForAccount accounts id reply).2 in
  match getAccountByAccId accounts id with
  | None => done = false ∧ accounts' = accounts
  | Some (i, a) =>
      (done = true ↔
       ∃ data parsed, reply = Fulfilled (ApiSuccess data) ∧
                      validateResponse data = Ok true ∧
                      parseResponseData data = Ok parsed) ∧
      ∃ a', accounts' = <[i := a']> accounts ∧ accId a' = id ∧
            if done
            then status a' = "ready" ∧ preWorkCompleted a' = true
            else status a' = "error" ∧ is_Some (lastError a')
  end.
Proof.
  cbv zeta. unfold executeForAccount.
  destruct (getAccountByAccId accounts id) as [[i a] |] eqn:Hfind.
  - pose proof Hfind as (Hi & Hid & _)%list_find_Some.
    set (a1 := ManagedAccount (accId a) (username a) (enabled a) (quotas a) "processing" None
                 (preWorkCompleted a) (tourismSubsidyIds a) (foodSubsidyId a)).
    assert (getAccountByAccId (<[i := a1]> accounts) id = Some (i, a1)) as Hfind1
      by by apply (AccountProps.getAccountByAccId_insert accounts id i a a1).
    assert (updateAccountStatus accounts id "processing" None = <[i := a1]> accounts) as ->
      by (unfold updateAccountStatus; by rewrite Hfind).
    assert (∀ msg,
              updateAccountStatus (<[i := a1]> accounts) id "error" (Some msg)
              = <[i := ManagedAccount (accId a) (username a) (enabled a) (quotas a) "error"
                         (Some msg) (preWorkCompleted a) (tourismSubsidyIds a)
                         (foodSubsidyId a)]> accounts) as Hfailed.
    { intros msg. unfold updateAccountStatus. rewrite Hfind1.
      by rewrite list_insert_insert_eq. }
    unfold executeForAccount_body.
    destruct reply as [[data | message] | code message].
    + destruct (validateResponse data) as [[|] | msg] eqn:Hvalid.
      * destruct (parseResponseData data) as [parsed | msg] eqn:Hparsed.
        -- destruct (parseResponseData_ok _ _ Hparsed)
             as (_ & tourism & food & Ht & Hf & Hlt & Hlf).
           unfold setAccountPreWorkResult. rewrite Hfind1.
           pose proof (savePreWorkResult_total a1 parsed tourism food Ht Hf Hlt Hlf) as Hnone.
           pose proof (AccountProps.savePreWorkResult_account a1 parsed) as Hacct.
           cbv zeta in Hacct.
           destruct (savePreWorkResult a1 parsed) as [a2 thrown]; simpl in Hnone; subst thrown.
           simpl in *. destruct Hacct as (Ha & _ & _ & _ & _ & _ & Hs & Hp).
           split; [split; [intros _; by exists data, parsed | done] |].
           exists a2. rewrite list_insert_insert_eq. split_and!; try done. by rewrite Ha.
        -- rewrite Hfailed. simpl. split.
           ++ split; [done |]. intros (d & p & [= <-] & _ & Hp). congruence.
           ++ eexists. split; [reflexivity |]. simpl. split_and!; first [done | by eexists].
      * rewrite Hfailed. simpl. split.
        -- split; [done |]. intros (d & p & [= <-] & Hv & _). congruence.
        -- eexists. split; [reflexivity |]. simpl. split_and!; first [done | by eexists].
      * rewrite Hfailed. simpl. split.
        -- split; [done |]. intros (d & p & [= <-] & Hv & _). congruence.
        -- eexists. split; [reflexivity |]. simpl. split_and!; first [done | by eexists].
    + rewrite Hfailed. simpl. split.
      * split; [done |]. by intros (d & p & [=] & _).
      * eexists. split; [reflexivity |]. simpl. split_and!; first [done | by eexists].
    + rewrite Hfailed. simpl. split.
      * split; [done |]. by intros (d & p & [=] & _).
      * eexists. split; [reflexivity |]. simpl. split_and!; first [done | by eexists].
  - assert (∀ st err, updateAccountStatus accounts id st err = accounts) as Hsame
      by (intros; unfold updateAccountStatus; by rewrite Hfind).
    rewrite Hsame. unfold executeForAccount_body.
    destruct reply as [[data | message] | code message]; simpl; rewrite ?Hsame; try done.
    destruct (validateResponse data) as [[|] | msg]; simpl; rewrite ?Hsame; try done.
    destruct (parseResponseData data) as [parsed | msg]; simpl; rewrite ?Hsame; try done.
    unfold setAccountPreWorkResult. rewrite Hfind. simpl. by rewrite Hsame.
Qed.

End PreWorkProps.

(** ** Random selection from the proxy pool *)
Module ProxyRandom.
Import ProxyPool.
Import Samples.

#[local] Open Scope Z_scope.

Lemma available_usable entries i :
  i ∈ available entries ↔ ∃ p, entries !! i = Some p ∧ usable p = true.
Proof.
  unfold available. rewrite list_elem_of_filter, elem_of_seq. split.
  - intros [Husable _]. destruct (entries !! i) as [p |]; [| done]. by exists p.
  - intros (p & Hp & Husable). rewrite Hp. split; [done |].
    apply lookup_lt_Some in Hp. lia.
Qed.

Lemma none_available entries :
  (length (available entries) =? 0)%nat = true →
  Forall (fun p => usable p = false) entries.
Proof.
  intros Hnone%Nat.eqb_eq%nil_length_inv. apply Forall_lookup. intros i p Hp.
  destruct (usable p) eqn:Husable; [| done].
  assert (i ∈ available entries) as Hin by (apply available_usable; by exists p).
  rewrite Hnone in Hin. by apply elem_of_nil in Hin.
Qed.

Lemma pick_usable pl rand_num rand_den now r pl' :
  pick pl rand_num rand_den now = Ok (r, pl') →
  ∃ i p, proxies pl !! i = Some p ∧ usable p = true ∧ r = route_of p ∧
         proxies pl' = <[i := touch now p]> (proxies pl) ∧
         currentIndex pl' = currentIndex pl.
Proof.
  unfold pick.
  destruct (available (proxies pl) !! _) as [i |] eqn:Hi; [| done].
  apply list_elem_of_lookup_2 in Hi. apply available_usable in Hi as (p & Hp & Husable).
  rewrite Hp. intros [= <- <-]. by exists i, p.
Qed.

(** X25. A route [getRandomProxy] returns is the route of a usable entry,
    which alone gets its [lastUsed] set; only when no entry at all was usable
    are the fail counts reset first, and the entry is then one usable after
    the reset.  The round-robin index and the size of the pool stay as they
    are. *)
Theorem getRandomProxy_picks_usable (pl : pool) (rand_num rand_den : nat) (now : Z)
  (r : route) (pl' : pool) :
  getRandomProxy pl rand_num rand_den now = Ok (r, pl') →
  currentIndex pl' = currentIndex pl ∧
  length (proxies pl') = length (proxies pl) ∧
  ∃ i p,
    usable p = true ∧ r = route_of p ∧
    ((proxies pl !! i = Some p ∧ proxies pl' = <[i := touch now p]> (proxies pl)) ∨
     (Forall (fun q => usable q = false) (proxies pl) ∧
      (forgiven <$> proxies pl) !! i = Some p ∧
      proxies pl' = <[i := touch now p]> (forgiven <$> proxies pl))).
Proof.
  unfold getRandomProxy.
  destruct (length (proxies pl) =? 0)%nat; [done |].
  destruct (length (available (proxies pl)) =? 0)%nat eqn:Hnone.
  - apply none_available in Hnone.
    destruct (length (available (proxies (resetFailCounts pl))) =? 0)%nat; [done |].
    intros (i & p & Hp & Husable & -> & Hpl' & Hindex)%pick_usable.
    simpl in *. rewrite Hpl', length_insert, length_fmap.
    split_and!; try done. exists i, p. split_and!; try done. by right.
  - intros (i & p & Hp & Husable & -> & Hpl' & Hindex)%pick_usable.
    rewrite Hpl', length_insert.
    split_and!; try done. exists i, p. split_and!; try done. by left.
Qed.

Lemma getRandomProxy_picks_usable_witness :
  ∃ r pl', getRandomProxy lapsed 1 2 2000 = Ok (r, pl') ∧
           currentIndex pl' = currentIndex lapsed.
Proof.
  destruct (getRandomProxy lapsed 1 2 2000) as [[r pl'] | msg] eqn:Hpick;
    [| by vm_compute in Hpick].
  exists r, pl'. split; [done |].
  exact (proj1 (getRandomProxy_picks_usable lapsed 1 2 2000 r pl' Hpick)).
Defined.

End ProxyRandom.

(** ** The timers that watch the lease *)
Module ProxyExpiryProps.
Import ProxyExpiry.

#[local] Open Scope Z_scope.

Lemma startExpireMonitoring_keeps m now :
  exited m = None →
  exited (startExpireMonitoring m now) ≠ None ∨
  (exited (startExpireMonitoring m now) = None ∧
   expireTime (startExpireMonitoring m now) = expireTime m ∧
   ∃ added, expiryTimeouts (startExpireMonitoring m now) = expiryTimeouts m ++ added).
Proof.
  intros Hrun. unfold startExpireMonitoring. simpl.
  destruct (expireTime m) as [deadline |] eqn:Hd; simpl.
  - destruct (deadline <=? now); simpl; [by left |].
    right. split_and!; try done. by eexists.
  - right. split_and!; try done. exists []. by rewrite app_nil_r.
Qed.

Lemma step_keeps_timeouts m e :
  exited m = None → is_timeout e = false →
  exited (step m e) ≠ None ∨
  (exited (step m e) = None ∧ ∃ added, expiryTimeouts (step m e) = expiryTimeouts m ++ added).
Proof.
  intros Hrun He. unfold step. rewrite Hrun.
  destruct e as [deadline now | assigned | now | i |]; try done.
  - unfold refreshed.
    destruct (startExpireMonitoring_keeps
                (Monitor (Some deadline) (refreshTimer m) (expireCheckTimer m)
                   (expiryTimeouts m) (onExpired m) (exited m)) now Hrun)
      as [Hexit | (Hstill & _ & added & Hadded)]; [by left |].
    right. split; [done |]. by exists added.
  - right. destruct assigned; simpl; (split; [done |]); exists []; by rewrite app_nil_r.
  - unfold onExpireCheck.
    destruct (expireCheckTimer m); [| right; split; [done |]; exists []; by rewrite app_nil_r].
    destruct (expireTime m) as [deadline |];
      [| right; split; [done |]; exists []; by rewrite app_nil_r].
    destruct (deadline <=? now); [by left |].
    right. split; [done |]. exists []. by rewrite app_nil_r.
  - right. split; [done |]. exists []. by rewrite app_nil_r.
Qed.

Lemma run_keeps_timeouts events :
  ∀ m, exited m = None → Forall (fun e => is_timeout e = false) events →
       exited (foldl step m events) ≠ None ∨
       (exited (foldl step m events) = None ∧
        ∃ added, expiryTimeouts (foldl step m events) = expiryTimeouts m ++ added).
Proof.
  induction events as [| e events IH]; intros m Hrun Hall; simpl.
  - right. split; [done |]. exists []. by rewrite app_nil_r.
  - apply Forall_cons in Hall as [He Hall].
    destruct (step_keeps_timeouts m e Hrun He) as [Hexit | (Hstill & added & Hadded)].
    + left. clear IH Hall. revert Hexit. generalize (step m e). clear.
      induction events as [| e events IH]; intros m Hexit; simpl; [done |].
      apply IH. unfold step. destruct (exited m) eqn:Hm; [by rewrite Hm | done].
    + destruct (IH (step m e) Hstill Hall) as [Hexit | (Hstill' & added' & Hadded')];
        [by left |].
      right. split; [done |]. exists (added ++ added').
      by rewrite Hadded', Hadded, <- app_assoc.
Qed.

(** X26. The one-shot timer that [startExpireMonitoring] sets for the end
    of the lease is cancelled by nothing.  After [initialize] with a lease
    ending at [deadline], whatever refreshes, lease extensions and interval
    checks follow, either the process has been ended already or the timer set
    for [deadline] is still the oldest pending one, and when it fires
    [handleExpired] ends the process, whatever [expireTime] has become in the
    meantime. *)
Theorem expiry_timeout_survives_refresh (deadline fetched_at started_at : Z)
  (events : list event) :
  fetched_at < deadline → started_at < deadline →
  Forall (fun e => is_timeout e = false) events →
  let m := foldl step (initialize new_ProxyPool deadline fetched_at started_at) events in
  exited m ≠ None ∨
  (expiryTimeouts m !! 0%nat = Some deadline ∧
   exited (step m (ExpiryTimeout 0)) = Some (if onExpired m then 0 else 1)).
Proof.
  intros Hfetched Hstarted Hall.
  assert (initialize new_ProxyPool deadline fetched_at started_at
          = Monitor (Some deadline) true true
              [fetched_at + (deadline - fetched_at); started_at + (deadline - started_at)]
              false None) as Hinit.
  { unfold initialize, refreshed, startExpireMonitoring, scheduleRefresh; simpl.
    assert ((deadline <=? fetched_at) = false) as -> by (apply Z.leb_gt; lia). simpl.
    by assert ((deadline <=? started_at) = false) as -> by (apply Z.leb_gt; lia). }
  rewrite Hinit.
  destruct (run_keeps_timeouts events
              (Monitor (Some deadline) true true
                 [fetched_at + (deadline - fetched_at);
                  started_at + (deadline - started_at)] false None) eq_refl Hall)
    as [Hexit | (Hstill & added & Hadded)]; [by left |].
  right. cbv zeta. simpl in Hadded.
  set (m := foldl step _ events) in *.
  assert (expiryTimeouts m !! 0%nat = Some deadline) as Hfirst.
  { rewrite Hadded. simpl. f_equal. lia. }
  split; [done |].
  unfold step. rewrite Hstill. unfold onExpiryTimeout. by rewrite Hfirst.
Qed.

Lemma expiry_timeout_survives_refresh_witness :
  let m := foldl step (initialize new_ProxyPool 300000 0 5)
             [CallbackSet; Refreshed 540000 240000; FetchFailed None; ExpireCheck 270000] in
  expireTime m = Some 540000 ∧ exited (step m (ExpiryTimeout 0)) = Some 0.
Proof.
  assert (Forall (fun e => is_timeout e = false)
            [CallbackSet; Refreshed 540000 240000; FetchFailed None; ExpireCheck 270000]) as Hall
    by (repeat constructor).
  destruct (expiry_timeout_survives_refresh 300000 0 5
              [CallbackSet; Refreshed 540000 240000; FetchFailed None; ExpireCheck 270000]
              ltac:(lia) ltac:(lia) Hall) as [Hexit | [_ Hfire]].
  - by vm_compute in Hexit.
  - split; [by vm_compute | exact Hfire].
Defined.

End ProxyExpiryProps.
